(** * bip39-sss: Shamir secret sharing of BIP39 seed phrases

    A shallow embedding of [src/utils.py] and of the verification block of
    [src/make_shares.py], with the properties of the specification stated
    and proved (or refuted) against it.

    Python integers are [Z]; [//] and [%] are [Z.div] and [Z.modulo]
    (both languages round towards minus infinity and give the remainder
    the sign of the divisor), with the [ZeroDivisionError] of a zero
    divisor written out.  Exceptions are values of [exn], carried by
    [result]. *)

From Stdlib Require Import String Ascii.
From Stdlib.Strings Require Import Byte.
From Stdlib Require Import ZArith Zdivisibility List Lia Bool Permutation.
From Stdlib Require Import Morphisms Setoid.
From Stdlib Require Zmod.ZmodInv.
Import ListNotations.

Local Open Scope Z_scope.

(** ** Exceptions and results *)

(** The [ValueError]s the program raises, one tag per message. *)
Inductive value_error : Type :=
| StrengthNotAllowed        (* int_to_seed, seed_to_int *)
| MoreSharesNeeded          (* minimum > n_shares *)
| SeedLengthNotAllowed      (* seed phrase word count *)
| ShareStrengthNotAllowed
| ShareStrengthTooLow
| NeedTwoShares
| SharesDifferentLengths
| SeedStrengthNotAllowed
| FailedToRecover
| NegativeLength.           (* itertools.permutations with r < 0 *)

Inductive exn : Type :=
| ValueError (e : value_error)
| AssertionError
| OverflowError
| ZeroDivisionError
| IndexError
| KeyError
| MnemonicError.            (* raised inside the mnemonic library *)

Inductive result (A : Type) : Type :=
| Ok (a : A)
| Err (e : exn).
Arguments Ok {A} a.
Arguments Err {A} e.

Definition rbind {A B} (r : result A) (f : A -> result B) : result B :=
  match r with
  | Ok a => f a
  | Err e => Err e
  end.

Declare Scope result_scope.
Delimit Scope result_scope with result.
Notation "x <- r ;; k" := (rbind r (fun x => k))
  (at level 61, r at next level, right associativity) : result_scope.
Local Open Scope result_scope.

(** [[f(x) for x in l]] where [f] may raise: the first exception wins. *)
Fixpoint rmap {A B} (f : A -> result B) (l : list A) : result (list B) :=
  match l with
  | [] => Ok []
  | a :: t => b <- f a ;; bs <- rmap f t ;; Ok (b :: bs)
  end.

(** Python's [a % b]. *)
Definition py_mod (a b : Z) : result Z :=
  if b =? 0 then Err ZeroDivisionError else Ok (a mod b).

(** [range(a, b)]. *)
Definition range (a b : Z) : list Z :=
  map (fun i => a + Z.of_nat i) (seq 0 (Z.to_nat (b - a))).

(** [x in l] for a list of integers. *)
Definition in_list (x : Z) (l : list Z) : bool := existsb (Z.eqb x) l.

(** [len(set(l))]. *)
Definition len_set (l : list Z) : nat := length (nodup Z.eq_dec l).

(** [d[key]] for a dict written as an association list. *)
Fixpoint dict_get (d : list (Z * Z)) (key : Z) : result Z :=
  match d with
  | [] => Err KeyError
  | (k, v) :: rest => if k =? key then Ok v else dict_get rest key
  end.

(** ** Strings and bytes *)

Definition is_space (c : ascii) : bool := Ascii.eqb c " "%char.

(** [s.split(" ")]: never empty; consecutive spaces give empty words. *)
Fixpoint split_space (s : string) : list string :=
  match s with
  | EmptyString => [EmptyString]
  | String c rest =>
      if is_space c then EmptyString :: split_space rest
      else match split_space rest with
           | w :: ws => String c w :: ws
           | [] => [String c EmptyString]
           end
  end.

(** [" ".join(ws)]. *)
Fixpoint join_space (ws : list string) : string :=
  match ws with
  | [] => EmptyString
  | [w] => w
  | w :: rest => (w ++ String " "%char (join_space rest))%string
  end.

(** [len(s.split(" "))]. *)
Definition word_count (s : string) : Z := Z.of_nat (length (split_space s)).

(** The [len] digits of [v] in base [base], least significant first. *)
Fixpoint digits_le (base : Z) (len : nat) (v : Z) : list Z :=
  match len with
  | O => []
  | S len' => v mod base :: digits_le base len' (v / base)
  end.

(** Most significant first, and back. *)
Definition digits_be (base : Z) (len : nat) (v : Z) : list Z :=
  rev (digits_le base len v).

Definition of_digits_be (base : Z) (ds : list Z) : Z :=
  fold_left (fun acc d => acc * base + d) ds 0.

Definition Z_of_byte (b : byte) : Z := Z.of_N (Byte.to_N b).

Definition byte_of_Z (z : Z) : byte :=
  match Byte.of_N (Z.to_N z) with
  | Some b => b
  | None => x00
  end.

(** [int.to_bytes(number, length=len, byteorder="big")]: unsigned, and
    [OverflowError] when [number] is negative or needs more than [len]
    bytes. *)
Definition int_to_bytes (number len : Z) : result (list byte) :=
  if (number <? 0) || (256 ^ len <=? number) then Err OverflowError
  else Ok (map byte_of_Z (digits_be 256 (Z.to_nat len) number)).

(** [int.from_bytes(bs, "big")]. *)
Definition int_from_bytes (bs : list byte) : Z :=
  of_digits_be 256 (map Z_of_byte bs).

(** ** The mnemonic library

    [Mnemonic("english")] is an external collaborator: the program only
    calls [to_mnemonic] and [to_entropy], which raise on bad input. *)
Class Mnemonic : Type := {
  to_mnemonic : list byte -> option string;
  to_entropy : string -> option (list byte)
}.

Definition mnemonic_call {A} (o : option A) : result A :=
  match o with
  | Some a => Ok a
  | None => Err MnemonicError
  end.

(** What the library guarantees of the two calls: [to_mnemonic] takes
    16, 20, 24, 28 or 32 bytes and gives three words per four bytes;
    [to_entropy] decodes what [to_mnemonic] returns, and whatever it
    decodes has three words per four bytes of the result.  [to_entropy]
    normalises every word before it looks it up, so it also decodes other
    spellings of a phrase: [to_mnemonic] need not give back the phrase
    that [to_entropy] was given. *)
Record MnemonicLaws (mnemo : Mnemonic) : Prop := {
  to_mnemonic_defined : forall data,
    (exists phrase, to_mnemonic data = Some phrase) <->
    In (Z.of_nat (length data)) [16; 20; 24; 28; 32];
  to_mnemonic_words : forall data phrase,
    to_mnemonic data = Some phrase ->
    word_count phrase = Z.of_nat (length data) / 4 * 3;
  to_entropy_to_mnemonic : forall data phrase,
    to_mnemonic data = Some phrase -> to_entropy phrase = Some data;
  to_entropy_words : forall phrase data,
    to_entropy phrase = Some data ->
    In (Z.of_nat (length data)) [16; 20; 24; 28; 32] /\
    word_count phrase = Z.of_nat (length data) / 4 * 3
}.

(** ** Randomness

    [random_int] is the only effect of [utils.py].  A program is a tree
    that asks [randint(lo, hi)] and goes on with the answer. *)
Inductive prog (A : Type) : Type :=
| Return (a : A)
| Raise (e : exn)
| RandInt (lo hi : Z) (k : Z -> prog A).
Arguments Return {A} a.
Arguments Raise {A} e.
Arguments RandInt {A} lo hi k.

Fixpoint pbind {A B} (m : prog A) (f : A -> prog B) : prog B :=
  match m with
  | Return a => f a
  | Raise e => Raise e
  | RandInt lo hi k => RandInt lo hi (fun c => pbind (k c) f)
  end.

Definition lift {A} (r : result A) : prog A :=
  match r with
  | Ok a => Return a
  | Err e => Raise e
  end.

Declare Scope prog_scope.
Delimit Scope prog_scope with prog.
Notation "x <~ m ;; k" := (pbind m (fun x => k))
  (at level 61, m at next level, right associativity) : prog_scope.

(** A comprehension whose body draws. *)
Fixpoint pmap {A B} (f : A -> prog B) (l : list A) : prog (list B) :=
  match l with
  | [] => Return []
  | a :: t => (b <~ f a ;; bs <~ pmap f t ;; Return (b :: bs))%prog
  end.

(** [run m draws]: the result of [m] when the successive calls of
    [randint] return [draws].  [randint(lo, hi)] returns an [N] with
    [lo <= N <= hi]; a list that is too short, too long or out of these
    bounds describes no execution. *)
Fixpoint run {A} (m : prog A) (draws : list Z) : option (result A) :=
  match m, draws with
  | Return a, [] => Some (Ok a)
  | Raise e, [] => Some (Err e)
  | RandInt lo hi k, c :: rest =>
      if (lo <=? c) && (c <=? hi) then run (k c) rest else None
  | _, _ => None
  end.

Definition yields {A} (m : prog A) (draws : list Z) (r : result A) : Prop :=
  run m draws = Some r.

(** ** utils.py *)

Definition PRIMES : list (Z * Z) :=
  [ (128, 2 ^ 128 - 159);
    (160, 2 ^ 160 - 47);
    (192, 2 ^ 192 - 237);
    (224, 2 ^ 224 - 63);
    (256, 2 ^ 256 - 189) ].

Definition STRENGTH_ALLOWED : list Z := [128; 160; 192; 224; 256].

Definition LENGTH_ALLOWED : list Z := [12; 15; 18; 21; 24].

(** [partial(SystemRandom().randint, 0)]. *)
Definition random_int (hi : Z) : prog Z := RandInt 0 hi Return.

(** A share: its index and its phrase. *)
Abbreviation share := (Z * string)%type.

(** *** Field arithmetic *)

Definition abs_lt (x y : Z) : Prop := Z.abs x < Z.abs y.

Lemma abs_lt_wf : well_founded abs_lt.
Proof.
  apply (well_founded_lt_compat Z Z.abs_nat).
  unfold abs_lt. intros x y H. lia.
Qed.

Lemma abs_lt_mod a b : b <> 0 -> abs_lt (a mod b) b.
Proof.
  intro Hb. unfold abs_lt.
  destruct (Z_lt_le_dec 0 b) as [Hpos|Hneg].
  - pose proof (Z.mod_pos_bound a b Hpos). lia.
  - pose proof (Z.mod_neg_bound a b ltac:(lia)). lia.
Qed.

(** The loop of [_extended_gcd] on its six variables.  Inside the loop
    [b != 0], so [//] and [%] do not raise; [|b|] decreases, which is what
    the last argument records. *)
Fixpoint egcd_loop_acc (a b x last_x y last_y : Z) (acc : Acc abs_lt b)
    {struct acc} : Z * Z :=
  match Z.eq_dec b 0 with
  | left _ => (last_x, last_y)
  | right nonzero =>
      let quot := a / b in
      egcd_loop_acc b (a mod b) (last_x - quot * x) x (last_y - quot * y) y
                    (Acc_inv acc (abs_lt_mod a b nonzero))
  end.

(** The guard lets closed calls evaluate without opening [abs_lt_wf]. *)
Definition egcd_loop (a b x last_x y last_y : Z) : Z * Z :=
  egcd_loop_acc a b x last_x y last_y (Acc_intro_generator 12 abs_lt_wf b).

Definition _extended_gcd (a b : Z) : Z * Z := egcd_loop a b 0 1 1 0.

(** [_divmod]: the product is returned as it is, not reduced. *)
Definition _divmod (num den p : Z) : Z :=
  let '(inv, _) := _extended_gcd den p in
  num * inv.

(** *** Lagrange interpolation *)

(** The inner [PI]: the product of its inputs. *)
Definition PI (vals : list Z) : Z := fold_left Z.mul vals 1.

(** [sum(l)]. *)
Definition sum (l : list Z) : Z := fold_left Z.add l 0.

(** What is left of [l] after [l.pop(i)]. *)
Definition pop {A} (i : nat) (l : list A) : list A :=
  firstn i l ++ skipn (S i) l.

(** [l[i]]. *)
Definition index {A} (l : list A) (i : nat) : result A :=
  match nth_error l i with
  | Some a => Ok a
  | None => Err IndexError
  end.

Definition _lagrange_interpolate (x : Z) (x_s y_s : list Z) (p : Z)
  : result Z :=
  let k := length x_s in
  if negb (k =? len_set x_s)%nat then Err AssertionError
  else
    let nums :=
      map (fun i => PI (map (fun o => x - o) (pop i x_s))) (seq 0 k) in
    let dens :=
      map (fun i => let cur := nth i x_s 0 in
                    PI (map (fun o => cur - o) (pop i x_s))) (seq 0 k) in
    let den := PI dens in
    terms <- rmap (fun i =>
                     y_i <- index y_s i ;;
                     t <- py_mod (nth i nums 0 * den * y_i) p ;;
                     Ok (_divmod t (nth i dens 0) p))
                  (seq 0 k) ;;
    let num := sum terms in
    py_mod (_divmod num den p + p) p.

(** *** Polynomial evaluation *)

Fixpoint eval_loop (coeffs : list Z) (x prime accum : Z) : result Z :=
  match coeffs with
  | [] => Ok accum
  | coeff :: rest =>
      accum' <- py_mod (accum * x + coeff) prime ;;
      eval_loop rest x prime accum'
  end.

Definition _eval_at (poly : list Z) (x prime : Z) : result Z :=
  eval_loop (rev poly) x prime 0.

Section Utils.

Context {mnemo : Mnemonic}.

Definition int_to_seed (number strength : Z) : result string :=
  if negb (in_list strength STRENGTH_ALLOWED)
  then Err (ValueError StrengthNotAllowed)
  else
    entropy_as_bytes <- int_to_bytes number (strength / 8) ;;
    mnemonic_call (to_mnemonic entropy_as_bytes).

Definition seed_to_int (seed : string) (strength : Z) : result Z :=
  if negb (in_list strength STRENGTH_ALLOWED)
  then Err (ValueError StrengthNotAllowed)
  else
    entropy <- mnemonic_call (to_entropy seed) ;;
    Ok (int_from_bytes entropy).

Definition make_random_shares (seed : string)
    (minimum n_shares share_strength : Z) : prog (list share) :=
  if minimum >? n_shares then Raise (ValueError MoreSharesNeeded)
  else
    let seed_length := word_count seed in
    if negb (in_list seed_length LENGTH_ALLOWED)
    then Raise (ValueError SeedLengthNotAllowed)
    else
      let seed_strength := seed_length / 3 * 32 in
      if negb (in_list share_strength STRENGTH_ALLOWED)
      then Raise (ValueError ShareStrengthNotAllowed)
      else if share_strength <? seed_strength
      then Raise (ValueError ShareStrengthTooLow)
      else
        (prime <~ lift (dict_get PRIMES share_strength) ;;
         secret <~ lift (seed_to_int seed 256) ;;
         rest <~ pmap (fun _ => random_int (prime - 1))
                      (range 0 (minimum - 1)) ;;
         let poly := secret :: rest in
         points <~ lift (rmap (fun i => y <- _eval_at poly i prime ;;
                                        Ok (i, y))
                              (range 1 (n_shares + 1))) ;;
         shares <~ lift (rmap (fun '(i, point) =>
                                 s <- int_to_seed point share_strength ;;
                                 Ok (i, s))
                              points) ;;
         Return shares)%prog.

(** [prime=None] and [prime=0] both take the default. *)
Definition recover_seed (shares : list share) (seed_strength : Z)
    (prime : option Z) : result string :=
  if (length shares <? 2)%nat then Err (ValueError NeedTwoShares)
  else
    let len_shares := map (fun '(i, sh) => word_count sh) shares in
    if negb (len_set len_shares =? 1)%nat
    then Err (ValueError SharesDifferentLengths)
    else if negb (in_list seed_strength STRENGTH_ALLOWED)
    then Err (ValueError SeedStrengthNotAllowed)
    else
      let default :=
        let share_word_length := word_count (snd (hd (0, EmptyString) shares)) in
        let share_strength := share_word_length / 3 * 32 in
        dict_get PRIMES share_strength in
      prime <- match prime with
               | Some p => if p =? 0 then default else Ok p
               | None => default
               end ;;
      shares <- rmap (fun '(i, seed) =>
                        y <- seed_to_int seed seed_strength ;;
                        Ok (i, y))
                     shares ;;
      let x_s := map fst shares in
      let y_s := map snd shares in
      entropy <- _lagrange_interpolate 0 x_s y_s prime ;;
      match int_to_seed entropy seed_strength with
      | Err OverflowError => Err (ValueError FailedToRecover)
      | seed => seed
      end.

End Utils.

(** ** make_shares.py: the choice of the subgroups to test *)

Definition len_permutations {A} (iterable : list A) (r : option Z) : Z :=
  let pool := iterable in
  let n := Z.of_nat (length pool) in
  let r := match r with None => n | Some r => r end in
  if r >? n then 0
  else fold_left (fun n_permutations i => n_permutations * i)
                 (range (n - r + 1) (n + 1)) 1.

(** Every element of [l] with the others, in the order of [l]. *)
Fixpoint selections {A} (l : list A) : list (A * list A) :=
  match l with
  | [] => []
  | a :: t => (a, t) :: map (fun '(b, rest) => (b, a :: rest)) (selections t)
  end.

(** [itertools.permutations(iterable, r)]: the arrangements of [r]
    elements taken at distinct positions, in lexicographic order of the
    positions. *)
Fixpoint arrangements {A} (r : nat) (l : list A) : list (list A) :=
  match r with
  | O => [[]]
  | S r' =>
      flat_map (fun '(a, rest) => map (cons a) (arrangements r' rest))
               (selections l)
  end.

Definition permutations {A} (iterable : list A) (r : Z)
  : result (list (list A)) :=
  if r <? 0 then Err (ValueError NegativeLength)
  else Ok (arrangements (Z.to_nat r) iterable).

(** What [random.sample(population, k)] may return when the elements of
    the population are distinct, as shares are: [k] distinct elements, in
    any order. *)
Definition is_sample {A} (population : list A) (k : nat) (s : list A)
  : Prop :=
  NoDup s /\ incl s population /\ length s = k.

Section Generator.

Context {A : Type} (eq_dec : forall x y : A, {x = y} + {x <> y}).

(** One [next()] of [permutations_generator]: [samples] are the results
    of the successive calls of [sample]; the loop goes on until one is
    not in [seen].  [None]: the loop is still running when [samples]
    ends. *)
Fixpoint permutations_generator (seen : list (list A))
    (samples : list (list A))
  : option (list A * list (list A) * list (list A)) :=
  match samples with
  | [] => None
  | permutation :: later =>
      if in_dec (list_eq_dec eq_dec) permutation seen
      then permutations_generator seen later
      else Some (permutation, permutation :: seen, later)
  end.

(** [[next(random_permutation) for _ in range(count)]]. *)
Fixpoint next_permutations (count : nat) (seen : list (list A))
    (samples : list (list A)) : option (list (list A)) :=
  match count with
  | O => Some []
  | S count' =>
      match permutations_generator seen samples with
      | None => None
      | Some (permutation, seen', later) =>
          match next_permutations count' seen' later with
          | None => None
          | Some rest => Some (permutation :: rest)
          end
      end
  end.

Definition permutations_to_test (shares : list A) (minimum : Z)
    (samples : list (list A)) : option (result (list (list A))) :=
  if len_permutations shares (Some minimum) >? 100 then
    match next_permutations 100 [] samples with
    | Some chosen => Some (Ok chosen)
    | None => None
    end
  else Some (permutations shares minimum).

End Generator.

(** The subsets of [r] elements of [l], each in the order of [l]. *)
Fixpoint subsets {A} (r : nat) (l : list A) : list (list A) :=
  match r, l with
  | O, _ => [[]]
  | S _, [] => []
  | S r', a :: t => map (cons a) (subsets r' t) ++ subsets r t
  end.

(** ** A BIP39 codec

    The mnemonic library over a word list of 2048 words, a digest giving
    256 bits and a normalisation of words: the entropy bits followed by
    the first [ENT / 32] bits of the digest are cut in groups of 11 bits,
    each the position of a word; decoding normalises each word and then
    looks it up.  With the English word list, SHA-256 and the NFKD
    normalisation of Unicode this is [Mnemonic("english")]. *)

Section Bip39.

Variable wordlist : list string.
Variable digest : list byte -> Z.
Variable normalize_string : string -> string.

(** [wordlist.index(word)]. *)
Fixpoint word_index (words : list string) (word : string) : option Z :=
  match words with
  | [] => None
  | w :: rest =>
      if String.eqb w word then Some 0
      else option_map Z.succ (word_index rest word)
  end.

Fixpoint all_some {A} (l : list (option A)) : option (list A) :=
  match l with
  | [] => Some []
  | Some a :: t => option_map (cons a) (all_some t)
  | None :: _ => None
  end.

(** The first [bits] bits of the digest. *)
Definition checksum (data : list byte) (bits : Z) : Z :=
  digest data / 2 ^ (256 - bits).

Definition bip39_to_mnemonic (data : list byte) : option string :=
  let len := Z.of_nat (length data) in
  if negb (in_list len [16; 20; 24; 28; 32]) then None
  else
    let cs := len * 8 / 32 in
    let b := int_from_bytes data * 2 ^ cs + checksum data cs in
    let n_words := (len * 8 + cs) / 11 in
    let result :=
      map (fun idx => nth (Z.to_nat idx) wordlist EmptyString)
          (digits_be 2048 (Z.to_nat n_words) b) in
    Some (join_space result).

Definition bip39_to_entropy (words : string) : option (list byte) :=
  let words := split_space words in
  let n := Z.of_nat (length words) in
  if negb (in_list n [12; 15; 18; 21; 24]) then None
  else
    match all_some (map (fun word =>
                          word_index wordlist (normalize_string word))
                        words) with
    | None => None
    | Some indices =>
        let concat := of_digits_be 2048 indices in
        let concat_len_bits := n * 11 in
        let checksum_length_bits := concat_len_bits / 33 in
        let entropy_length_bits := concat_len_bits - checksum_length_bits in
        let entropy :=
          map byte_of_Z
              (digits_be 256 (Z.to_nat (entropy_length_bits / 8))
                         (concat / 2 ^ checksum_length_bits)) in
        if concat mod 2 ^ checksum_length_bits
           =? checksum entropy checksum_length_bits
        then Some entropy
        else None
    end.

Definition bip39 : Mnemonic :=
  {| to_mnemonic := bip39_to_mnemonic; to_entropy := bip39_to_entropy |}.

End Bip39.

(** A word list of 2048 three-letter words, [aaa], [aab], ... *)
Definition letter (i : Z) : ascii := ascii_of_nat (97 + Z.to_nat i).

Definition letters_word (i : Z) : string :=
  String (letter (i / 676))
    (String (letter (i / 26 mod 26)) (String (letter (i mod 26)) EmptyString)).

Definition letters_wordlist : list string := map letters_word (range 0 2048).

(** A digest whose first byte is the sum of the bytes of the data. *)
Definition sum_digest (data : list byte) : Z :=
  (sum (map Z_of_byte data) mod 256) * 2 ^ 248.

(** NFKD on the letters of the examples.  A fullwidth small letter,
    U+FF41 to U+FF5A, is normalised to the ASCII letter; a string holds
    the bytes of UTF-8, where these letters are [EF BD 81] to
    [EF BD 9A].  Every other character is left as it is. *)
Definition fullwidth (c1 c2 c3 : ascii) : bool :=
  (nat_of_ascii c1 =? 239)%nat && (nat_of_ascii c2 =? 189)%nat
  && (129 <=? nat_of_ascii c3)%nat && (nat_of_ascii c3 <=? 154)%nat.

Fixpoint nfkd (s : string) : string :=
  match s with
  | EmptyString => EmptyString
  | String c1 t1 =>
      match t1 with
      | String c2 (String c3 rest) =>
          if fullwidth c1 c2 c3
          then String (ascii_of_nat (nat_of_ascii c3 - 32)) (nfkd rest)
          else String c1 (nfkd t1)
      | _ => String c1 (nfkd t1)
      end
  end.

Definition letters_codec : Mnemonic :=
  bip39 letters_wordlist sum_digest nfkd.

(** * Vocabulary of the properties *)

(** ** Polynomials *)

(** The value at [x] of the polynomial with coefficients [poly], the
    constant term first. *)
Definition peval (poly : list Z) (x : Z) : Z :=
  fold_right (fun coeff acc => coeff + x * acc) 0 poly.

(** The quotient of [poly] by [X - a]: the values at [a] of the tails. *)
Fixpoint pquot (a : Z) (poly : list Z) : list Z :=
  match poly with
  | [] => []
  | _ :: t =>
      match t with
      | [] => []
      | _ :: _ => peval t a :: pquot a t
      end
  end.

Fixpoint padd (f g : list Z) : list Z :=
  match f, g with
  | [], _ => g
  | _, [] => f
  | a :: f', b :: g' => (a + b) :: padd f' g'
  end.

Definition pscale (c : Z) (f : list Z) : list Z := map (Z.mul c) f.

(** [(X - a) * f]. *)
Definition plin (a : Z) (f : list Z) : list Z :=
  padd (pscale (- a) f) (0 :: f).

(** The product of the [X - a], [a] in [roots]. *)
Definition pprod (roots : list Z) : list Z := fold_right plin [1] roots.

(** The sum of the [coeff * x ^ i], [coeff] the coefficient of rank
    [i]. *)
Definition polynomial (poly : list Z) (x : Z) : Z :=
  sum (map (fun '(i, coeff) => coeff * x ^ Z.of_nat i)
           (combine (seq 0 (length poly)) poly)).

(** ** Arithmetic modulo [p] *)

(** [d] is invertible modulo [p]. *)
Definition unit_mod (p d : Z) : Prop := Z.coprime d p.

Definition zero_mod (p c : Z) : Prop := eqm p c 0.

(** The entries of [nums] and [dens] of [_lagrange_interpolate], and the
    inverses [_divmod] uses. *)
Definition num_at (x_s : list Z) (x : Z) (i : nat) : Z :=
  PI (map (fun o => x - o) (pop i x_s)).

Definition den_at (x_s : list Z) (i : nat) : Z :=
  num_at x_s (nth i x_s 0) i.

Definition inv_at (p : Z) (x_s : list Z) (i : nat) : Z :=
  fst (_extended_gcd (den_at x_s i) p).

Definition den_all (x_s : list Z) : Z :=
  PI (map (den_at x_s) (seq 0 (length x_s))).

(** The interpolating polynomial, as the code weighs it. *)
Definition lagrange_poly (p : Z) (x_s y_s : list Z) : list Z :=
  fold_right padd []
    (map (fun i => pscale (nth i y_s 0 * inv_at p x_s i) (pprod (pop i x_s)))
         (seq 0 (length x_s))).

(** ** Digits, words, counts *)

Definition of_digits_le (base : Z) (ds : list Z) : Z :=
  fold_right (fun d acc => d + base * acc) 0 ds.

Definition digit (base d : Z) : Prop := 0 <= d < base.

Fixpoint space_free (w : string) : bool :=
  match w with
  | EmptyString => true
  | String c rest => negb (is_space c) && space_free rest
  end.

Fixpoint nodup_strings (l : list string) : bool :=
  match l with
  | [] => true
  | w :: rest => negb (existsb (String.eqb w) rest) && nodup_strings rest
  end.

(** Trial division. *)
Definition no_divisor (p : Z) : bool :=
  forallb (fun n => negb (p mod n =? 0)) (range 2 p).

(** [n (n - 1) ... (n - r + 1)]. *)
Fixpoint falling (n r : nat) : nat :=
  match r with
  | O => 1
  | S r' => n * falling (pred n) r'
  end.

(** ** Generation *)

(** The four rules of [make_random_shares]. *)
Definition valid_configuration (seed : string)
    (minimum n_shares share_strength : Z) : Prop :=
  minimum <= n_shares /\
  In (word_count seed) LENGTH_ALLOWED /\
  In share_strength STRENGTH_ALLOWED /\
  word_count seed / 3 * 32 <= share_strength.

(** The shares of a polynomial: what [make_random_shares] does after the
    draws. *)
Definition shares_of_poly {mnemo : Mnemonic} (poly : list Z)
    (n_shares prime share_strength : Z) : result (list share) :=
  points <- rmap (fun i => y <- _eval_at poly i prime ;; Ok (i, y))
                 (range 1 (n_shares + 1)) ;;
  rmap (fun '(i, point) => s <- int_to_seed point share_strength ;; Ok (i, s))
       points.

(** A share of [poly]: its phrase encodes the value at its index. *)
Definition share_of {mnemo : Mnemonic} (poly : list Z)
    (prime share_strength : Z) (sh : share) : Prop :=
  exists bs,
    to_mnemonic bs = Some (snd sh) /\
    int_from_bytes bs = peval poly (fst sh) mod prime /\
    Z.of_nat (length bs) = share_strength / 8.

(** A canonical phrase: the one [to_mnemonic] returns for the entropy
    that [to_entropy] reads in it. *)
Definition canonical {mnemo : Mnemonic} (phrase : string) : Prop :=
  exists data, to_entropy phrase = Some data /\ to_mnemonic data = Some phrase.

(** ** Inputs of the examples *)

(** A codec that knows no phrase: enough where no decoding is reached. *)
Definition no_mnemonic : Mnemonic :=
  {| to_mnemonic := fun _ => None; to_entropy := fun _ => None |}.

Definition example_seed : string :=
  "amz aza bqq azy byb agm bzx avi amz aza bqq bag".

Definition example_secret : Z := 56046507492860452805732288282879470122.

Definition P128 : Z := 2 ^ 128 - 159.

(** The phrase of sixteen bytes [ff]. *)
Definition ones_seed : string :=
  "dat dat dat dat dat dat dat dat dat dat dat dat".

(** [example_seed] with its first letter written as the fullwidth
    letter U+FF41, in UTF-8. *)
Definition wide_seed : string :=
  String (ascii_of_nat 239)
    (String (ascii_of_nat 189)
       (String (ascii_of_nat 129)
          "mz aza bqq azy byb agm bzx avi amz aza bqq bag")).

Definition share_eq_dec : forall x y : share, {x = y} + {x <> y}.
Proof. decide equality; [apply string_dec | apply Z.eq_dec]. Defined.

(** Six shares of [example_seed], three of which recover it. *)
Definition six_shares : list share := Eval vm_compute in
    match run (@make_random_shares letters_codec example_seed 3 6 128) [5; 7]
    with
    | Some (Ok shares) => shares
    | _ => []
    end.

(** The last three of the six shares, and samples that never draw
    exactly these three. *)
Definition untested_subset : list share := skipn 3 six_shares.

Definition within (sub s : list share) : bool :=
  forallb (fun a => if in_dec share_eq_dec a sub then true else false) s.

Definition biased_samples : list (list share) :=
  filter (fun s => negb (within untested_subset s))
         (arrangements 3 six_shares).

(** * The script [make_shares.py] *)

(** [PRIMES_STR] of [utils.py]. *)
Definition PRIMES_STR : list (Z * string) :=
  [ (128, "2^128 - 159"%string);
    (160, "2^160 - 47"%string);
    (192, "2^192 - 237"%string);
    (224, "2^224 - 63"%string);
    (256, "2^256 - 189"%string) ].

Fixpoint dict_lookup {A} (d : list (Z * A)) (key : Z) : result A :=
  match d with
  | [] => Err KeyError
  | (k, v) :: rest => if k =? key then Ok v else dict_lookup rest key
  end.

Module Script.

(** The parsed command line. *)
Record arguments : Type := {
  seed_phrase : option string;
  generate_seed : option Z;
  minimum : Z;
  n_shares : Z;
  share_strength : option Z
}.

(** The [ValueError]s the script raises itself, one tag per message. *)
Inductive script_error : Type :=
| GenerateStrengthNotAllowed
| NoSeedGiven
| NumberOfWordsNotAllowed
| StrengthOfSharesNotAllowed
| StrengthOfSharesTooLow.

Inductive raised : Type :=
| Own (e : script_error)        (* raised by the script itself *)
| Called (e : exn).             (* raised by a function it calls *)

Inductive outcome (A : Type) : Type :=
| Done (a : A)
| Raised (e : raised).
Arguments Done {A} a.
Arguments Raised {A} e.

(** What the last lines of the script print. *)
Record printed : Type := {
  main_seed : string;
  shares_printed : list share;
  shares_created : Z;
  shares_needed : Z;
  prime_used : string
}.

(** [if x:] on an optional argument: [None], [0] and the empty string
    count as false. *)
Definition given_int (x : option Z) : option Z :=
  match x with
  | Some 0 => None
  | _ => x
  end.

Definition given_str (x : option string) : option string :=
  match x with
  | Some EmptyString => None
  | _ => x
  end.

(** The seed of the run; [generated] is what
    [Mnemonic("english").generate(seed_strength)] returns. *)
Definition choose_seed (args : arguments) (generated : string)
  : outcome string :=
  match given_int (generate_seed args) with
  | Some seed_strength =>
      if in_list seed_strength STRENGTH_ALLOWED then Done generated
      else Raised (Own GenerateStrengthNotAllowed)
  | None =>
      match given_str (seed_phrase args) with
      | Some seed => Done seed
      | None => Raised (Own NoSeedGiven)
      end
  end.

Section Main.

Context {mnemo : Mnemonic}.

(** [assert all([seed == recover_seed(subgroup, seed_strength, prime)
    for subgroup in permutations_to_test])]: the list is built first, so
    an exception of [recover_seed] comes before the assertion. *)
Definition verification (seed : string) (seed_strength prime : Z)
    (permutations_to_test : list (list share)) : result unit :=
  checks <- rmap (fun subgroup =>
                    recovered <- recover_seed subgroup seed_strength
                                              (Some prime) ;;
                    Ok (String.eqb seed recovered))
                 permutations_to_test ;;
  if forallb (fun check => check) checks then Ok tt
  else Err AssertionError.

(** Leaving before [make_random_shares] draws nothing. *)
Definition leave {A} (draws : list Z) (e : raised)
  : option (outcome A) :=
  match draws with
  | [] => Some (Raised e)
  | _ :: _ => None
  end.

(** The script after the command line is parsed.  [draws] are the
    results of [randint], [samples] those of [sample]; [None] when they
    describe no complete run. *)
Definition main (args : arguments) (generated : string)
    (draws : list Z) (samples : list (list share))
  : option (outcome printed) :=
  match choose_seed args generated with
  | Raised e => leave draws e
  | Done seed =>
      let len_seed := word_count seed in
      if negb (in_list len_seed LENGTH_ALLOWED)
      then leave draws (Own NumberOfWordsNotAllowed)
      else
        let seed_strength := len_seed / 3 * 32 in
        let share_strength :=
          match given_int (share_strength args) with
          | None => seed_strength
          | Some share_strength => share_strength
          end in
        if negb (in_list share_strength STRENGTH_ALLOWED)
        then leave draws (Own StrengthOfSharesNotAllowed)
        else if share_strength <? seed_strength
        then leave draws (Own StrengthOfSharesTooLow)
        else
          match dict_get PRIMES share_strength,
                dict_lookup PRIMES_STR share_strength with
          | Err e, _ => leave draws (Called e)
          | Ok _, Err e => leave draws (Called e)
          | Ok prime, Ok prime_str =>
              match run (make_random_shares seed (minimum args)
                           (n_shares args) share_strength) draws with
              | None => None
              | Some (Err e) => Some (Raised (Called e))
              | Some (Ok shares) =>
                  match permutations_to_test share_eq_dec shares
                          (minimum args) samples with
                  | None => None
                  | Some (Err e) => Some (Raised (Called e))
                  | Some (Ok to_test) =>
                      match verification seed seed_strength prime to_test
                      with
                      | Err e => Some (Raised (Called e))
                      | Ok _ =>
                          Some (Done {| main_seed := seed;
                                        shares_printed := shares;
                                        shares_created := n_shares args;
                                        shares_needed := minimum args;
                                        prime_used := prime_str |})
                      end
                  end
              end
          end
  end.

End Main.

End Script.

(** A command line of the examples, [-s example_seed -M 3 -N 6], and
    what the script prints for it when the draws are [5] and [7]. *)
Definition example_arguments : Script.arguments :=
  {| Script.seed_phrase := Some example_seed;
     Script.generate_seed := None;
     Script.minimum := 3;
     Script.n_shares := 6;
     Script.share_strength := None |}.

Definition example_printed : Script.printed :=
  {| Script.main_seed := example_seed;
     Script.shares_printed := six_shares;
     Script.shares_created := 6;
     Script.shares_needed := 3;
     Script.prime_used := "2^128 - 159" |}.

(** * The script [test_primes.py] *)

Module TestPrimes.

(** A program that asks [random.randrange(start, stop)], which raises
    [ValueError] on an empty range. *)
Inductive test (A : Type) : Type :=
| Answer (a : A)
| EmptyRange
| Randrange (start stop : Z) (k : Z -> test A).
Arguments Answer {A} a.
Arguments EmptyRange {A}.
Arguments Randrange {A} start stop k.

Definition randrange {A} (start stop : Z) (k : Z -> test A) : test A :=
  if stop <=? start then EmptyRange else Randrange start stop k.

Inductive verdict (A : Type) : Type :=
| Returns (a : A)
| RaisesValueError.
Arguments Returns {A} a.
Arguments RaisesValueError {A}.

(** [run t draws]: the end of [t] when the successive calls of
    [randrange] return [draws], each within its range. *)
Fixpoint run {A} (t : test A) (draws : list Z) : option (verdict A) :=
  match t, draws with
  | Answer a, [] => Some (Returns a)
  | EmptyRange, [] => Some RaisesValueError
  | Randrange start stop k, a :: rest =>
      if (start <=? a) && (a <? stop) then run (k a) rest else None
  | _, _ => None
  end.

(** [while s % 2 == 0: r += 1; s //= 2] on a positive [s]. *)
Fixpoint halve (r : Z) (s : positive) : Z * positive :=
  match s with
  | xO s' => halve (r + 1) s'
  | _ => (r, s)
  end.

(** The same from [r, s = 0, s]; on [0] the loop never ends. *)
Definition decompose (s : Z) : option (Z * Z) :=
  match s with
  | Z0 => None
  | Zpos p => let '(r, s') := halve 0 p in Some (r, Zpos s')
  | Zneg p => let '(r, s') := halve 0 p in Some (r, Zneg s')
  end.

(** [pow(base, exp, modulus)]; the script calls it with [exp >= 0] and
    [modulus >= 5] only. *)
Definition pow (base exp modulus : Z) : Z := base ^ exp mod modulus.

(** [for _ in range(count): x = pow(x, 2, n); if x == n - 1: break]:
    [true] when the loop breaks, [false] when it runs to its [else]. *)
Fixpoint squarings (count : nat) (x n : Z) : bool :=
  match count with
  | O => false
  | S count' =>
      let x := pow x 2 n in
      if x =? n - 1 then true else squarings count' x n
  end.

(** [for _ in range(k)]. *)
Fixpoint rounds (k : nat) (n r s : Z) : test bool :=
  match k with
  | O => Answer true
  | S k' =>
      randrange 2 (n - 1) (fun a =>
        let x := pow a s n in
        if (x =? 1) || (x =? n - 1) then rounds k' n r s
        else if squarings (Z.to_nat (r - 1)) x n then rounds k' n r s
        else Answer false)
  end.

(** [None]: the first loop never ends. *)
Definition miller_rabin (n k : Z) : option (test bool) :=
  if (n =? 2) || (n =? 3) then Some (Answer true)
  else if n mod 2 =? 0 then Some (Answer false)
  else
    match decompose (n - 1) with
    | None => None
    | Some (r, s) => Some (rounds (Z.to_nat k) n r s)
    end.

End TestPrimes.

(** * Properties *)

(** ** The extended Euclidean algorithm *)

Lemma egcd_loop_acc_irrelevant :
  forall b (acc1 acc2 : Acc abs_lt b) a x last_x y last_y,
    egcd_loop_acc a b x last_x y last_y acc1
    = egcd_loop_acc a b x last_x y last_y acc2.
Proof.
  fix IH 2. intros b acc1 acc2 a x last_x y last_y.
  destruct acc1 as [H1], acc2 as [H2]. cbn [egcd_loop_acc].
  destruct (Z.eq_dec b 0) as [_|Hne]; [reflexivity|].
  apply IH.
Qed.

Lemma egcd_loop_step a b x last_x y last_y :
  egcd_loop a b x last_x y last_y =
  if Z.eq_dec b 0 then (last_x, last_y)
  else egcd_loop b (a mod b) (last_x - a / b * x) x (last_y - a / b * y) y.
Proof.
  unfold egcd_loop.
  destruct (Acc_intro_generator 12 abs_lt_wf b) as [H].
  cbn [egcd_loop_acc].
  destruct (Z.eq_dec b 0) as [_|Hne]; [reflexivity|].
  apply egcd_loop_acc_irrelevant.
Qed.

(** The loop keeps [a] and [b] as combinations of the two inputs [a0] and
    [b0], and ends on their gcd. *)
Lemma egcd_loop_bezout a0 b0 :
  forall b a x last_x y last_y,
    a = last_x * a0 + last_y * b0 ->
    b = x * a0 + y * b0 ->
    0 <= b -> 0 < b \/ 0 <= a ->
    fst (egcd_loop a b x last_x y last_y) * a0 +
    snd (egcd_loop a b x last_x y last_y) * b0 = Z.gcd a b.
Proof.
  intro b.
  induction (abs_lt_wf b) as [b _ IH].
  intros a x last_x y last_y Ha Hb Hb0 Hab.
  rewrite egcd_loop_step.
  destruct (Z.eq_dec b 0) as [->|Hnz].
  - cbn [fst snd]. rewrite Z.gcd_0_r, Z.abs_eq by lia. lia.
  - assert (Hpos : 0 < b) by lia.
    pose proof (Z.mod_pos_bound a b Hpos) as Hm.
    rewrite IH.
    + rewrite Z.gcd_comm, Z.gcd_mod by lia. apply Z.gcd_comm.
    + unfold abs_lt. lia.
    + exact Hb.
    + rewrite (Z.mod_eq a b) by lia.
      generalize (a / b); intro q.
      rewrite Ha, Hb. ring.
    + lia.
    + lia.
Qed.

Lemma extended_gcd_bezout den p :
  0 < p ->
  fst (_extended_gcd den p) * den + snd (_extended_gcd den p) * p
  = Z.gcd den p.
Proof.
  intro Hp. unfold _extended_gcd.
  apply egcd_loop_bezout; lia.
Qed.

Lemma divmod_product num den p :
  _divmod num den p = num * fst (_extended_gcd den p).
Proof.
  unfold _divmod. destruct (_extended_gcd den p); reflexivity.
Qed.

Lemma extended_gcd_inverse den p :
  0 < p -> Z.gcd den p = 1 ->
  (den * fst (_extended_gcd den p)) mod p = 1 mod p.
Proof.
  intros Hp Hg.
  pose proof (extended_gcd_bezout den p Hp) as Hb. rewrite Hg in Hb.
  replace (den * fst (_extended_gcd den p))
    with (1 + - snd (_extended_gcd den p) * p) by lia.
  apply Z.mod_add. lia.
Qed.

(** ** Polynomials modulo [p] *)

Lemma pquot_length a poly : length (pquot a poly) = pred (length poly).
Proof.
  induction poly as [|c t IH]; [reflexivity|].
  destruct t as [|c' t']; [reflexivity|].
  change (pquot a (c :: c' :: t')) with (peval (c' :: t') a :: pquot a (c' :: t')).
  cbn [length pred]. rewrite IH. reflexivity.
Qed.

Lemma peval_cons c f x : peval (c :: f) x = c + x * peval f x.
Proof. reflexivity. Qed.

Lemma pquot_cons a c c' t :
  pquot a (c :: c' :: t) = peval (c' :: t) a :: pquot a (c' :: t).
Proof. reflexivity. Qed.

Lemma pquot_eval a poly x :
  peval poly x = (x - a) * peval (pquot a poly) x + peval poly a.
Proof.
  induction poly as [|c t IH]; [cbn; ring|].
  destruct t as [|c' t'].
  - cbn. ring.
  - rewrite pquot_cons, !(peval_cons c), (peval_cons (peval _ _)).
    rewrite IH at 1. ring.
Qed.

Lemma peval_padd f g x : peval (padd f g) x = peval f x + peval g x.
Proof.
  revert g. induction f as [|a f IH]; intros [|b g];
    cbn [padd]; rewrite ?peval_cons; try (cbn; ring).
  rewrite IH. ring.
Qed.

Lemma peval_pscale c f x : peval (pscale c f) x = c * peval f x.
Proof.
  induction f as [|a f IH]; [cbn; ring|].
  unfold pscale in *. cbn [map]. rewrite !peval_cons, IH. ring.
Qed.

Lemma peval_plin a f x : peval (plin a f) x = (x - a) * peval f x.
Proof.
  unfold plin. rewrite peval_padd, peval_pscale, peval_cons. ring.
Qed.

Lemma PI_cons a l : PI (a :: l) = a * PI l.
Proof.
  unfold PI. cbn [fold_left].
  assert (H : forall l acc, fold_left Z.mul l acc = acc * fold_left Z.mul l 1).
  { clear. induction l as [|b l IH]; intro acc; cbn [fold_left]; [ring|].
    rewrite (IH (acc * b)), (IH (1 * b)). ring. }
  rewrite H. ring.
Qed.

Lemma sum_cons a l : sum (a :: l) = a + sum l.
Proof.
  unfold sum. cbn [fold_left].
  assert (H : forall l acc, fold_left Z.add l acc = acc + fold_left Z.add l 0).
  { clear. induction l as [|b l IH]; intro acc; cbn [fold_left]; [ring|].
    rewrite (IH (acc + b)), (IH (0 + b)). ring. }
  rewrite H. ring.
Qed.

Lemma peval_pprod roots x :
  peval (pprod roots) x = PI (map (fun o => x - o) roots).
Proof.
  induction roots as [|a roots IH]; [change (1 + x * 0 = 1); ring|].
  cbn [pprod fold_right map]. fold (pprod roots).
  rewrite peval_plin, PI_cons, IH. reflexivity.
Qed.

Lemma padd_length f g : length (padd f g) = Nat.max (length f) (length g).
Proof.
  revert g. induction f as [|a f IH]; intros [|b g]; cbn; try reflexivity.
  rewrite IH. reflexivity.
Qed.

Lemma pscale_length c f : length (pscale c f) = length f.
Proof. apply length_map. Qed.

Lemma pprod_length roots : length (pprod roots) = S (length roots).
Proof.
  induction roots as [|a roots IH]; [reflexivity|].
  cbn [pprod fold_right]. fold (pprod roots).
  unfold plin. rewrite padd_length, pscale_length. cbn [length].
  rewrite IH. lia.
Qed.

Section Modular.

Variable p : Z.
Hypothesis p_pos : 0 < p.

Local Notation "a == b" := (eqm p a b) (at level 70, no associativity).

#[local] Instance eqm_equiv : Equivalence (eqm p) := eqm_setoid p.
#[local] Instance add_eqm : Proper (eqm p ==> eqm p ==> eqm p) Z.add
  := Zplus_eqm p.
#[local] Instance sub_eqm : Proper (eqm p ==> eqm p ==> eqm p) Z.sub
  := Zminus_eqm p.
#[local] Instance mul_eqm : Proper (eqm p ==> eqm p ==> eqm p) Z.mul
  := Zmult_eqm p.

Lemma unit_mod_cancel d v : unit_mod p d -> d * v == 0 -> v == 0.
Proof.
  unfold unit_mod, eqm. rewrite Z.mod_0_l by lia. intros Hg H.
  apply Z.mod_divide in H; [|lia].
  apply Z.mod_divide; [lia|].
  apply Z.gauss with (m := d); [exact H|].
  symmetry in Hg. exact Hg.
Qed.

Lemma unit_mod_opp d : unit_mod p d -> unit_mod p (- d).
Proof. apply Z.coprime_opp_l. Qed.

Lemma unit_mod_PI l : Forall (unit_mod p) l -> unit_mod p (PI l).
Proof.
  induction 1 as [|d l Hd _ IH].
  - apply Z.coprime_1_l.
  - rewrite PI_cons. now apply Z.coprime_mul_l.
Qed.

Lemma divmod_inverse num den :
  unit_mod p den -> den * _divmod num den p == num.
Proof.
  intro Hg. rewrite divmod_product.
  replace (den * (num * fst (_extended_gcd den p)))
    with (num * (den * fst (_extended_gcd den p))) by ring.
  assert (H : den * fst (_extended_gcd den p) == 1)
    by (apply extended_gcd_inverse; assumption).
  rewrite H. now rewrite Z.mul_1_r.
Qed.

Lemma pquot_zero a poly :
  peval poly a == 0 -> Forall (zero_mod p) (pquot a poly) ->
  Forall (zero_mod p) poly.
Proof.
  induction poly as [|c t IH]; [constructor|].
  destruct t as [|c' t'].
  - intros H _. constructor; [|constructor].
    unfold zero_mod. rewrite <- H. cbn. now rewrite Z.mul_0_r, Z.add_0_r.
  - rewrite pquot_cons, peval_cons. intros H Hq.
    inversion Hq as [|? ? Ht Hq']; subst.
    unfold zero_mod in Ht.
    constructor.
    + unfold zero_mod. rewrite <- H, Ht. now rewrite Z.mul_0_r, Z.add_0_r.
    + apply IH; assumption.
Qed.

(** A polynomial with fewer coefficients than it has roots, the roots
    differing by units, is zero modulo [p]. *)
Theorem roots_zero xs :
  forall poly,
    (length poly <= length xs)%nat ->
    ForallOrdPairs (fun a b => unit_mod p (b - a)) xs ->
    Forall (fun x => peval poly x == 0) xs ->
    Forall (zero_mod p) poly.
Proof.
  induction xs as [|a xs IH]; intros poly Hlen Hpairs Hroots.
  - destruct poly; [constructor | cbn in Hlen; lia].
  - inversion Hpairs as [|? ? Ha Hxs]; subst.
    inversion Hroots as [|? ? Hra Hrxs]; subst.
    apply (pquot_zero a); [assumption|].
    apply IH.
    + rewrite pquot_length. cbn in Hlen. lia.
    + assumption.
    + rewrite Forall_forall in *. intros x Hx.
      apply (unit_mod_cancel (x - a)); [now apply Ha|].
      specialize (Hrxs x Hx). rewrite (pquot_eval a) in Hrxs.
      rewrite Hra in Hrxs. now rewrite Z.add_0_r in Hrxs.
Qed.

Lemma zero_eval poly x : Forall (zero_mod p) poly -> peval poly x == 0.
Proof.
  induction 1 as [|c t Hc _ IH]; [reflexivity|].
  rewrite peval_cons. unfold zero_mod in Hc. rewrite Hc, IH.
  now rewrite Z.mul_0_r.
Qed.

(** Two polynomials with at most [k] coefficients that agree at [k]
    points agree everywhere. *)
Theorem interpolation_unique f g xs x :
  (length f <= length xs)%nat -> (length g <= length xs)%nat ->
  ForallOrdPairs (fun a b => unit_mod p (b - a)) xs ->
  Forall (fun r => peval f r == peval g r) xs ->
  peval f x == peval g x.
Proof.
  intros Hf Hg Hpairs Hagree.
  assert (H : peval (padd f (pscale (-1) g)) x == 0).
  { apply zero_eval, (roots_zero xs).
    - rewrite padd_length, pscale_length. lia.
    - assumption.
    - rewrite Forall_forall in *. intros r Hr.
      rewrite peval_padd, peval_pscale, (Hagree r Hr).
      replace (peval g r + -1 * peval g r) with 0 by ring. reflexivity. }
  rewrite peval_padd, peval_pscale in H.
  replace (peval f x) with (peval f x + -1 * peval g x + peval g x) by ring.
  rewrite H. reflexivity.
Qed.

End Modular.

(** ** Lists: [pop], sums over positions *)

Lemma pop_split {A} (d : A) i l :
  (i < length l)%nat ->
  l = firstn i l ++ nth i l d :: skipn (S i) l.
Proof.
  revert l. induction i as [|i IH]; intros [|a l] H; cbn in H; try lia.
  - reflexivity.
  - cbn [firstn nth skipn app]. f_equal. apply IH. lia.
Qed.

Lemma pop_length {A} i (l : list A) :
  (i < length l)%nat -> length (pop i l) = pred (length l).
Proof.
  intro H. unfold pop.
  rewrite length_app, length_firstn, length_skipn. lia.
Qed.

Lemma pop_In {A} (d : A) i l o :
  (i < length l)%nat -> NoDup l ->
  In o (pop i l) -> In o l /\ o <> nth i l d.
Proof.
  intros Hi Hnd Ho.
  rewrite (pop_split d i l Hi) in Hnd.
  apply NoDup_remove in Hnd. destruct Hnd as [_ Hnot].
  split.
  - rewrite (pop_split d i l Hi). unfold pop in Ho.
    apply in_app_iff in Ho. apply in_app_iff.
    destruct Ho; [left | right; right]; assumption.
  - intros ->. apply Hnot. exact Ho.
Qed.

Lemma pop_other {A} (d : A) i m l :
  i <> m -> (m < length l)%nat -> In (nth m l d) (pop i l).
Proof.
  revert m l. induction i as [|i IH]; intros m [|a l] Him Hm;
    cbn in Hm; try lia.
  - destruct m as [|m]; [congruence|].
    unfold pop. cbn. apply nth_In. lia.
  - destruct m as [|m].
    + left. reflexivity.
    + right. apply (IH m l); [congruence | lia].
Qed.

Lemma nth_map_seq {A} (f : nat -> A) d i k :
  (i < k)%nat -> nth i (map f (seq 0 k)) d = f i.
Proof.
  intro H.
  rewrite (nth_indep _ d (f 0%nat)) by (rewrite length_map, length_seq; lia).
  rewrite map_nth, seq_nth by lia. reflexivity.
Qed.

Lemma PI_nil : PI [] = 1.
Proof. reflexivity. Qed.

Lemma sum_nil : sum [] = 0.
Proof. reflexivity. Qed.

Lemma PI_zero l : In 0 l -> PI l = 0.
Proof.
  induction l as [|a l IH]; [contradiction|].
  rewrite PI_cons. intros [->|H]; [ring | rewrite IH by assumption; ring].
Qed.

Lemma sum_map_scale {A} (F : A -> Z) c l :
  sum (map F l) * c = sum (map (fun i => F i * c) l).
Proof.
  induction l as [|a l IH]; [reflexivity|].
  cbn [map]. rewrite !sum_cons, <- IH. ring.
Qed.

(** A sum whose terms all vanish but the one at [m]. *)
Lemma sum_single {A} (F : A -> Z) m l :
  NoDup l -> In m l -> (forall i, In i l -> i <> m -> F i = 0) ->
  sum (map F l) = F m.
Proof.
  induction l as [|a l IH]; [contradiction|].
  intros Hnd Hin Hz. inversion Hnd as [|? ? Hna Hnd']; subst.
  cbn [map]. rewrite sum_cons.
  destruct Hin as [->|Hin].
  - assert (H0 : sum (map F l) = 0).
    { clear IH Hnd Hnd'. induction l as [|b l IHl]; [reflexivity|].
      cbn [map]. rewrite sum_cons, IHl.
      - rewrite Hz; [ring | right; left; reflexivity |].
        intros ->. apply Hna. left. reflexivity.
      - intro H. apply Hna. right. exact H.
      - intros i Hi. apply Hz. destruct Hi; [left | right; right]; assumption. }
    rewrite H0. ring.
  - rewrite IH; try assumption.
    + rewrite Hz; [ring | left; reflexivity |].
      intros ->. contradiction.
    + intros i Hi. apply Hz. right. exact Hi.
Qed.

Lemma rmap_ok {A B} (f : A -> result B) (g : A -> B) l :
  (forall a, In a l -> f a = Ok (g a)) -> rmap f l = Ok (map g l).
Proof.
  induction l as [|a l IH]; intro H; [reflexivity|].
  cbn [rmap map]. rewrite (H a) by (left; reflexivity).
  cbn [rbind]. rewrite IH by (intros; apply H; right; assumption).
  reflexivity.
Qed.

Lemma index_nth {A} (l : list A) d i :
  (i < length l)%nat -> index l i = Ok (nth i l d).
Proof.
  intro H. unfold index.
  rewrite (nth_error_nth' l d H). reflexivity.
Qed.

Lemma py_mod_ok a b : b <> 0 -> py_mod a b = Ok (a mod b).
Proof.
  intro H. unfold py_mod.
  destruct (Z.eqb_spec b 0); [contradiction | reflexivity].
Qed.

Lemma len_set_NoDup l : NoDup l <-> len_set l = length l.
Proof.
  unfold len_set. split.
  - intro H. now rewrite nodup_fixed_point.
  - induction l as [|a l IH]; [constructor|].
    cbn [nodup]. destruct (in_dec Z.eq_dec a l) as [Hin|Hnin].
    + intro H.
      assert (Hle : (length (nodup Z.eq_dec l) <= length l)%nat).
      { apply NoDup_incl_length; [apply NoDup_nodup|].
        intros z Hz. apply nodup_In in Hz. exact Hz. }
      cbn [length] in H. lia.
    + cbn [length]. intro H. constructor; [assumption|].
      apply IH. lia.
Qed.

Lemma pairs_of_distinct {A} (R : A -> A -> Prop) l :
  NoDup l ->
  (forall a b, In a l -> In b l -> a <> b -> R a b) ->
  ForallOrdPairs R l.
Proof.
  induction l as [|a l IH]; intros Hnd H; [constructor|].
  inversion Hnd as [|? ? Hna Hnd']; subst.
  constructor.
  - rewrite Forall_forall. intros b Hb.
    apply H; [left; reflexivity | right; assumption |].
    intros ->. contradiction.
  - apply IH; [assumption|].
    intros b c Hb Hc. apply H; right; assumption.
Qed.

(** ** Lagrange interpolation *)

Section Lagrange.

Variable p : Z.
Hypothesis p_pos : 0 < p.

Variables x_s y_s : list Z.
Hypothesis x_s_distinct : NoDup x_s.
Hypothesis x_s_units :
  forall a b, In a x_s -> In b x_s -> a <> b -> unit_mod p (a - b).
Hypothesis y_s_length : length y_s = length x_s.

Local Notation "a == b" := (eqm p a b) (at level 70, no associativity).
Local Abbreviation k := (length x_s).

#[local] Existing Instances eqm_equiv add_eqm sub_eqm mul_eqm.

Lemma lagrange_interpolate_value x :
  _lagrange_interpolate x x_s y_s p =
  Ok ((sum (map (fun i =>
                   (num_at x_s x i * den_all x_s * nth i y_s 0) mod p
                   * inv_at p x_s i) (seq 0 k))
       * fst (_extended_gcd (den_all x_s) p) + p) mod p).
Proof.
  unfold _lagrange_interpolate.
  apply len_set_NoDup in x_s_distinct as Hset. rewrite Hset, Nat.eqb_refl.
  cbn [negb].
  erewrite rmap_ok.
  - cbn [rbind]. rewrite py_mod_ok by lia. rewrite divmod_product.
    reflexivity.
  - intros i Hi. apply in_seq in Hi.
    rewrite (index_nth y_s 0) by lia. cbn [rbind].
    rewrite py_mod_ok by lia. cbn [rbind].
    rewrite divmod_product, !nth_map_seq by lia.
    reflexivity.
Qed.

Lemma den_at_unit i : (i < k)%nat -> unit_mod p (den_at x_s i).
Proof.
  intro Hi. unfold den_at, num_at. apply unit_mod_PI.
  rewrite Forall_forall. intros d Hd. apply in_map_iff in Hd.
  destruct Hd as [o [<- Ho]].
  apply (pop_In 0) in Ho; [|assumption..]. destruct Ho as [Ho Hne].
  apply x_s_units; [apply nth_In; assumption | assumption | congruence].
Qed.

Lemma den_all_unit : unit_mod p (den_all x_s).
Proof.
  unfold den_all. apply unit_mod_PI.
  rewrite Forall_forall. intros d Hd. apply in_map_iff in Hd.
  destruct Hd as [i [<- Hi]]. apply in_seq in Hi.
  apply den_at_unit. lia.
Qed.

Lemma inv_at_inverse i : (i < k)%nat -> den_at x_s i * inv_at p x_s i == 1.
Proof.
  intro Hi. apply extended_gcd_inverse; [assumption|].
  apply den_at_unit. assumption.
Qed.

Lemma sum_map_eqm {A} (F G : A -> Z) l :
  (forall i, In i l -> F i == G i) -> sum (map F l) == sum (map G l).
Proof.
  induction l as [|a l IH]; intro H; [reflexivity|].
  cbn [map]. rewrite !sum_cons.
  rewrite (H a) by (left; reflexivity).
  rewrite IH by (intros; apply H; right; assumption).
  reflexivity.
Qed.

Lemma peval_sum_polys {A} (F : A -> list Z) l x :
  peval (fold_right padd [] (map F l)) x
  = sum (map (fun i => peval (F i) x) l).
Proof.
  induction l as [|a l IH]; [reflexivity|].
  cbn [map fold_right]. rewrite peval_padd, sum_cons, IH. reflexivity.
Qed.

Lemma peval_lagrange_poly x :
  peval (lagrange_poly p x_s y_s) x
  = sum (map (fun i => nth i y_s 0 * inv_at p x_s i * num_at x_s x i)
             (seq 0 k)).
Proof.
  unfold lagrange_poly. rewrite peval_sum_polys.
  f_equal. apply map_ext. intro i.
  rewrite peval_pscale, peval_pprod. reflexivity.
Qed.

(** What the code computes is the value of [lagrange_poly]. *)
Lemma lagrange_interpolate_poly x :
  _lagrange_interpolate x x_s y_s p
  = Ok (peval (lagrange_poly p x_s y_s) x mod p).
Proof.
  rewrite lagrange_interpolate_value. f_equal.
  change (eqm p (sum (map (fun i =>
                             (num_at x_s x i * den_all x_s * nth i y_s 0) mod p
                             * inv_at p x_s i) (seq 0 k))
                 * fst (_extended_gcd (den_all x_s) p) + p)
                (peval (lagrange_poly p x_s y_s) x)).
  etransitivity.
  { unfold eqm.
    match goal with |- (?a + p) mod p = _ =>
      replace (a + p) with (a + 1 * p) by ring end.
    apply Z.mod_add. lia. }
  rewrite sum_map_scale, peval_lagrange_poly.
  apply sum_map_eqm. intros i _.
  rewrite (Zmod_eqm p (num_at x_s x i * den_all x_s * nth i y_s 0)).
  assert (Hinv : den_all x_s * fst (_extended_gcd (den_all x_s) p) == 1)
    by (apply extended_gcd_inverse; [assumption | apply den_all_unit]).
  replace (num_at x_s x i * den_all x_s * nth i y_s 0 * inv_at p x_s i
           * fst (_extended_gcd (den_all x_s) p))
    with (nth i y_s 0 * inv_at p x_s i * num_at x_s x i
          * (den_all x_s * fst (_extended_gcd (den_all x_s) p))) by ring.
  rewrite Hinv. now rewrite Z.mul_1_r.
Qed.

Lemma lagrange_poly_at_point m :
  (m < k)%nat ->
  peval (lagrange_poly p x_s y_s) (nth m x_s 0) == nth m y_s 0.
Proof.
  intro Hm. rewrite peval_lagrange_poly.
  rewrite (sum_single _ m).
  - fold (den_at x_s m).
    replace (nth m y_s 0 * inv_at p x_s m * den_at x_s m)
      with (nth m y_s 0 * (den_at x_s m * inv_at p x_s m)) by ring.
    rewrite inv_at_inverse by assumption. now rewrite Z.mul_1_r.
  - apply seq_NoDup.
  - apply in_seq. lia.
  - intros i Hi Him. unfold num_at. rewrite PI_zero; [ring|].
    apply in_map_iff. exists (nth m x_s 0). split; [ring|].
    apply pop_other; assumption.
Qed.

Lemma lagrange_poly_length : (length (lagrange_poly p x_s y_s) <= k)%nat.
Proof.
  unfold lagrange_poly.
  assert (H : forall l, (forall i, In i l -> (i < k)%nat) ->
    (length (fold_right padd []
       (map (fun i => pscale (nth i y_s 0%Z * inv_at p x_s i)%Z
                             (pprod (pop i x_s)))
            l)) <= k)%nat).
  { induction l as [|i l IH]; intro Hl; [cbn; lia|].
    cbn [map fold_right]. rewrite padd_length, pscale_length, pprod_length.
    rewrite pop_length by (apply Hl; left; reflexivity).
    specialize (Hl i (or_introl eq_refl)) as Hi.
    specialize (IH (fun j Hj => Hl j (or_intror Hj))). lia. }
  apply H. intros i Hi. apply in_seq in Hi. lia.
Qed.

(** Interpolating [k] points of a polynomial with at most [k]
    coefficients gives back the values of the polynomial. *)
Theorem lagrange_interpolate_correct poly x :
  (length poly <= k)%nat ->
  (forall i, (i < k)%nat -> nth i y_s 0 == peval poly (nth i x_s 0)) ->
  _lagrange_interpolate x x_s y_s p = Ok (peval poly x mod p).
Proof.
  intros Hlen Hpts. rewrite lagrange_interpolate_poly. f_equal.
  apply (interpolation_unique p p_pos (lagrange_poly p x_s y_s) poly x_s x).
  - apply lagrange_poly_length.
  - assumption.
  - apply pairs_of_distinct; [assumption|].
    intros a b Ha Hb Hab. apply x_s_units; auto.
  - rewrite Forall_forall. intros r Hr.
    destruct (In_nth x_s r 0 Hr) as [m [Hm <-]].
    rewrite lagrange_poly_at_point by assumption.
    apply Hpts. assumption.
Qed.

End Lagrange.

(** ** Modular division (C5) *)

(** C5, as the code has it: for a prime [p] and [den] coprime to [p],
    [_divmod num den p] is the product of [num] and an inverse of [den]
    modulo [p], not reduced; so [den * _divmod num den p] is [num] modulo
    [p], and reducing the result gives the quotient in [[0, p)]. *)
Theorem divmod_congruent num den p :
  Z.prime p -> Z.gcd den p = 1 ->
  exists inv,
    (den * inv) mod p = 1 /\
    _divmod num den p = num * inv /\
    (den * _divmod num den p) mod p = num mod p /\
    0 <= (_divmod num den p) mod p < p.
Proof.
  intros Hp Hg. apply Z.prime_ge_2 in Hp.
  exists (fst (_extended_gcd den p)).
  assert (Hinv : (den * fst (_extended_gcd den p)) mod p = 1).
  { rewrite extended_gcd_inverse by (assumption || lia).
    apply Z.mod_1_l. lia. }
  repeat split.
  - exact Hinv.
  - apply divmod_product.
  - apply divmod_inverse; [lia | exact Hg].
  - apply Z.mod_pos_bound. lia.
  - apply Z.mod_pos_bound. lia.
Qed.

Lemma prime_5 : Z.prime 5.
Proof.
  split; [lia|]. intros n Hn [q Hq].
  assert (n = 2 \/ n = 3 \/ n = 4) as [->|[->| ->]] by lia; lia.
Qed.

Lemma divmod_congruent_witness :
  exists inv,
    (2 * inv) mod 5 = 1 /\
    _divmod 1 2 5 = 1 * inv /\
    (2 * _divmod 1 2 5) mod 5 = 1 mod 5 /\
    0 <= (_divmod 1 2 5) mod 5 < 5.
Proof.
  apply (divmod_congruent 1 2 5); [exact prime_5 | reflexivity].
Defined.

(** C5 as it is written fails: [2] is invertible modulo the prime [5],
    yet [_divmod 1 2 5] is [-2], outside [[0, 5)], and not the reduced
    quotient [3]. *)
Lemma divmod_not_reduced :
  Z.prime 5 /\ Z.gcd 2 5 = 1 /\ (2 * 3) mod 5 = 1 /\
  _divmod 1 2 5 = -2 /\
  _divmod 1 2 5 <> (1 * 3) mod 5 /\
  ~ (0 <= _divmod 1 2 5 < 5).
Proof.
  split; [exact prime_5|].
  assert (H : _divmod 1 2 5 = -2) by reflexivity.
  rewrite H. repeat split; try reflexivity; try discriminate. lia.
Qed.

(** ** Interpolation returns the constant term (C2) *)

Lemma pairs_irreflexive_NoDup {A} (R : A -> A -> Prop) l :
  (forall a, ~ R a a) -> ForallOrdPairs R l -> NoDup l.
Proof.
  intros Hirr. induction 1 as [|a l Ha _ IH]; constructor; [|assumption].
  intro Hin. rewrite Forall_forall in Ha. exact (Hirr a (Ha a Hin)).
Qed.

Lemma Forall2_nth_Z (R : Z -> Z -> Prop) l l' i :
  Forall2 R l l' -> (i < length l)%nat -> R (nth i l 0) (nth i l' 0).
Proof.
  intro H. revert i. induction H as [|a b l l' Hab _ IH]; intros i Hi;
    cbn in Hi; [lia|].
  destruct i as [|i]; [exact Hab|]. cbn [nth]. apply IH. lia.
Qed.

Lemma prime_distinct_unit p a b :
  Z.prime p -> a mod p <> b mod p -> unit_mod p (a - b).
Proof.
  intros Hp Hab. pose proof (Z.prime_ge_2 p Hp) as Hp2.
  unfold unit_mod. symmetry. apply Z.coprime_prime_l; [assumption|].
  intro Hdiv. apply Hab.
  apply Z.mod_divide in Hdiv; [|lia].
  apply Z.cong_iff_0. exact Hdiv.
Qed.

Lemma peval_0 poly : peval poly 0 = nth 0 poly 0.
Proof. destruct poly as [|c t]; [reflexivity | rewrite peval_cons; cbn; lia]. Qed.

Lemma range_In a b i : In i (range a b) <-> a <= i < b.
Proof.
  unfold range. rewrite in_map_iff. split.
  - intros [n [<- Hn]]. apply in_seq in Hn. lia.
  - intro H. exists (Z.to_nat (i - a)). split; [lia|].
    apply in_seq. lia.
Qed.

Lemma no_divisor_prime p : 1 < p -> no_divisor p = true -> Z.prime p.
Proof.
  intros H1 H. split; [assumption|]. intros n Hn Hdiv.
  unfold no_divisor in H. rewrite forallb_forall in H.
  specialize (H n (proj2 (range_In 2 p n) ltac:(lia))).
  apply Z.mod_divide in Hdiv; [|lia].
  rewrite Hdiv in H. discriminate.
Qed.

Lemma prime_2089 : Z.prime 2089.
Proof. apply no_divisor_prime; [lia | vm_compute; reflexivity]. Qed.

(** C2, as the code has it: over a prime [p], from [k] points of a
    polynomial with at most [k] coefficients in [[0, p)], the [x_i]
    pairwise distinct modulo [p], [_lagrange_interpolate 0] returns the
    constant term. *)
Theorem lagrange_constant_term p poly x_s y_s :
  Z.prime p ->
  (length poly <= length x_s)%nat ->
  Forall (fun c => 0 <= c < p) poly ->
  ForallOrdPairs (fun a b => a mod p <> b mod p) x_s ->
  Forall2 (fun x y => y mod p = peval poly x mod p) x_s y_s ->
  _lagrange_interpolate 0 x_s y_s p = Ok (nth 0 poly 0).
Proof.
  intros Hp Hlen Hcoeffs Hpairs Hpts.
  pose proof (Z.prime_ge_2 p Hp) as Hp2.
  rewrite (lagrange_interpolate_correct p ltac:(lia) x_s y_s) with (poly := poly).
  - rewrite peval_0. f_equal.
    destruct poly as [|c t]; [apply Z.mod_0_l; lia|].
    inversion Hcoeffs; subst. cbn [nth]. apply Z.mod_small. assumption.
  - apply (pairs_irreflexive_NoDup (fun a b => a mod p <> b mod p));
      [intros a H; apply H; reflexivity | assumption].
  - intros a b Ha Hb Hab. apply prime_distinct_unit; [assumption|].
    destruct (ForallOrdPairs_In Hpairs a b Ha Hb) as [?|[?|?]]; congruence.
  - symmetry. eapply Forall2_length; eassumption.
  - assumption.
  - intros i Hi. apply (Forall2_nth_Z _ _ _ i Hpts Hi).
Qed.

(** The property test of the specification: secret 42, three
    coefficients, [p = 2089], the points at 1, 2 and 3. *)
Lemma lagrange_constant_term_witness :
  _lagrange_interpolate 0 [1; 2; 3] [1494; 1899; 1257] 2089 = Ok 42.
Proof.
  apply (lagrange_constant_term 2089 [42; 931; 521] [1; 2; 3]
           [1494; 1899; 1257]).
  - exact prime_2089.
  - simpl. lia.
  - repeat constructor; lia.
  - repeat constructor; vm_compute; discriminate.
  - repeat constructor.
Defined.

(** C2 as it is written fails: [1] and [6] are distinct and not zero,
    and [(1, 4)], [(6, 4)] lie on [3 + X] modulo the prime [5], yet the
    interpolation returns [0], not [3]. *)
Lemma lagrange_congruent_points :
  Z.prime 5 /\
  Forall (fun c => 0 <= c < 5) [3; 1] /\
  NoDup [1; 6] /\ Forall (fun x => x <> 0) [1; 6] /\
  Forall2 (fun x y => y = peval [3; 1] x mod 5) [1; 6] [4; 4] /\
  _lagrange_interpolate 0 [1; 6] [4; 4] 5 = Ok 0 /\
  _lagrange_interpolate 0 [1; 6] [4; 4] 5 <> Ok (nth 0 [3; 1] 0).
Proof.
  split; [exact prime_5|].
  split; [repeat constructor; lia|].
  split; [repeat constructor; cbn; intuition lia|].
  split; [repeat constructor; lia|].
  split; [repeat constructor|].
  assert (H : _lagrange_interpolate 0 [1; 6] [4; 4] 5 = Ok 0) by reflexivity.
  rewrite H. split; [reflexivity | discriminate].
Qed.

(** ** Preconditions of the interpolation (C6) *)

Lemma lagrange_duplicate x x_s y_s p :
  ~ NoDup x_s -> _lagrange_interpolate x x_s y_s p = Err AssertionError.
Proof.
  intro H. unfold _lagrange_interpolate.
  destruct (Nat.eqb_spec (length x_s) (len_set x_s)) as [E|E].
  - exfalso. apply H. apply len_set_NoDup. symmetry. exact E.
  - reflexivity.
Qed.

Lemma recover_seed_too_few {mnemo : Mnemonic} shares seed_strength prime :
  (length shares < 2)%nat ->
  recover_seed shares seed_strength prime = Err (ValueError NeedTwoShares).
Proof.
  intro H. unfold recover_seed.
  destruct (Nat.ltb_spec (length shares) 2); [reflexivity | lia].
Qed.

(** C6, as the code has it: two equal x-values make
    [_lagrange_interpolate] fail on its assertion; the number of points is
    not checked there (no point gives [0], one point [(x0, y0)] gives
    [y0 mod p]) but by [recover_seed], which fails on fewer than two
    shares. *)
Theorem lagrange_preconditions :
  (forall x x_s y_s p i j v,
      i <> j -> nth_error x_s i = Some v -> nth_error x_s j = Some v ->
      _lagrange_interpolate x x_s y_s p = Err AssertionError) /\
  (forall x y_s p, p <> 0 -> _lagrange_interpolate x [] y_s p = Ok 0) /\
  (forall x x0 y0 p,
      0 < p -> _lagrange_interpolate x [x0] [y0] p = Ok (y0 mod p)) /\
  (forall (mnemo : Mnemonic) shares seed_strength prime,
      (length shares < 2)%nat ->
      recover_seed shares seed_strength prime
      = Err (ValueError NeedTwoShares)).
Proof.
  repeat split.
  - intros x x_s y_s p i j v Hij Hi Hj. apply lagrange_duplicate.
    intro Hnd. apply Hij.
    apply (proj1 (NoDup_nth_error x_s) Hnd).
    + apply nth_error_Some. congruence.
    + congruence.
  - intros x y_s p Hp. unfold _lagrange_interpolate.
    cbn [length len_set nodup Nat.eqb negb seq map rmap rbind].
    rewrite sum_nil, divmod_product, Z.mul_0_l, Z.add_0_l.
    rewrite py_mod_ok, Z.mod_same by assumption. reflexivity.
  - intros x x0 y0 p Hp.
    rewrite (lagrange_interpolate_correct p Hp [x0] [y0])
      with (poly := [y0]).
    + rewrite peval_cons. cbn [peval fold_right].
      now rewrite Z.mul_0_r, Z.add_0_r.
    + repeat constructor. intros [].
    + intros a b [<-|[]] [<-|[]] H. congruence.
    + reflexivity.
    + cbn. lia.
    + intros [|i] Hi; [|cbn in Hi; lia].
      cbn [nth]. rewrite peval_cons. cbn [peval fold_right].
      now rewrite Z.mul_0_r, Z.add_0_r.
  - intros. now apply recover_seed_too_few.
Qed.

Lemma lagrange_preconditions_witness :
  _lagrange_interpolate 0 [1; 2; 1] [5; 6; 7] 11 = Err AssertionError /\
  _lagrange_interpolate 0 [] [] 11 = Ok 0 /\
  _lagrange_interpolate 0 [1] [7] 11 = Ok (7 mod 11) /\
  @recover_seed no_mnemonic [(1, "abandon"%string)] 128 None
  = Err (ValueError NeedTwoShares).
Proof.
  destruct lagrange_preconditions as [Hdup [Hnone [Hone Hfew]]].
  split; [|split; [|split]].
  - apply (Hdup 0 [1; 2; 1] [5; 6; 7] 11 0%nat 2%nat 1);
      [discriminate | reflexivity | reflexivity].
  - apply Hnone. discriminate.
  - apply Hone. reflexivity.
  - apply Hfew. simpl. lia.
Defined.

(** C6 as it is written fails: with no point and with one point
    [_lagrange_interpolate] returns a value. *)
Lemma lagrange_accepts_one_point :
  _lagrange_interpolate 0 [1] [7] 11 = Ok 7 /\
  _lagrange_interpolate 0 [] [] 11 = Ok 0.
Proof. split; reflexivity. Qed.

(** ** Validation of the inputs (C7, C8, C10) *)

Lemma in_list_In x l : in_list x l = true <-> In x l.
Proof.
  unfold in_list. rewrite existsb_exists. split.
  - intros [y [Hy E]]. apply Z.eqb_eq in E. now subst.
  - intro H. exists x. split; [assumption | apply Z.eqb_refl].
Qed.

Lemma in_list_not_In x l : in_list x l = false <-> ~ In x l.
Proof.
  rewrite <- in_list_In. destruct (in_list x l); split; congruence.
Qed.

Lemma run_Raise {A} (e : exn) draws (r : result A) :
  yields (Raise e) draws r -> draws = [] /\ r = Err e.
Proof.
  unfold yields. destruct draws; cbn; [|discriminate].
  intro H. injection H as <-. split; reflexivity.
Qed.

(** C7: a configuration that breaks one of the four rules makes
    [make_random_shares] raise the [ValueError] of a rule it breaks,
    before any draw, and no execution returns shares. *)
Theorem make_random_shares_rejects (mnemo : Mnemonic)
    seed minimum n_shares share_strength :
  minimum > n_shares \/
  ~ In (word_count seed) LENGTH_ALLOWED \/
  ~ In share_strength STRENGTH_ALLOWED \/
  share_strength < word_count seed / 3 * 32 ->
  exists e,
    In e [MoreSharesNeeded; SeedLengthNotAllowed;
          ShareStrengthNotAllowed; ShareStrengthTooLow] /\
    make_random_shares seed minimum n_shares share_strength
    = Raise (ValueError e) /\
    forall draws r,
      yields (make_random_shares seed minimum n_shares share_strength)
             draws r ->
      draws = [] /\ r = Err (ValueError e).
Proof.
  intro H.
  assert (E : exists e,
    In e [MoreSharesNeeded; SeedLengthNotAllowed;
          ShareStrengthNotAllowed; ShareStrengthTooLow] /\
    make_random_shares seed minimum n_shares share_strength
    = Raise (ValueError e)).
  { unfold make_random_shares.
    destruct (Z.gtb_spec minimum n_shares) as [Hm|Hm].
    { exists MoreSharesNeeded. split; [cbn; tauto | reflexivity]. }
    destruct (in_list (word_count seed) LENGTH_ALLOWED) eqn:Hl; cbn [negb].
    2:{ exists SeedLengthNotAllowed. split; [cbn; tauto | reflexivity]. }
    destruct (in_list share_strength STRENGTH_ALLOWED) eqn:Hs; cbn [negb].
    2:{ exists ShareStrengthNotAllowed. split; [cbn; tauto | reflexivity]. }
    destruct (Z.ltb_spec share_strength (word_count seed / 3 * 32)) as [Hlow|Hlow].
    { exists ShareStrengthTooLow. split; [cbn; tauto | reflexivity]. }
    apply in_list_In in Hl, Hs.
    exfalso. destruct H as [H|[H|[H|H]]]; [lia | auto | auto | lia]. }
  destruct E as [e [He E]]. exists e. repeat split; try assumption.
  - rewrite E in H0. now apply run_Raise in H0.
  - rewrite E in H0. now apply run_Raise in H0.
Qed.

(** The test of the specification: [minimum = 5], [n_shares = 3]. *)
Lemma make_random_shares_rejects_witness :
  exists e,
    In e [MoreSharesNeeded; SeedLengthNotAllowed;
          ShareStrengthNotAllowed; ShareStrengthTooLow] /\
    @make_random_shares no_mnemonic "a b c d e f g h i j k l"%string 5 3 128
    = Raise (ValueError e) /\
    forall draws r,
      yields (@make_random_shares no_mnemonic
                "a b c d e f g h i j k l"%string 5 3 128) draws r ->
      draws = [] /\ r = Err (ValueError e).
Proof.
  apply (make_random_shares_rejects no_mnemonic). left. lia.
Defined.

Lemma len_set_one l a b :
  len_set l = 1%nat -> In a l -> In b l -> a = b.
Proof.
  unfold len_set. intros H Ha Hb.
  apply (nodup_In Z.eq_dec) in Ha, Hb.
  destruct (nodup Z.eq_dec l) as [|c [|c' t]]; cbn in H; try discriminate.
  destruct Ha as [<-|[]], Hb as [<-|[]]. reflexivity.
Qed.

(** C8: shares of different word counts make [recover_seed] fail with
    "Shares have different lengths", whatever the codec, the seed strength
    and the prime: nothing is decoded or interpolated before. *)
Theorem recover_seed_different_lengths (mnemo : Mnemonic)
    (shares : list share) seed_strength prime :
  (2 <= length shares)%nat ->
  (exists s1 s2, In s1 shares /\ In s2 shares /\
                 word_count (snd s1) <> word_count (snd s2)) ->
  recover_seed shares seed_strength prime
  = Err (ValueError SharesDifferentLengths).
Proof.
  intros Hlen [s1 [s2 [H1 [H2 Hne]]]]. unfold recover_seed.
  destruct (Nat.ltb_spec (length shares) 2); [lia|].
  destruct (Nat.eqb_spec
              (len_set (map (fun '(_, sh) => word_count sh) shares)) 1)
    as [E|E]; [|reflexivity].
  exfalso. apply Hne.
  apply (len_set_one _ _ _ E); apply in_map_iff.
  - exists s1. destruct s1. auto.
  - exists s2. destruct s2. auto.
Qed.

(** The test of the specification: a 12-word and a 24-word phrase. *)
Lemma recover_seed_different_lengths_witness :
  @recover_seed no_mnemonic
    [(1, "a b c d e f g h i j k l"%string);
     (2, "a b c d e f g h i j k l m n o p q r s t u v w x"%string)]
    128 None
  = Err (ValueError SharesDifferentLengths).
Proof.
  apply (recover_seed_different_lengths no_mnemonic).
  - simpl. lia.
  - exists (1, "a b c d e f g h i j k l"%string),
           (2, "a b c d e f g h i j k l m n o p q r s t u v w x"%string).
    split; [left; reflexivity|].
    split; [right; left; reflexivity|].
    vm_compute. discriminate.
Defined.

(** C10: [seed_to_int] only checks its strength, so any two allowed
    strengths decode a phrase, and a list of shares, alike. *)
Theorem seed_to_int_strength_independent (mnemo : Mnemonic)
    phrase s1 s2 (shares : list share) :
  In s1 STRENGTH_ALLOWED -> In s2 STRENGTH_ALLOWED ->
  seed_to_int phrase s1 = seed_to_int phrase s2 /\
  rmap (fun '(i, seed) => y <- seed_to_int seed s1 ;; Ok (i, y)) shares
  = rmap (fun '(i, seed) => y <- seed_to_int seed s2 ;; Ok (i, y)) shares.
Proof.
  intros H1 H2.
  assert (E : forall ph, seed_to_int ph s1 = seed_to_int ph s2).
  { intro ph. unfold seed_to_int.
    apply in_list_In in H1, H2. rewrite H1, H2. reflexivity. }
  split; [apply E|].
  induction shares as [|[i seed] t IH]; [reflexivity|].
  cbn [rmap]. rewrite E, IH. reflexivity.
Qed.

Lemma seed_to_int_strength_independent_witness :
  @seed_to_int letters_codec
     "amz aza bqq azy byb agm bzx avi amz aza bqq bag"%string 128
  = @seed_to_int letters_codec
     "amz aza bqq azy byb agm bzx avi amz aza bqq bag"%string 256 /\
  rmap (fun '(i, seed) => y <- @seed_to_int letters_codec seed 128 ;; Ok (i, y))
       [(1, "amz aza bqq azy byb agm bzx avi amz aza bqq azp"%string)]
  = rmap (fun '(i, seed) => y <- @seed_to_int letters_codec seed 256 ;; Ok (i, y))
       [(1, "amz aza bqq azy byb agm bzx avi amz aza bqq azp"%string)].
Proof.
  apply (seed_to_int_strength_independent letters_codec); simpl; tauto.
Defined.

(** ** Executions of [make_random_shares] *)

Lemma run_pbind_assoc {A B C} (m : prog A) (g : A -> prog B)
    (f : B -> prog C) draws :
  run (pbind (pbind m g) f) draws
  = run (pbind m (fun a => pbind (g a) f)) draws.
Proof.
  revert draws. induction m as [a|e|lo hi k IH]; intro draws;
    [reflexivity | reflexivity |].
  cbn [pbind run]. destruct draws as [|c rest]; [reflexivity|].
  destruct ((lo <=? c) && (c <=? hi)); [apply IH | reflexivity].
Qed.

Lemma yields_lift_bind {A B} (r0 : result A) (f : A -> prog B) draws r :
  yields (pbind (lift r0) f) draws r <->
  match r0 with
  | Ok a => yields (f a) draws r
  | Err e => draws = [] /\ r = Err e
  end.
Proof.
  destruct r0 as [a|e]; cbn [lift pbind]; [reflexivity|].
  split; [apply run_Raise|]. intros [-> ->]. reflexivity.
Qed.

Lemma yields_Return {A} (a : A) draws r :
  yields (Return a) draws r <-> draws = [] /\ r = Ok a.
Proof.
  unfold yields. destruct draws; cbn; split.
  - intro H. injection H as <-. auto.
  - intros [_ ->]. reflexivity.
  - discriminate.
  - intros [H _]. discriminate.
Qed.

(** The draws of the comprehension: one value in [[0, hi]] per element. *)
Lemma yields_draws {A B} hi (l : list A) (f : list Z -> prog B) draws r :
  yields (pbind (pmap (fun _ => random_int hi) l) f) draws r <->
  exists cs rest,
    draws = cs ++ rest /\ length cs = length l /\
    Forall (fun c => 0 <= c <= hi) cs /\ yields (f cs) rest r.
Proof.
  revert f draws. induction l as [|a t IH]; intros f draws.
  - cbn [pmap pbind]. split.
    + intro H. exists [], draws. repeat split; [constructor | exact H].
    + intros [cs [rest [-> [Hlen [_ H]]]]].
      destruct cs; [exact H | discriminate].
  - unfold yields in *. cbn [pmap random_int pbind run].
    destruct draws as [|c draws'].
    + split; [discriminate|].
      intros [cs [rest [E [Hlen _]]]].
      destruct cs; [discriminate | discriminate].
    + destruct (Z.leb_spec 0 c) as [H0|H0];
        [destruct (Z.leb_spec c hi) as [H1|H1]|]; cbn [andb].
      * rewrite run_pbind_assoc. cbn [pbind].
        rewrite (IH (fun bs => f (c :: bs)) draws'). split.
        -- intros [cs [rest [-> [Hlen [Hcs H]]]]].
           exists (c :: cs), rest. repeat split.
           ++ cbn. now rewrite Hlen.
           ++ constructor; [lia | assumption].
           ++ exact H.
        -- intros [cs [rest [E [Hlen [Hcs H]]]]].
           destruct cs as [|c' cs]; [discriminate|].
           injection E as <- ->. inversion Hcs; subst.
           exists cs, rest. repeat split; auto.
      * split; [discriminate|].
        intros [cs [rest [E [Hlen [Hcs _]]]]].
        destruct cs as [|c' cs]; [discriminate|].
        injection E as <- _. inversion Hcs; subst. lia.
      * split; [discriminate|].
        intros [cs [rest [E [Hlen [Hcs _]]]]].
        destruct cs as [|c' cs]; [discriminate|].
        injection E as <- _. inversion Hcs; subst. lia.
Qed.

Lemma range_length a b : length (range a b) = Z.to_nat (b - a).
Proof. unfold range. now rewrite length_map, length_seq. Qed.

Section Generation.

Context {mnemo : Mnemonic}.

Lemma yields_pure_tail {A B} (r1 : result A) (g : A -> result B) draws r :
  yields (a <~ lift r1 ;; b <~ lift (g a) ;; Return b)%prog draws r <->
  draws = [] /\ r = (a <- r1 ;; g a).
Proof.
  rewrite yields_lift_bind. destruct r1 as [a|e]; cbn [rbind]; [|reflexivity].
  rewrite yields_lift_bind. destruct (g a) as [b|e]; [|reflexivity].
  apply yields_Return.
Qed.

(** The executions of [make_random_shares] on a valid configuration and
    a seed that decodes: [minimum - 1] draws in [[0, prime - 1]], then
    the shares of the polynomial of the secret and the draws. *)
Lemma yields_make_random_shares seed minimum n_shares share_strength
    prime secret draws r :
  valid_configuration seed minimum n_shares share_strength ->
  dict_get PRIMES share_strength = Ok prime ->
  seed_to_int seed 256 = Ok secret ->
  yields (make_random_shares seed minimum n_shares share_strength) draws r <->
  length draws = Z.to_nat (minimum - 1) /\
  Forall (fun c => 0 <= c <= prime - 1) draws /\
  r = shares_of_poly (secret :: draws) n_shares prime share_strength.
Proof.
  intros [Hm [Hl [Hs Hlow]]] Hprime Hsecret. unfold make_random_shares.
  destruct (Z.gtb_spec minimum n_shares); [lia|].
  apply in_list_In in Hl, Hs. rewrite Hl, Hs. cbn [negb].
  destruct (Z.ltb_spec share_strength (word_count seed / 3 * 32)); [lia|].
  rewrite yields_lift_bind, Hprime, yields_lift_bind, Hsecret, yields_draws.
  rewrite range_length, Z.sub_0_r. split.
  - intros [cs [rest [-> [Hlen [Hcs Hy]]]]].
    apply yields_pure_tail in Hy. destruct Hy as [-> ->].
    rewrite app_nil_r. auto.
  - intros [Hlen [Hcs ->]]. exists draws, [].
    rewrite app_nil_r. repeat split; try assumption.
    apply yields_pure_tail. auto.
Qed.

End Generation.

(** ** The range of the random coefficients (C4) *)

Lemma make_random_shares_cases {mnemo : Mnemonic}
    seed minimum n_shares share_strength :
  valid_configuration seed minimum n_shares share_strength \/
  exists e,
    make_random_shares seed minimum n_shares share_strength
    = Raise (ValueError e).
Proof.
  unfold make_random_shares, valid_configuration.
  destruct (Z.gtb_spec minimum n_shares) as [Hm|Hm]; [right; eauto|].
  destruct (in_list (word_count seed) LENGTH_ALLOWED) eqn:Hl; cbn [negb];
    [|right; eauto].
  destruct (in_list share_strength STRENGTH_ALLOWED) eqn:Hs; cbn [negb];
    [|right; eauto].
  destruct (Z.ltb_spec share_strength (word_count seed / 3 * 32));
    [right; eauto|].
  apply in_list_In in Hl, Hs. left. auto.
Qed.

(** C4, as the code has it: [random_int (prime - 1)] is
    [randint(0, prime - 1)], whose bounds are both included.  In every
    execution the drawn coefficients lie in [[0, prime - 1]]; an execution
    that returns shares has drawn [minimum - 1] of them, the coefficients
    after the secret; and all of them being [prime - 1] is an execution. *)
Theorem random_coefficients_range (mnemo : Mnemonic)
    seed minimum n_shares share_strength prime :
  dict_get PRIMES share_strength = Ok prime ->
  (forall draws r,
      yields (make_random_shares seed minimum n_shares share_strength)
             draws r ->
      Forall (fun c => 0 <= c <= prime - 1) draws /\
      forall shares, r = Ok shares ->
        length draws = Z.to_nat (minimum - 1) /\
        exists secret,
          seed_to_int seed 256 = Ok secret /\
          shares_of_poly (secret :: draws) n_shares prime share_strength
          = Ok shares) /\
  (forall secret,
      valid_configuration seed minimum n_shares share_strength ->
      seed_to_int seed 256 = Ok secret ->
      yields (make_random_shares seed minimum n_shares share_strength)
             (repeat (prime - 1) (Z.to_nat (minimum - 1)))
             (shares_of_poly
                (secret :: repeat (prime - 1) (Z.to_nat (minimum - 1)))
                n_shares prime share_strength)).
Proof.
  intro Hprime. split.
  - intros draws r Hy.
    destruct (make_random_shares_cases seed minimum n_shares share_strength)
      as [Hvalid|[e E]].
    + destruct (seed_to_int seed 256) as [secret|e] eqn:Hsecret.
      * apply (yields_make_random_shares _ _ _ _ prime secret) in Hy;
          try assumption.
        destruct Hy as [Hlen [Hcs ->]]. split; [assumption|].
        intros shares Hok. split; [assumption|]. exists secret. auto.
      * destruct Hvalid as [Hm [Hl [Hs Hlow]]].
        unfold make_random_shares in Hy.
        destruct (Z.gtb_spec minimum n_shares); [lia|].
        apply in_list_In in Hl, Hs. rewrite Hl, Hs in Hy. cbn [negb] in Hy.
        destruct (Z.ltb_spec share_strength (word_count seed / 3 * 32));
          [lia|].
        rewrite yields_lift_bind, Hprime, yields_lift_bind, Hsecret in Hy.
        destruct Hy as [-> ->]. split; [constructor | discriminate].
    + rewrite E in Hy. apply run_Raise in Hy. destruct Hy as [-> ->].
      split; [constructor | discriminate].
  - intros secret Hvalid Hsecret.
    apply (yields_make_random_shares _ _ _ _ prime secret); try assumption.
    split; [apply repeat_length|]. split; [|reflexivity].
    apply Forall_forall. intros c Hc. apply repeat_spec in Hc. subst c.
    assert (0 < prime); [|lia].
    unfold PRIMES in Hprime. cbn [dict_get] in Hprime.
    repeat match type of Hprime with
           | (if ?b then _ else _) = _ =>
               destruct b; [injection Hprime as <-; reflexivity|]
           end.
    discriminate.
Qed.

Lemma random_coefficients_range_witness :
  Forall (fun c => 0 <= c <= 2 ^ 128 - 159 - 1) [5] /\
  forall shares,
    Ok [(1, "amz aza bqq azy byb agm bzx avi amz aza bqq bdi"%string);
        (2, "amz aza bqq azy byb agm bzx avi amz aza bqq bgk"%string)]
    = Ok shares ->
    length [5] = Z.to_nat (2 - 1) /\
    exists secret,
      @seed_to_int letters_codec
        "amz aza bqq azy byb agm bzx avi amz aza bqq bag"%string 256
      = Ok secret /\
      @shares_of_poly letters_codec (secret :: [5]) 2 (2 ^ 128 - 159) 128
      = Ok shares.
Proof.
  apply (proj1 (random_coefficients_range letters_codec
           "amz aza bqq azy byb agm bzx avi amz aza bqq bag"%string
           2 2 128 (2 ^ 128 - 159) eq_refl) [5]).
  vm_compute. reflexivity.
Defined.

(** C4 as it is written fails: [prime - 1] itself can be drawn. *)
Lemma random_coefficient_reaches_bound :
  dict_get PRIMES 128 = Ok (2 ^ 128 - 159) /\
  (exists shares,
      yields (@make_random_shares letters_codec
                "amz aza bqq azy byb agm bzx avi amz aza bqq bag"%string
                2 2 128)
             [2 ^ 128 - 159 - 1] (Ok shares)) /\
  ~ Forall (fun c => 0 <= c < 2 ^ 128 - 159 - 1) [2 ^ 128 - 159 - 1].
Proof.
  split; [reflexivity|]. split.
  - eexists. vm_compute. reflexivity.
  - intro H. inversion H; subst. lia.
Qed.

(** ** Digits and bytes *)

Lemma of_digits_be_rev base ds :
  of_digits_be base (rev ds) = of_digits_le base ds.
Proof.
  unfold of_digits_be, of_digits_le.
  rewrite <- (fold_left_rev_right (fun d acc => acc * base + d)).
  rewrite rev_involutive.
  induction ds as [|d ds IH]; [reflexivity|].
  cbn [fold_right]. rewrite IH. ring.
Qed.

Lemma of_digits_le_cons base d ds :
  of_digits_le base (d :: ds) = d + base * of_digits_le base ds.
Proof. reflexivity. Qed.

Lemma digits_le_length base len v : length (digits_le base len v) = len.
Proof.
  revert v. induction len as [|len IH]; intro v; [reflexivity|].
  cbn [digits_le length]. now rewrite IH.
Qed.

Lemma digits_le_digit base len v :
  0 < base -> Forall (digit base) (digits_le base len v).
Proof.
  intro Hb. revert v. induction len as [|len IH]; intro v; constructor.
  - apply Z.mod_pos_bound. assumption.
  - apply IH.
Qed.

Lemma of_digits_le_bound base ds :
  0 < base -> Forall (digit base) ds ->
  0 <= of_digits_le base ds < base ^ Z.of_nat (length ds).
Proof.
  intros Hb. induction 1 as [|d ds Hd _ IH]; [cbn; lia|].
  rewrite of_digits_le_cons. cbn [length].
  rewrite Nat2Z.inj_succ, Z.pow_succ_r by lia.
  unfold digit in Hd. nia.
Qed.

(** Writing a number in [len] digits and reading it back. *)
Lemma of_digits_le_digits base len v :
  0 < base -> 0 <= v < base ^ Z.of_nat len ->
  of_digits_le base (digits_le base len v) = v.
Proof.
  intro Hb. revert v. induction len as [|len IH]; intros v Hv.
  - cbn in *. lia.
  - cbn [digits_le]. rewrite of_digits_le_cons.
    rewrite Nat2Z.inj_succ, Z.pow_succ_r in Hv by lia.
    rewrite IH.
    + pose proof (Z.div_mod v base). lia.
    + split; [apply Z.div_pos; lia|].
      apply Z.div_lt_upper_bound; lia.
Qed.

(** Reading digits and writing the number back. *)
Lemma digits_le_of_digits base ds :
  0 < base -> Forall (digit base) ds ->
  digits_le base (length ds) (of_digits_le base ds) = ds.
Proof.
  intro Hb. induction 1 as [|d ds Hd _ IH]; [reflexivity|].
  rewrite of_digits_le_cons. cbn [length digits_le].
  unfold digit in Hd.
  assert (Hmod : (d + base * of_digits_le base ds) mod base = d).
  { replace (d + base * of_digits_le base ds)
      with (d + of_digits_le base ds * base) by ring.
    rewrite Z.mod_add by lia. apply Z.mod_small. assumption. }
  assert (Hdiv : (d + base * of_digits_le base ds) / base
                 = of_digits_le base ds).
  { replace (d + base * of_digits_le base ds)
      with (d + of_digits_le base ds * base) by ring.
    rewrite Z.div_add by lia. rewrite Z.div_small by assumption. ring. }
  rewrite Hmod, Hdiv, IH. reflexivity.
Qed.

Lemma of_digits_be_digits base len v :
  0 < base -> 0 <= v < base ^ Z.of_nat len ->
  of_digits_be base (digits_be base len v) = v.
Proof.
  intros. unfold digits_be.
  rewrite of_digits_be_rev. now apply of_digits_le_digits.
Qed.

Lemma digits_be_of_digits base ds :
  0 < base -> Forall (digit base) ds ->
  digits_be base (length ds) (of_digits_be base ds) = ds.
Proof.
  intros Hb Hds. unfold digits_be.
  rewrite <- (rev_involutive ds) at 2. rewrite of_digits_be_rev.
  rewrite <- length_rev, digits_le_of_digits;
    [apply rev_involutive | assumption | now apply Forall_rev].
Qed.

Lemma of_digits_be_bound base ds :
  0 < base -> Forall (digit base) ds ->
  0 <= of_digits_be base ds < base ^ Z.of_nat (length ds).
Proof.
  intros Hb Hds. rewrite <- (rev_involutive ds) at 1 2.
  rewrite of_digits_be_rev, <- length_rev.
  apply of_digits_le_bound; [assumption | now apply Forall_rev].
Qed.

Lemma digits_be_length base len v : length (digits_be base len v) = len.
Proof. unfold digits_be. now rewrite length_rev, digits_le_length. Qed.

Lemma digits_be_digit base len v :
  0 < base -> Forall (digit base) (digits_be base len v).
Proof. intro. apply Forall_rev. now apply digits_le_digit. Qed.

Lemma Z_of_byte_digit b : digit 256 (Z_of_byte b).
Proof.
  unfold digit, Z_of_byte. pose proof (Byte.to_N_bounded b). lia.
Qed.

Lemma byte_of_Z_of_byte b : byte_of_Z (Z_of_byte b) = b.
Proof.
  unfold byte_of_Z, Z_of_byte. now rewrite N2Z.id, Byte.of_to_N.
Qed.

Lemma Z_of_byte_of_Z z : digit 256 z -> Z_of_byte (byte_of_Z z) = z.
Proof.
  unfold digit, byte_of_Z, Z_of_byte. intro Hz.
  destruct (Byte.of_N (Z.to_N z)) as [b|] eqn:E.
  - apply Byte.to_of_N in E. lia.
  - apply Byte.of_N_None_iff in E. lia.
Qed.

Lemma map_Z_of_byte_of_Z ds :
  Forall (digit 256) ds -> map Z_of_byte (map byte_of_Z ds) = ds.
Proof.
  induction 1 as [|d ds Hd _ IH]; [reflexivity|].
  cbn [map]. now rewrite Z_of_byte_of_Z, IH.
Qed.

Lemma map_byte_of_Z_of_byte bs : map byte_of_Z (map Z_of_byte bs) = bs.
Proof.
  induction bs as [|b bs IH]; [reflexivity|].
  cbn [map]. now rewrite byte_of_Z_of_byte, IH.
Qed.

Lemma int_from_bytes_bound bs :
  0 <= int_from_bytes bs < 256 ^ Z.of_nat (length bs).
Proof.
  unfold int_from_bytes.
  rewrite <- (length_map Z_of_byte bs).
  apply of_digits_be_bound; [lia|].
  apply Forall_forall. intros d Hd. apply in_map_iff in Hd.
  destruct Hd as [b [<- _]]. apply Z_of_byte_digit.
Qed.

(** [int.to_bytes] of a number that fits, and [int.from_bytes] of it. *)
Lemma int_to_bytes_fits number len :
  0 <= len -> 0 <= number < 256 ^ len ->
  exists bs,
    int_to_bytes number len = Ok bs /\
    Z.of_nat (length bs) = len /\ int_from_bytes bs = number.
Proof.
  intros Hlen Hn. unfold int_to_bytes.
  destruct (Z.ltb_spec number 0); [lia|].
  destruct (Z.leb_spec (256 ^ len) number); [lia|]. cbn [orb].
  eexists. split; [reflexivity|]. split.
  - rewrite length_map, digits_be_length. lia.
  - unfold int_from_bytes.
    rewrite map_Z_of_byte_of_Z by (apply digits_be_digit; lia).
    apply of_digits_be_digits; [lia|]. rewrite Z2Nat.id; assumption.
Qed.

Lemma bytes_of_int_from_bytes bs :
  map byte_of_Z (digits_be 256 (length bs) (int_from_bytes bs)) = bs.
Proof.
  unfold int_from_bytes. rewrite <- (length_map Z_of_byte bs).
  rewrite digits_be_of_digits; [apply map_byte_of_Z_of_byte | lia |].
  apply Forall_forall. intros d Hd. apply in_map_iff in Hd.
  destruct Hd as [b [<- _]]. apply Z_of_byte_digit.
Qed.

Lemma int_to_bytes_from_bytes bs :
  int_to_bytes (int_from_bytes bs) (Z.of_nat (length bs)) = Ok bs.
Proof.
  pose proof (int_from_bytes_bound bs) as Hb. unfold int_to_bytes.
  destruct (Z.ltb_spec (int_from_bytes bs) 0); [lia|].
  destruct (Z.leb_spec (256 ^ Z.of_nat (length bs)) (int_from_bytes bs));
    [lia|].
  cbn [orb]. f_equal. rewrite Nat2Z.id. apply bytes_of_int_from_bytes.
Qed.

(** ** Horner evaluation *)

Lemma horner_mod x p l :
  p <> 0 ->
  forall a b, a mod p = b mod p ->
  fold_left (fun acc c => acc * x + c) l a mod p
  = fold_left (fun acc c => acc * x + c) l b mod p.
Proof.
  intro Hp. induction l as [|c l IH]; intros a b H; [exact H|].
  cbn [fold_left]. apply IH.
  rewrite (Z.add_mod (a * x)), (Z.add_mod (b * x)) by assumption.
  rewrite (Z.mul_mod a), (Z.mul_mod b), H by assumption. reflexivity.
Qed.

Lemma eval_loop_ok x p l acc :
  p <> 0 ->
  eval_loop l x p acc
  = Ok (match l with
        | [] => acc
        | _ :: _ => fold_left (fun a c => a * x + c) l acc mod p
        end).
Proof.
  intro Hp. revert acc. induction l as [|c l IH]; intro acc; [reflexivity|].
  cbn [eval_loop]. rewrite py_mod_ok by assumption. cbn [rbind].
  rewrite IH. f_equal. destruct l as [|c' l']; [reflexivity|].
  cbn [fold_left]. apply horner_mod; [assumption|].
  rewrite (Z.add_mod (_ mod p * x)), (Z.mul_mod (_ mod p)), Z.mod_mod
    by assumption.
  rewrite <- Z.mul_mod, <- Z.add_mod by assumption. reflexivity.
Qed.

Lemma horner_peval poly x :
  fold_left (fun a c => a * x + c) (rev poly) 0 = peval poly x.
Proof.
  rewrite <- (fold_left_rev_right (fun c a => a * x + c)), rev_involutive.
  induction poly as [|c t IH]; [reflexivity|].
  cbn [fold_right]. rewrite IH, peval_cons. ring.
Qed.

(** [_eval_at] is the value of the polynomial, reduced. *)
Lemma eval_at_peval poly x prime :
  prime <> 0 -> _eval_at poly x prime = Ok (peval poly x mod prime).
Proof.
  intro Hp. unfold _eval_at. rewrite eval_loop_ok by assumption.
  rewrite <- horner_peval.
  destruct (rev poly); [now rewrite Z.mod_0_l | reflexivity].
Qed.

(** ** The table of primes *)

Lemma primes_table strength prime :
  In strength STRENGTH_ALLOWED ->
  dict_get PRIMES strength = Ok prime ->
  1 < prime < 2 ^ strength /\
  2 ^ strength = 256 ^ (strength / 8) /\
  In (strength / 8) [16; 20; 24; 28; 32] /\
  strength / 8 / 4 * 3 / 3 * 32 = strength /\
  forall d, 1 <= d <= 9 -> Z.gcd d prime = 1.
Proof.
  intros Hs Hp.
  assert (Hd : forall d, 1 <= d <= 9 ->
            d = 1 \/ d = 2 \/ d = 3 \/ d = 4 \/ d = 5 \/
            d = 6 \/ d = 7 \/ d = 8 \/ d = 9) by (intros; lia).
  cbn in Hs.
  destruct Hs as [<-|[<-|[<-|[<-|[<-|[]]]]]];
    vm_compute in Hp; injection Hp as <-;
    (split; [split; reflexivity|]);
    (split; [reflexivity|]);
    (split; [cbn; tauto|]);
    (split; [reflexivity|]);
    intros d H; destruct (Hd d H) as [->|[->|[->|[->|[->|[->|[->|[->| ->]]]]]]]];
    reflexivity.
Qed.

Lemma strength_has_prime strength :
  In strength STRENGTH_ALLOWED -> exists prime, dict_get PRIMES strength = Ok prime.
Proof.
  cbn. intros [<-|[<-|[<-|[<-|[<-|[]]]]]]; eexists; reflexivity.
Qed.

Lemma length_strength wc :
  In wc LENGTH_ALLOWED ->
  In (wc / 3 * 32) STRENGTH_ALLOWED /\
  forall len, In len [16; 20; 24; 28; 32] -> wc = len / 4 * 3 ->
              wc / 3 * 32 / 8 = len.
Proof.
  cbn. intros [<-|[<-|[<-|[<-|[<-|[]]]]]];
    (split; [vm_compute; tauto|]);
    intros len [<-|[<-|[<-|[<-|[<-|[]]]]]]; vm_compute; congruence.
Qed.

(** ** Generation never overflows (C9) *)

Lemma rmap_exists {A B} (f : A -> result B) (P : A -> B -> Prop) l :
  (forall a, In a l -> exists b, f a = Ok b /\ P a b) ->
  exists bs, rmap f l = Ok bs /\ Forall2 P l bs.
Proof.
  induction l as [|a l IH]; intro H.
  - exists []. split; [reflexivity | constructor].
  - destruct (H a (or_introl eq_refl)) as [b [Hb Pb]].
    destruct IH as [bs [Hbs Pbs]]; [intros; apply H; right; assumption|].
    exists (b :: bs). cbn [rmap]. rewrite Hb. cbn [rbind]. rewrite Hbs.
    split; [reflexivity | constructor; assumption].
Qed.

Section Encoding.

Context {mnemo : Mnemonic}.
Hypothesis laws : MnemonicLaws mnemo.

Lemma int_to_seed_fits y strength :
  In strength STRENGTH_ALLOWED -> 0 <= y < 2 ^ strength ->
  exists bs phrase,
    int_to_bytes y (strength / 8) = Ok bs /\
    Z.of_nat (length bs) = strength / 8 /\
    int_from_bytes bs = y /\
    to_mnemonic bs = Some phrase /\
    int_to_seed y strength = Ok phrase.
Proof.
  intros Hs Hy.
  destruct (strength_has_prime strength Hs) as [prime Hp].
  destruct (primes_table strength prime Hs Hp) as [_ [Hpow [Hlen _]]].
  destruct (int_to_bytes_fits y (strength / 8)) as [bs [Hbs [Hl Hv]]].
  - cbn in Hlen. lia.
  - rewrite <- Hpow. assumption.
  - destruct (proj2 (to_mnemonic_defined mnemo laws bs)) as [phrase Hph].
    { rewrite Hl. assumption. }
    exists bs, phrase. repeat split; try assumption.
    unfold int_to_seed. apply in_list_In in Hs. rewrite Hs. cbn [negb].
    rewrite Hbs. cbn [rbind]. rewrite Hph. reflexivity.
Qed.

Lemma shares_of_poly_ok poly n_shares prime share_strength :
  In share_strength STRENGTH_ALLOWED ->
  dict_get PRIMES share_strength = Ok prime ->
  exists shares,
    shares_of_poly poly n_shares prime share_strength = Ok shares /\
    map fst shares = range 1 (n_shares + 1) /\
    Forall (share_of poly prime share_strength) shares.
Proof.
  intros Hs Hp.
  destruct (primes_table share_strength prime Hs Hp) as [Hprime _].
  unfold shares_of_poly.
  rewrite (rmap_ok _ (fun i => (i, peval poly i mod prime)))
    by (intros i _; rewrite eval_at_peval by lia; reflexivity).
  cbn [rbind].
  destruct (rmap_exists
              (fun '(i, point) => s <- int_to_seed point share_strength ;;
                                  Ok (i, s))
              (fun (pt : Z * Z) (sh : share) =>
                 fst sh = fst pt /\ share_of poly prime share_strength sh)
              (map (fun i => (i, peval poly i mod prime))
                   (range 1 (n_shares + 1))))
    as [shares [Hshares HF]].
  { intros [i y] Hin. apply in_map_iff in Hin.
    destruct Hin as [i' [E _]]. injection E as -> <-.
    destruct (int_to_seed_fits (peval poly i mod prime) share_strength Hs)
      as [bs [phrase [_ [Hl [Hv [Hph Hseed]]]]]].
    { pose proof (Z.mod_pos_bound (peval poly i) prime). lia. }
    exists (i, phrase). rewrite Hseed. cbn [rbind fst snd].
    split; [reflexivity|]. split; [reflexivity|].
    exists bs. cbn [fst snd]. auto. }
  exists shares. split; [assumption|].
  clear Hshares. revert shares HF.
  induction (range 1 (n_shares + 1)) as [|i l IH]; intros shares HF;
    inversion HF as [|? sh ? shares' [Hfst Hsh] HF']; subst.
  - split; [reflexivity | constructor].
  - destruct (IH shares' HF') as [Hm Hall].
    cbn [map fst] in *. rewrite Hfst, Hm.
    split; [reflexivity | constructor; assumption].
Qed.

End Encoding.

(** C9: on a valid configuration and a seed that decodes, the table
    prime is below [2 ^ share_strength], every value of [_eval_at] lies in
    [[0, prime)] and is encoded by [int_to_seed] without overflow, and
    every execution returns the [n_shares] shares. *)
Theorem generation_never_overflows (mnemo : Mnemonic)
    seed minimum n_shares share_strength prime secret :
  MnemonicLaws mnemo ->
  valid_configuration seed minimum n_shares share_strength ->
  seed_to_int seed 256 = Ok secret ->
  dict_get PRIMES share_strength = Ok prime ->
  prime < 2 ^ share_strength /\
  (forall poly x,
      exists y phrase,
        _eval_at poly x prime = Ok y /\ 0 <= y < prime /\
        int_to_bytes y (share_strength / 8) <> Err OverflowError /\
        int_to_seed y share_strength = Ok phrase) /\
  (forall draws,
      length draws = Z.to_nat (minimum - 1) ->
      Forall (fun c => 0 <= c <= prime - 1) draws ->
      exists shares,
        yields (make_random_shares seed minimum n_shares share_strength)
               draws (Ok shares) /\
        map fst shares = range 1 (n_shares + 1)) /\
  (forall draws r,
      yields (make_random_shares seed minimum n_shares share_strength)
             draws r ->
      exists shares, r = Ok shares).
Proof.
  intros laws Hvalid Hsecret Hprime.
  pose proof Hvalid as [_ [_ [Hs _]]].
  destruct (primes_table share_strength prime Hs Hprime) as [Hp _].
  split; [lia|]. split; [|split].
  - intros poly x.
    destruct (int_to_seed_fits laws (peval poly x mod prime) share_strength Hs)
      as [bs [phrase [Hbs [_ [_ [_ Hseed]]]]]].
    { pose proof (Z.mod_pos_bound (peval poly x) prime). lia. }
    exists (peval poly x mod prime), phrase.
    split; [apply eval_at_peval; lia|].
    split; [apply Z.mod_pos_bound; lia|].
    split; [rewrite Hbs; discriminate | assumption].
  - intros draws Hlen Hdraws.
    destruct (shares_of_poly_ok laws (secret :: draws) n_shares prime
                share_strength Hs Hprime) as [shares [Hshares [Hfst _]]].
    exists shares. split; [|assumption].
    apply (yields_make_random_shares _ _ _ _ prime secret); auto.
  - intros draws r Hy.
    apply (yields_make_random_shares _ _ _ _ prime secret) in Hy; auto.
    destruct Hy as [_ [_ ->]].
    destruct (shares_of_poly_ok laws (secret :: draws) n_shares prime
                share_strength Hs Hprime) as [shares [Hshares _]].
    exists shares. assumption.
Qed.

(** ** The BIP39 codec obeys the laws *)

Lemma split_space_not_nil s : split_space s <> [].
Proof.
  destruct s as [|c rest]; cbn; [discriminate|].
  destruct (is_space c); [discriminate|].
  destruct (split_space rest); discriminate.
Qed.

Lemma join_space_cons w w' ws :
  join_space (w :: w' :: ws)
  = (w ++ String " "%char (join_space (w' :: ws)))%string.
Proof. reflexivity. Qed.

Lemma join_split_space s : join_space (split_space s) = s.
Proof.
  induction s as [|c rest IH]; [reflexivity|].
  cbn [split_space]. pose proof (split_space_not_nil rest) as Hne.
  destruct (split_space rest) as [|w ws]; [contradiction|].
  destruct (is_space c) eqn:Hc.
  - rewrite join_space_cons, IH. cbn [append].
    unfold is_space in Hc. apply Ascii.eqb_eq in Hc. now subst.
  - destruct ws as [|w' ws].
    + cbn [join_space] in *. now rewrite IH.
    + rewrite join_space_cons. cbn [append].
      rewrite <- join_space_cons, IH. reflexivity.
Qed.

Lemma split_space_word w : space_free w = true -> split_space w = [w].
Proof.
  induction w as [|c rest IH]; [reflexivity|].
  cbn. intro H. apply andb_true_iff in H. destruct H as [Hc Hr].
  apply negb_true_iff in Hc. rewrite Hc, IH by assumption. reflexivity.
Qed.

Lemma split_space_app w s :
  space_free w = true ->
  split_space (w ++ String " "%char s) = w :: split_space s.
Proof.
  induction w as [|c rest IH]; [reflexivity|].
  cbn. intro H. apply andb_true_iff in H. destruct H as [Hc Hr].
  apply negb_true_iff in Hc. rewrite Hc, IH by assumption. reflexivity.
Qed.

Lemma split_join_space ws :
  ws <> [] -> Forall (fun w => space_free w = true) ws ->
  split_space (join_space ws) = ws.
Proof.
  intros Hne H. induction H as [|w ws Hw Hws IH]; [contradiction|].
  destruct ws as [|w' ws].
  - apply split_space_word. assumption.
  - rewrite join_space_cons, split_space_app by assumption.
    f_equal. apply IH. discriminate.
Qed.

Lemma word_index_sound words word z :
  word_index words word = Some z ->
  0 <= z < Z.of_nat (length words) /\
  nth (Z.to_nat z) words EmptyString = word.
Proof.
  revert z. induction words as [|w rest IH]; intros z H; [discriminate|].
  cbn [word_index] in H. destruct (String.eqb_spec w word) as [->|Hne].
  - injection H as <-. cbn. split; [lia | reflexivity].
  - destruct (word_index rest word) as [z'|]; [|discriminate].
    injection H as <-. destruct (IH z' eq_refl) as [Hz Hn].
    cbn [length]. split; [lia|].
    replace (Z.to_nat (Z.succ z')) with (S (Z.to_nat z')) by lia.
    exact Hn.
Qed.

Lemma word_index_nth words i :
  NoDup words -> (i < length words)%nat ->
  word_index words (nth i words EmptyString) = Some (Z.of_nat i).
Proof.
  intro Hnd. revert i. induction Hnd as [|w rest Hnin _ IH]; intros i Hi;
    [cbn in Hi; lia|].
  destruct i as [|i]; cbn [nth word_index].
  - now rewrite String.eqb_refl.
  - cbn [length] in Hi.
    destruct (String.eqb_spec w (nth i rest EmptyString)) as [E|_].
    + exfalso. apply Hnin. rewrite E. apply nth_In. lia.
    + rewrite IH by lia. cbn. f_equal. lia.
Qed.

Lemma all_some_map {A B} (f : A -> option B) (g : A -> B) l :
  (forall a, In a l -> f a = Some (g a)) ->
  all_some (map f l) = Some (map g l).
Proof.
  induction l as [|a l IH]; intro H; [reflexivity|].
  cbn [map all_some]. rewrite (H a) by (left; reflexivity).
  rewrite IH by (intros; apply H; right; assumption). reflexivity.
Qed.

Lemma all_some_inv {A B} (f : A -> option B) l bs :
  all_some (map f l) = Some bs -> Forall2 (fun a b => f a = Some b) l bs.
Proof.
  revert bs. induction l as [|a l IH]; intros bs H.
  - injection H as <-. constructor.
  - cbn [map all_some] in H. destruct (f a) as [b|] eqn:E; [|discriminate].
    destruct (all_some (map f l)) as [bs'|]; [|discriminate].
    injection H as <-. constructor; [assumption | now apply IH].
Qed.

Lemma bip39_sizes_of_bytes len :
  In len [16; 20; 24; 28; 32] ->
  In ((len * 8 + len * 8 / 32) / 11) [12; 15; 18; 21; 24] /\
  (len * 8 + len * 8 / 32) / 11 = len / 4 * 3 /\
  (len * 8 + len * 8 / 32) / 11 * 11 / 33 = len * 8 / 32 /\
  ((len * 8 + len * 8 / 32) / 11 * 11 - len * 8 / 32) / 8 = len /\
  0 <= len * 8 / 32 <= 256 /\
  2048 ^ ((len * 8 + len * 8 / 32) / 11) = 256 ^ len * 2 ^ (len * 8 / 32).
Proof.
  cbn. intros [<-|[<-|[<-|[<-|[<-|[]]]]]]; vm_compute; intuition congruence.
Qed.

Lemma bip39_sizes_of_words n :
  In n [12; 15; 18; 21; 24] ->
  In ((n * 11 - n * 11 / 33) / 8) [16; 20; 24; 28; 32] /\
  (n * 11 - n * 11 / 33) / 8 * 8 / 32 = n * 11 / 33 /\
  ((n * 11 - n * 11 / 33) / 8 * 8 + n * 11 / 33) / 11 = n /\
  0 <= n * 11 / 33 <= 256 /\
  2048 ^ n = 256 ^ ((n * 11 - n * 11 / 33) / 8) * 2 ^ (n * 11 / 33).
Proof.
  cbn. intros [<-|[<-|[<-|[<-|[<-|[]]]]]]; vm_compute; intuition congruence.
Qed.

Section Bip39Laws.

Variable wordlist : list string.
Variable digest : list byte -> Z.
Variable normalize_string : string -> string.

Hypothesis wordlist_length : length wordlist = 2048%nat.
Hypothesis wordlist_NoDup : NoDup wordlist.
Hypothesis wordlist_space_free :
  Forall (fun w => space_free w = true) wordlist.
Hypothesis digest_range : forall data, 0 <= digest data < 2 ^ 256.
Hypothesis wordlist_normal :
  Forall (fun w => normalize_string w = w) wordlist.

Local Abbreviation word_at :=
  (fun idx => nth (Z.to_nat idx) wordlist EmptyString).

Lemma checksum_range data bits :
  0 <= bits <= 256 -> 0 <= checksum digest data bits < 2 ^ bits.
Proof.
  intro Hb. unfold checksum. pose proof (digest_range data) as Hd.
  assert (Hpow : 2 ^ 256 = 2 ^ (256 - bits) * 2 ^ bits)
    by (rewrite <- Z.pow_add_r by lia; f_equal; lia).
  assert (0 < 2 ^ (256 - bits)) by (apply Z.pow_pos_nonneg; lia).
  split; [apply Z.div_pos; lia|].
  apply Z.div_lt_upper_bound; lia.
Qed.

Lemma words_of_digits ds :
  Forall (digit 2048) ds ->
  Forall (fun w => space_free w = true) (map word_at ds) /\
  all_some (map (fun word => word_index wordlist (normalize_string word))
                (map word_at ds)) = Some ds.
Proof.
  intro Hds. split.
  - apply Forall_forall. intros w Hw. apply in_map_iff in Hw.
    destruct Hw as [d [<- Hd]].
    rewrite Forall_forall in Hds, wordlist_space_free.
    apply wordlist_space_free, nth_In.
    specialize (Hds d Hd). unfold digit in Hds. lia.
  - rewrite map_map, (all_some_map _ (fun d => d)), map_id; [reflexivity|].
    intros d Hd. rewrite Forall_forall in Hds. specialize (Hds d Hd).
    unfold digit in Hds.
    rewrite Forall_forall in wordlist_normal.
    rewrite wordlist_normal by (apply nth_In; lia).
    rewrite word_index_nth by (assumption || lia). f_equal. lia.
Qed.

Lemma bip39_to_entropy_to_mnemonic data phrase :
  bip39_to_mnemonic wordlist digest data = Some phrase ->
  bip39_to_entropy wordlist digest normalize_string phrase = Some data.
Proof.
  unfold bip39_to_mnemonic.
  destruct (in_list (Z.of_nat (length data)) [16; 20; 24; 28; 32]) eqn:Hlen;
    cbn [negb]; [|discriminate].
  intro H. injection H as <-. apply in_list_In in Hlen.
  set (len := Z.of_nat (length data)) in *.
  destruct (bip39_sizes_of_bytes len Hlen)
    as [Hn [_ [Hcs [Hbits [Hcs_range Hpow]]]]].
  set (cs := len * 8 / 32) in *.
  set (n := (len * 8 + cs) / 11) in *.
  pose proof (int_from_bytes_bound data) as Hv. fold len in Hv.
  pose proof (checksum_range data cs Hcs_range) as Hc.
  set (v := int_from_bytes data) in *.
  set (c := checksum digest data cs) in *.
  assert (H2cs : 0 < 2 ^ cs) by (apply Z.pow_pos_nonneg; lia).
  assert (Hn_pos : 0 < n) by (cbn in Hn; lia).
  assert (Hb : 0 <= v * 2 ^ cs + c < 2048 ^ Z.of_nat (Z.to_nat n))
    by (rewrite Z2Nat.id, Hpow by lia; nia).
  destruct (words_of_digits (digits_be 2048 (Z.to_nat n) (v * 2 ^ cs + c)))
    as [Hfree Hidx]; [apply digits_be_digit; lia|].
  unfold bip39_to_entropy.
  rewrite split_join_space; [|intro E; apply (f_equal (@length _)) in E;
                              rewrite length_map, digits_be_length in E;
                              cbn in E; lia | assumption].
  rewrite length_map, digits_be_length, Z2Nat.id by lia.
  apply in_list_In in Hn. rewrite Hn. cbn [negb].
  rewrite Hidx, of_digits_be_digits by (assumption || lia).
  rewrite Hcs, Hbits.
  assert (Hdiv : (v * 2 ^ cs + c) / 2 ^ cs = v)
    by (rewrite Z.div_add_l, Z.div_small by lia; lia).
  assert (Hmod : (v * 2 ^ cs + c) mod 2 ^ cs = c)
    by (rewrite Z.add_comm, Z.mod_add, Z.mod_small by lia; reflexivity).
  rewrite Hdiv, Hmod. unfold len, v. rewrite Nat2Z.id.
  rewrite bytes_of_int_from_bytes. fold len cs c.
  now rewrite Z.eqb_refl.
Qed.

Lemma bip39_to_entropy_words phrase data :
  bip39_to_entropy wordlist digest normalize_string phrase = Some data ->
  In (Z.of_nat (length data)) [16; 20; 24; 28; 32] /\
  word_count phrase = Z.of_nat (length data) / 4 * 3.
Proof.
  unfold bip39_to_entropy, word_count.
  set (ws := split_space phrase).
  set (n := Z.of_nat (length ws)).
  destruct (in_list n [12; 15; 18; 21; 24]) eqn:Hn; cbn [negb];
    [|discriminate].
  apply in_list_In in Hn.
  destruct (all_some _) as [indices|]; [|discriminate].
  destruct (Z.eqb _ _); [|discriminate].
  intro H. injection H as <-.
  rewrite length_map, digits_be_length.
  cbn in Hn.
  destruct Hn as [E|[E|[E|[E|[E|[]]]]]]; rewrite <- E;
    split; vm_compute; tauto.
Qed.

Lemma bip39_to_mnemonic_defined data :
  (exists phrase, bip39_to_mnemonic wordlist digest data = Some phrase) <->
  In (Z.of_nat (length data)) [16; 20; 24; 28; 32].
Proof.
  unfold bip39_to_mnemonic. rewrite <- in_list_In.
  destruct (in_list (Z.of_nat (length data)) [16; 20; 24; 28; 32]);
    cbn [negb]; split; try reflexivity; try discriminate.
  - eexists. reflexivity.
  - intros [phrase H]. discriminate.
Qed.

Lemma bip39_to_mnemonic_words data phrase :
  bip39_to_mnemonic wordlist digest data = Some phrase ->
  word_count phrase = Z.of_nat (length data) / 4 * 3.
Proof.
  intro H. pose proof (bip39_to_entropy_to_mnemonic data phrase H) as Hback.
  assert (Hlen : In (Z.of_nat (length data)) [16; 20; 24; 28; 32])
    by (apply bip39_to_mnemonic_defined; eauto).
  destruct (bip39_sizes_of_bytes _ Hlen) as [Hn [Hwc _]].
  unfold bip39_to_mnemonic in H. apply in_list_In in Hlen.
  rewrite Hlen in H. cbn [negb] in H. injection H as <-.
  unfold word_count.
  rewrite split_join_space.
  - rewrite length_map, digits_be_length, Z2Nat.id; [exact Hwc|].
    cbn in Hn. lia.
  - intro E. apply (f_equal (@length _)) in E.
    rewrite length_map, digits_be_length in E. cbn in Hn, E. lia.
  - apply words_of_digits, digits_be_digit. lia.
Qed.

Theorem bip39_laws : MnemonicLaws (bip39 wordlist digest normalize_string).
Proof.
  constructor; cbn [to_mnemonic to_entropy bip39].
  - apply bip39_to_mnemonic_defined.
  - apply bip39_to_mnemonic_words.
  - apply bip39_to_entropy_to_mnemonic.
  - apply bip39_to_entropy_words.
Qed.

End Bip39Laws.

(** The letters codec is an instance. *)

Lemma nodup_strings_NoDup l : nodup_strings l = true -> NoDup l.
Proof.
  induction l as [|w rest IH]; [constructor|].
  cbn. intro H. apply andb_true_iff in H. destruct H as [Hw Hr].
  constructor; [|now apply IH].
  intro Hin. apply negb_true_iff in Hw.
  assert (E : existsb (String.eqb w) rest = true)
    by (apply existsb_exists; exists w; split;
        [assumption | apply String.eqb_refl]).
  congruence.
Qed.

Lemma letters_codec_laws : MnemonicLaws letters_codec.
Proof.
  apply bip39_laws.
  - vm_compute. reflexivity.
  - apply nodup_strings_NoDup. vm_compute. reflexivity.
  - apply Forall_forall. apply (proj1 (forallb_forall _ _)).
    vm_compute. reflexivity.
  - intro data. unfold sum_digest.
    pose proof (Z.mod_pos_bound (sum (map Z_of_byte data)) 256 ltac:(lia)).
    assert (E : 2 ^ 256 = 256 * 2 ^ 248) by reflexivity.
    rewrite E. nia.
  - apply Forall_forall. intros w Hw. apply String.eqb_eq.
    revert w Hw. apply (proj1 (forallb_forall _ _)).
    vm_compute. reflexivity.
Qed.

Lemma example_valid : valid_configuration example_seed 2 3 128.
Proof.
  unfold valid_configuration.
  split; [lia|]. split; [vm_compute; tauto|]. split; [vm_compute; tauto|].
  vm_compute. discriminate.
Qed.

Lemma generation_never_overflows_witness :
  P128 < 2 ^ 128 /\
  (forall poly x,
      exists y phrase,
        _eval_at poly x P128 = Ok y /\ 0 <= y < P128 /\
        int_to_bytes y (128 / 8) <> Err OverflowError /\
        @int_to_seed letters_codec y 128 = Ok phrase) /\
  (forall draws,
      length draws = Z.to_nat (2 - 1) ->
      Forall (fun c => 0 <= c <= P128 - 1) draws ->
      exists shares,
        yields (@make_random_shares letters_codec example_seed 2 3 128)
               draws (Ok shares) /\
        map fst shares = range 1 (3 + 1)) /\
  (forall draws r,
      yields (@make_random_shares letters_codec example_seed 2 3 128)
             draws r ->
      exists shares, r = Ok shares).
Proof.
  apply (generation_never_overflows letters_codec example_seed 2 3 128
           P128 example_secret).
  - exact letters_codec_laws.
  - exact example_valid.
  - vm_compute. reflexivity.
  - reflexivity.
Defined.

(** ** Round trip (C1) *)

Lemma len_set_constant l w :
  l <> [] -> (forall a, In a l -> a = w) -> len_set l = 1%nat.
Proof.
  intros Hne Hall. unfold len_set.
  assert (H : forall l, l <> [] -> (forall a, In a l -> a = w) ->
                        nodup Z.eq_dec l = [w]).
  { clear. induction l as [|a l IH]; intros Hne Hall; [contradiction|].
    assert (a = w) by (apply Hall; left; reflexivity). subst a.
    cbn [nodup]. destruct (in_dec Z.eq_dec w l) as [Hin|Hnin].
    - apply IH; [intro; subst; contradiction|].
      intros; apply Hall; right; assumption.
    - destruct l as [|b l]; [reflexivity|].
      exfalso. apply Hnin. left. apply Hall. right. left. reflexivity. }
  rewrite H by assumption. reflexivity.
Qed.

Lemma NoDup_map_fst {A B} (sub all : list (A * B)) :
  NoDup (map fst all) -> NoDup sub -> incl sub all -> NoDup (map fst sub).
Proof.
  intros Hall Hsub Hincl.
  assert (Hinj : forall a b, In a all -> In b all -> fst a = fst b -> a = b).
  { clear sub Hsub Hincl. induction all as [|c all IH]; [contradiction|].
    cbn [map] in Hall. inversion Hall as [|? ? Hnin Hall']; subst.
    intros a b [->|Ha] [->|Hb] E; try reflexivity.
    - exfalso. apply Hnin. rewrite E. now apply in_map.
    - exfalso. apply Hnin. rewrite <- E. now apply in_map.
    - now apply IH. }
  induction Hsub as [|a sub Hnin Hsub IH]; [constructor|].
  cbn [map]. constructor.
  - intro Hin. apply in_map_iff in Hin. destruct Hin as [b [E Hb]].
    apply Hnin.
    rewrite <- (Hinj b a); [assumption | | | assumption].
    + apply Hincl. right. assumption.
    + apply Hincl. left. reflexivity.
  - apply IH. intros b Hb. apply Hincl. right. assumption.
Qed.

Lemma hd_In {A} (d : A) l : l <> [] -> In (hd d l) l.
Proof. destruct l; [contradiction | left; reflexivity]. Qed.

Lemma range_NoDup a b : NoDup (range a b).
Proof.
  unfold range. apply Finite.Injective_map_NoDup; [|apply seq_NoDup].
  intros i j H. lia.
Qed.

Section Recovery.

Context {mnemo : Mnemonic}.
Hypothesis laws : MnemonicLaws mnemo.

Variables (seed : string) (minimum n_shares share_strength : Z).
Variables (prime secret : Z) (poly : list Z).

Hypothesis valid : valid_configuration seed minimum n_shares share_strength.
Hypothesis minimum_two : 2 <= minimum.
Hypothesis n_shares_ten : n_shares <= 10.
Hypothesis prime_of_table : dict_get PRIMES share_strength = Ok prime.
Hypothesis secret_of_seed : seed_to_int seed 256 = Ok secret.
Hypothesis seed_canonical : canonical seed.
Hypothesis secret_below_prime : secret < prime.
Hypothesis poly_secret : nth 0 poly 0 = secret.
Hypothesis poly_length : Z.of_nat (length poly) = minimum.

Variable shares : list share.
Hypothesis shares_indices : map fst shares = range 1 (n_shares + 1).
Hypothesis shares_values : Forall (share_of poly prime share_strength) shares.

Variable subgroup : list share.
Hypothesis subgroup_NoDup : NoDup subgroup.
Hypothesis subgroup_incl : incl subgroup shares.
Hypothesis subgroup_length : Z.of_nat (length subgroup) = minimum.

Local Abbreviation seed_strength := (word_count seed / 3 * 32).

Lemma subgroup_share sh :
  In sh subgroup ->
  1 <= fst sh <= n_shares /\ share_of poly prime share_strength sh.
Proof.
  intro Hin. apply subgroup_incl in Hin. split.
  - assert (H : In (fst sh) (map fst shares)) by now apply in_map.
    rewrite shares_indices in H. apply range_In in H. lia.
  - rewrite Forall_forall in shares_values. now apply shares_values.
Qed.

Lemma subgroup_word_count sh :
  In sh subgroup -> word_count (snd sh) = share_strength / 8 / 4 * 3.
Proof.
  intro Hin. destruct (subgroup_share sh Hin) as [_ [bs [Hph [_ Hlen]]]].
  rewrite (to_mnemonic_words mnemo laws bs (snd sh) Hph), Hlen.
  reflexivity.
Qed.

Lemma subgroup_decodes strength :
  In strength STRENGTH_ALLOWED ->
  rmap (fun '(i, ph) => y <- seed_to_int ph strength ;; Ok (i, y)) subgroup
  = Ok (map (fun sh => (fst sh, peval poly (fst sh) mod prime)) subgroup).
Proof.
  intro Hs. apply rmap_ok. intros [i ph] Hin.
  destruct (subgroup_share _ Hin) as [_ [bs [Hph [Hv _]]]].
  cbn [fst snd] in *. unfold seed_to_int.
  apply in_list_In in Hs. rewrite Hs. cbn [negb].
  rewrite (to_entropy_to_mnemonic mnemo laws bs ph Hph). cbn.
  now rewrite Hv.
Qed.

Lemma subgroup_interpolates :
  _lagrange_interpolate 0 (map fst subgroup)
    (map (fun sh => peval poly (fst sh) mod prime) subgroup) prime
  = Ok secret.
Proof.
  pose proof valid as [_ [_ [Hs _]]].
  destruct (primes_table share_strength prime Hs prime_of_table)
    as [Hp [_ [_ [_ Hgcd]]]].
  rewrite (lagrange_interpolate_correct prime ltac:(lia)) with (poly := poly).
  - rewrite peval_0, poly_secret. f_equal. apply Z.mod_small.
    split; [|assumption].
    unfold seed_to_int in secret_of_seed. cbn in secret_of_seed.
    destruct (to_entropy seed) as [ent|]; [|discriminate].
    cbn in secret_of_seed. injection secret_of_seed as <-.
    apply int_from_bytes_bound.
  - apply (NoDup_map_fst subgroup shares); try assumption.
    rewrite shares_indices. apply range_NoDup.
  - intros a b Ha Hb Hab.
    apply in_map_iff in Ha, Hb.
    destruct Ha as [sa [<- Ha]], Hb as [sb [<- Hb]].
    destruct (subgroup_share sa Ha) as [Hra _].
    destruct (subgroup_share sb Hb) as [Hrb _].
    unfold unit_mod, Z.coprime.
    destruct (Z_lt_le_dec (fst sb) (fst sa)).
    + apply Hgcd. lia.
    + rewrite <- Z.gcd_opp_l. apply Hgcd. lia.
  - now rewrite !length_map.
  - rewrite length_map. lia.
  - intros i Hi. rewrite length_map in Hi.
    rewrite (nth_indep _ 0 (peval poly (fst (0, EmptyString)) mod prime))
      by (rewrite length_map; assumption).
    rewrite (nth_indep (map fst subgroup) 0 (fst (0, EmptyString)))
      by (rewrite length_map; assumption).
    rewrite (map_nth (fun sh => peval poly (fst sh) mod prime)), (map_nth fst).
    apply Zmod_eqm.
Qed.

Lemma seed_reencodes : int_to_seed secret seed_strength = Ok seed.
Proof.
  pose proof valid as [_ [Hl _]].
  destruct (length_strength _ Hl) as [Hss Hbytes].
  unfold seed_to_int in secret_of_seed. cbn in secret_of_seed.
  destruct seed_canonical as [ent [Hent Hback]].
  rewrite Hent in secret_of_seed.
  cbn in secret_of_seed. injection secret_of_seed as <-.
  destruct (to_entropy_words mnemo laws seed ent Hent) as [Hlen Hwc].
  unfold int_to_seed. apply in_list_In in Hss. rewrite Hss. cbn [negb].
  rewrite (Hbytes _ Hlen Hwc), int_to_bytes_from_bytes. cbn [rbind].
  rewrite Hback. reflexivity.
Qed.

Lemma recover_subgroup prime_arg :
  prime_arg = None \/ prime_arg = Some prime ->
  recover_seed subgroup seed_strength prime_arg = Ok seed.
Proof.
  intro Hparg.
  pose proof valid as [_ [Hl [Hs _]]].
  destruct (length_strength _ Hl) as [Hss _].
  destruct (primes_table share_strength prime Hs prime_of_table)
    as [Hp [_ [_ [Hback _]]]].
  unfold recover_seed.
  destruct (Nat.ltb_spec (length subgroup) 2); [lia|].
  assert (Hne : subgroup <> []) by (intros ->; cbn in *; lia).
  rewrite (len_set_constant _ (share_strength / 8 / 4 * 3)).
  2:{ intro E. apply Hne. now apply map_eq_nil in E. }
  2:{ intros a Ha. apply in_map_iff in Ha. destruct Ha as [[i ph] [<- Hin]].
      apply (subgroup_word_count _ Hin). }
  cbn [Nat.eqb negb].
  pose proof Hss as Hss'. apply in_list_In in Hss'. rewrite Hss'. cbn [negb].
  assert (Hdefault :
    dict_get PRIMES
      (word_count (snd (hd (0, EmptyString) subgroup)) / 3 * 32) = Ok prime).
  { rewrite subgroup_word_count by (apply hd_In; assumption).
    rewrite Hback. assumption. }
  assert (Hprime :
    match prime_arg with
    | Some p =>
        if p =? 0
        then dict_get PRIMES
               (word_count (snd (hd (0, EmptyString) subgroup)) / 3 * 32)
        else Ok p
    | None =>
        dict_get PRIMES
          (word_count (snd (hd (0, EmptyString) subgroup)) / 3 * 32)
    end = Ok prime).
  { destruct Hparg as [->| ->]; [assumption|].
    destruct (Z.eqb_spec prime 0); [lia | reflexivity]. }
  rewrite Hprime. cbn [rbind].
  rewrite (subgroup_decodes _ Hss). cbn [rbind].
  match goal with
  | |- context [_lagrange_interpolate 0 ?xs ?ys prime] =>
      replace xs with (map fst subgroup)
        by (rewrite map_map; reflexivity);
      replace ys with (map (fun sh : share => peval poly (fst sh) mod prime)
                           subgroup)
        by (rewrite map_map; reflexivity)
  end.
  rewrite subgroup_interpolates. cbn [rbind].
  rewrite seed_reencodes. reflexivity.
Qed.

End Recovery.

(** C1, as the code has it: on a valid configuration with
    [2 <= minimum <= n_shares <= 10] and a seed phrase that is the one
    [to_mnemonic] returns for its entropy and decodes to an integer below
    the prime of [share_strength], every list of [minimum - 1] draws is an
    execution that returns shares, and from the shares of any execution
    [recover_seed], given any [minimum] distinct shares in any order, the
    strength of the seed and the prime (or no prime), returns the seed
    phrase. *)
Theorem round_trip (mnemo : Mnemonic)
    seed minimum n_shares share_strength prime secret :
  MnemonicLaws mnemo ->
  valid_configuration seed minimum n_shares share_strength ->
  2 <= minimum -> n_shares <= 10 ->
  dict_get PRIMES share_strength = Ok prime ->
  seed_to_int seed 256 = Ok secret ->
  canonical seed ->
  secret < prime ->
  (forall draws,
      length draws = Z.to_nat (minimum - 1) ->
      Forall (fun c => 0 <= c <= prime - 1) draws ->
      exists shares,
        yields (make_random_shares seed minimum n_shares share_strength)
               draws (Ok shares)) /\
  (forall draws shares,
      yields (make_random_shares seed minimum n_shares share_strength)
             draws (Ok shares) ->
      forall subgroup prime_arg,
        NoDup subgroup -> incl subgroup shares ->
        Z.of_nat (length subgroup) = minimum ->
        prime_arg = None \/ prime_arg = Some prime ->
        recover_seed subgroup (word_count seed / 3 * 32) prime_arg
        = Ok seed).
Proof.
  intros laws Hvalid Hmin Hten Hprime Hsecret Hcanonical Hbelow.
  pose proof Hvalid as [_ [_ [Hs _]]].
  split.
  - intros draws Hlen Hdraws.
    destruct (shares_of_poly_ok laws (secret :: draws) n_shares prime
                share_strength Hs Hprime) as [shares [Hshares _]].
    exists shares.
    apply (yields_make_random_shares _ _ _ _ prime secret); auto.
  - intros draws shares Hy subgroup prime_arg Hnd Hincl Hlen Hparg.
    apply (yields_make_random_shares _ _ _ _ prime secret) in Hy; auto.
    destruct Hy as [Hdraws [_ Hshares]].
    destruct (shares_of_poly_ok laws (secret :: draws) n_shares prime
                share_strength Hs Hprime) as [shares' [Hshares' [Hfst Hall]]].
    assert (shares' = shares) by congruence. subst shares'.
    apply (recover_subgroup laws seed minimum n_shares share_strength
             prime secret (secret :: draws)) with (shares := shares);
      try assumption.
    + reflexivity.
    + cbn [length]. lia.
Qed.

Lemma round_trip_witness :
  (forall draws,
      length draws = Z.to_nat (2 - 1) ->
      Forall (fun c => 0 <= c <= P128 - 1) draws ->
      exists shares,
        yields (@make_random_shares letters_codec example_seed 2 3 128)
               draws (Ok shares)) /\
  (forall draws shares,
      yields (@make_random_shares letters_codec example_seed 2 3 128)
             draws (Ok shares) ->
      forall subgroup prime_arg,
        NoDup subgroup -> incl subgroup shares ->
        Z.of_nat (length subgroup) = 2 ->
        prime_arg = None \/ prime_arg = Some P128 ->
        @recover_seed letters_codec subgroup
          (word_count example_seed / 3 * 32) prime_arg
        = Ok example_seed).
Proof.
  apply (round_trip letters_codec example_seed 2 3 128 P128 example_secret).
  - exact letters_codec_laws.
  - exact example_valid.
  - lia.
  - lia.
  - reflexivity.
  - vm_compute. reflexivity.
  - eexists. split; vm_compute; reflexivity.
  - vm_compute. reflexivity.
Defined.

(** C1 as it is written fails, in three ways.  With [minimum = 1] the
    configuration is valid, yet [recover_seed] refuses a single share.
    The integer of [ones_seed], [2 ^ 128 - 1], is not below the prime
    [2 ^ 128 - 159]: the shares hold it modulo the prime and the recovered
    phrase is another one.  And [wide_seed] decodes, to an integer below
    the prime, but is not the phrase [to_mnemonic] writes for it: what is
    recovered is that phrase, [example_seed]. *)
Lemma round_trip_fails :
  (valid_configuration example_seed 1 1 128 /\
   yields (@make_random_shares letters_codec example_seed 1 1 128) []
          (Ok [(1, example_seed)]) /\
   @recover_seed letters_codec [(1, example_seed)] 128 None
   = Err (ValueError NeedTwoShares)) /\
  (valid_configuration ones_seed 2 2 128 /\
   @seed_to_int letters_codec ones_seed 256 = Ok (2 ^ 128 - 1) /\
   yields (@make_random_shares letters_codec ones_seed 2 2 128) [5]
          (Ok [(1, "aaa aaa aaa aaa aaa aaa aaa aaa aaa aaa aab avy"%string);
               (2, "aaa aaa aaa aaa aaa aaa aaa aaa aaa aaa aab aza"%string)]) /\
   @recover_seed letters_codec
      [(1, "aaa aaa aaa aaa aaa aaa aaa aaa aaa aaa aab avy"%string);
       (2, "aaa aaa aaa aaa aaa aaa aaa aaa aaa aaa aab aza"%string)]
      128 None
   = Ok "aaa aaa aaa aaa aaa aaa aaa aaa aaa aaa aab asv"%string /\
   "aaa aaa aaa aaa aaa aaa aaa aaa aaa aaa aab asv"%string <> ones_seed) /\
  (valid_configuration wide_seed 2 3 128 /\
   @seed_to_int letters_codec wide_seed 256 = Ok example_secret /\
   example_secret < P128 /\
   exists shares,
     yields (@make_random_shares letters_codec wide_seed 2 3 128) [5]
            (Ok shares) /\
     @recover_seed letters_codec (firstn 2 shares) 128 None
     = Ok example_seed /\
     example_seed <> wide_seed).
Proof.
  assert (Hvalid : forall seed m n,
            word_count seed = 12 -> m <= n ->
            valid_configuration seed m n 128).
  { intros seed m n Hwc Hmn. unfold valid_configuration. rewrite Hwc.
    split; [assumption|]. split; [cbn; tauto|]. split; [cbn; tauto|].
    vm_compute. discriminate. }
  split; [split; [|split] |
          split; [split; [|split; [|split; [|split]]] |
                  split; [|split; [|split]]]].
  - apply Hvalid; [reflexivity | lia].
  - vm_compute. reflexivity.
  - reflexivity.
  - apply Hvalid; [reflexivity | lia].
  - vm_compute. reflexivity.
  - vm_compute. reflexivity.
  - vm_compute. reflexivity.
  - discriminate.
  - apply Hvalid; [reflexivity | lia].
  - vm_compute. reflexivity.
  - reflexivity.
  - eexists. split; [vm_compute; reflexivity|].
    split; [vm_compute; reflexivity | discriminate].
Qed.

(** ** The subgroups that are tested (C3) *)

Lemma selections_Permutation {A} (l : list A) a rest :
  In (a, rest) (selections l) -> Permutation l (a :: rest).
Proof.
  revert a rest. induction l as [|b l IH]; intros a rest H; [contradiction|].
  cbn [selections] in H. destruct H as [H|H].
  - injection H as <- <-. reflexivity.
  - apply in_map_iff in H. destruct H as [[c r] [E Hin]].
    injection E as <- <-.
    rewrite (IH c r Hin). apply perm_swap.
Qed.

Lemma selections_In {A} (l : list A) a :
  In a l -> exists rest, In (a, rest) (selections l).
Proof.
  induction l as [|b l IH]; [contradiction|].
  intros [->|H].
  - exists l. left. reflexivity.
  - destruct (IH H) as [rest Hr]. exists (b :: rest). right.
    apply in_map_iff. exists (a, rest). auto.
Qed.

Lemma selections_length {A} (l : list A) :
  length (selections l) = length l.
Proof.
  induction l as [|b l IH]; [reflexivity|].
  cbn [selections length]. now rewrite length_map, IH.
Qed.

Lemma flat_map_constant_length {A B} (f : A -> list B) c l :
  (forall a, In a l -> length (f a) = c) ->
  length (flat_map f l) = (length l * c)%nat.
Proof.
  induction l as [|a l IH]; intro H; [reflexivity|].
  cbn [flat_map length]. rewrite length_app, (H a), IH.
  - lia.
  - intros; apply H; right; assumption.
  - left; reflexivity.
Qed.

Lemma arrangements_length {A} r (l : list A) :
  length (arrangements r l) = falling (length l) r.
Proof.
  revert l. induction r as [|r IH]; intro l; [reflexivity|].
  cbn [arrangements falling].
  rewrite (flat_map_constant_length _ (falling (pred (length l)) r)).
  - now rewrite selections_length.
  - intros [a rest] Hin. rewrite length_map, IH.
    apply selections_Permutation, Permutation_length in Hin.
    cbn [length] in Hin. rewrite Hin. reflexivity.
Qed.

Lemma range_snoc a b : a <= b -> range a (b + 1) = range a b ++ [b].
Proof.
  intro H. unfold range.
  replace (Z.to_nat (b + 1 - a)) with (S (Z.to_nat (b - a))) by lia.
  rewrite seq_S, map_app. cbn [map]. f_equal. f_equal. lia.
Qed.

Lemma PI_snoc l x : PI (l ++ [x]) = PI l * x.
Proof.
  induction l as [|a l IH]; [cbn [app]; rewrite PI_cons, PI_nil; ring|].
  cbn [app]. rewrite !PI_cons, IH. ring.
Qed.

Lemma PI_range_falling r :
  forall n, (r <= n)%nat ->
  PI (range (Z.of_nat n - Z.of_nat r + 1) (Z.of_nat n + 1))
  = Z.of_nat (falling n r).
Proof.
  induction r as [|r IH]; intros n Hr.
  - unfold range. replace (Z.to_nat _) with 0%nat by lia. reflexivity.
  - destruct n as [|n]; [lia|].
    rewrite range_snoc by lia. rewrite PI_snoc.
    cbn [falling pred].
    replace (Z.of_nat (S n) - Z.of_nat (S r) + 1)
      with (Z.of_nat n - Z.of_nat r + 1) by lia.
    replace (Z.of_nat (S n)) with (Z.of_nat n + 1) at 1 by lia.
    rewrite IH by lia. lia.
Qed.

Lemma falling_zero n r : (n < r)%nat -> falling n r = 0%nat.
Proof.
  revert n. induction r as [|r IH]; intros n H; [lia|].
  cbn [falling]. destruct n as [|n]; [reflexivity|].
  cbn [pred]. rewrite IH by lia. lia.
Qed.

(** [len_permutations] counts the arrangements. *)
Lemma len_permutations_count {A} (l : list A) r :
  0 <= r ->
  len_permutations l (Some r)
  = Z.of_nat (length (arrangements (Z.to_nat r) l)).
Proof.
  intro Hr. rewrite arrangements_length. unfold len_permutations.
  destruct (Z.gtb_spec r (Z.of_nat (length l))) as [Hgt|Hle].
  - rewrite falling_zero by lia. reflexivity.
  - change (PI (range (Z.of_nat (length l) - r + 1)
                      (Z.of_nat (length l) + 1))
            = Z.of_nat (falling (length l) (Z.to_nat r))).
    rewrite <- (Z2Nat.id r) at 1 by assumption.
    apply PI_range_falling. lia.
Qed.

(** The arrangements are the samples. *)
Lemma arrangements_sample {A} (l : list A) r s :
  NoDup l -> In s (arrangements r l) <-> is_sample l r s.
Proof.
  unfold is_sample. revert l s. induction r as [|r IH]; intros l s Hl.
  - cbn [arrangements]. split.
    + intros [<-|[]]. split; [constructor|]. split; [intros ? []|reflexivity].
    + intros [_ [_ Hlen]]. destruct s; [left; reflexivity | discriminate].
  - cbn [arrangements]. rewrite in_flat_map. split.
    + intros [[a rest] [Hsel Hin]]. apply in_map_iff in Hin.
      destruct Hin as [s' [<- Hs']].
      pose proof (selections_Permutation _ _ _ Hsel) as Hperm.
      assert (Hnd : NoDup (a :: rest)) by (eapply Permutation_NoDup; eassumption).
      inversion Hnd as [|? ? Hnin Hrest]; subst.
      apply (IH rest s' Hrest) in Hs'. destruct Hs' as [Hs1 [Hs2 Hs3]].
      split; [constructor; [intro H; apply Hnin, Hs2, H | assumption]|].
      split; [|cbn; now rewrite Hs3].
      intros x [<-|Hx].
      * eapply Permutation_in; [symmetry; eassumption | left; reflexivity].
      * eapply Permutation_in; [symmetry; eassumption | right; apply Hs2, Hx].
    + intros [Hnd [Hincl Hlen]].
      destruct s as [|a s']; [discriminate|].
      inversion Hnd as [|? ? Hnin Hnd']; subst.
      destruct (selections_In l a) as [rest Hsel];
        [apply Hincl; left; reflexivity|].
      exists (a, rest). split; [assumption|].
      apply in_map. 
      pose proof (selections_Permutation _ _ _ Hsel) as Hperm.
      assert (Hndr : NoDup (a :: rest)) by (eapply Permutation_NoDup; eassumption).
      inversion Hndr; subst.
      apply IH; [assumption|]. split; [assumption|]. split.
      * intros x Hx.
        assert (Hxl : In x (a :: rest))
          by (eapply Permutation_in; [eassumption | apply Hincl; right; assumption]).
        destruct Hxl as [<-|Hxl]; [contradiction | assumption].
      * cbn in Hlen. lia.
Qed.

Section GeneratorFacts.

Context {A : Type} (eq_dec : forall x y : A, {x = y} + {x <> y}).

Lemma permutations_generator_spec seen samples p seen' later :
  permutations_generator eq_dec seen samples = Some (p, seen', later) ->
  ~ In p seen /\ seen' = p :: seen /\
  exists skipped, samples = skipped ++ p :: later /\ incl skipped seen.
Proof.
  induction samples as [|q samples IH]; [discriminate|].
  cbn [permutations_generator].
  destruct (in_dec (list_eq_dec eq_dec) q seen) as [Hin|Hnin].
  - intro H. destruct (IH H) as [H1 [H2 [skipped [H3 H4]]]].
    split; [assumption|]. split; [assumption|].
    exists (q :: skipped). split; [now rewrite H3|].
    intros x [<-|Hx]; [assumption | now apply H4].
  - intro H. injection H as <- <- <-.
    split; [assumption|]. split; [reflexivity|].
    exists []. split; [reflexivity | intros ? []].
Qed.

Lemma permutations_generator_fresh seen samples q :
  In q samples -> ~ In q seen ->
  exists p later,
    permutations_generator eq_dec seen samples = Some (p, p :: seen, later).
Proof.
  induction samples as [|s samples IH]; [contradiction|].
  intros Hq Hfresh. cbn [permutations_generator].
  destruct (in_dec (list_eq_dec eq_dec) s seen) as [Hin|Hnin].
  - destruct Hq as [->|Hq]; [contradiction|]. now apply IH.
  - eauto.
Qed.

Lemma next_permutations_spec count :
  forall seen samples chosen,
    next_permutations eq_dec count seen samples = Some chosen ->
    length chosen = count /\ NoDup chosen /\
    forall p, In p chosen -> ~ In p seen /\ In p samples.
Proof.
  induction count as [|count IH]; intros seen samples chosen H.
  - injection H as <-. split; [reflexivity|]. split; [constructor|].
    intros p [].
  - cbn [next_permutations] in H.
    destruct (permutations_generator eq_dec seen samples)
      as [[[p seen'] later]|] eqn:Hgen; [|discriminate].
    destruct (next_permutations eq_dec count seen' later) as [rest|] eqn:Hrest;
      [|discriminate].
    injection H as <-.
    apply permutations_generator_spec in Hgen.
    destruct Hgen as [Hfresh [-> [skipped [-> Hskipped]]]].
    destruct (IH _ _ _ Hrest) as [Hlen [Hnd Hin]].
    split; [cbn; now rewrite Hlen|]. split.
    + constructor; [|assumption].
      intro Hp. apply Hin in Hp. destruct Hp as [Hp _].
      apply Hp. left. reflexivity.
    + intros q [<-|Hq].
      * split; [assumption|]. apply in_app_iff. right. left. reflexivity.
      * destruct (Hin q Hq) as [Hq1 Hq2]. split.
        -- intro Hs. apply Hq1. right. assumption.
        -- apply in_app_iff. right. right. assumption.
Qed.

Lemma remove_NoDup_length (x : list A) l :
  NoDup l ->
  NoDup (remove (list_eq_dec eq_dec) x l) /\
  (length l <= S (length (remove (list_eq_dec eq_dec) x l)))%nat.
Proof.
  induction 1 as [|a l Hnin Hnd [IH1 IH2]]; [split; [constructor | cbn; lia]|].
  cbn [remove]. destruct (list_eq_dec eq_dec x a) as [<-|Hne].
  - rewrite notin_remove by assumption. split; [assumption | cbn; lia].
  - split; [|cbn; lia].
    constructor; [|assumption].
    intro Hin. apply in_remove in Hin. apply Hnin, Hin.
Qed.

(** With enough fresh samples the generator delivers. *)
Lemma next_permutations_enough count :
  forall seen samples fresh,
    NoDup fresh -> (count <= length fresh)%nat -> incl fresh samples ->
    (forall p, In p fresh -> ~ In p seen) ->
    exists chosen, next_permutations eq_dec count seen samples = Some chosen.
Proof.
  induction count as [|count IH]; intros seen samples fresh Hnd Hlen Hincl Hfresh.
  - exists []. reflexivity.
  - destruct fresh as [|q fresh']; [cbn in Hlen; lia|].
    destruct (permutations_generator_fresh seen samples q)
      as [p [later Hgen]].
    { apply Hincl. left. reflexivity. }
    { apply Hfresh. left. reflexivity. }
    cbn [next_permutations]. rewrite Hgen.
    apply permutations_generator_spec in Hgen.
    destruct Hgen as [Hp [_ [skipped [-> Hskipped]]]].
    destruct (remove_NoDup_length p (q :: fresh') Hnd) as [Hnd' Hlen'].
    destruct (IH (p :: seen) later
                 (remove (list_eq_dec eq_dec) p (q :: fresh')))
      as [rest Hrest].
    + assumption.
    + lia.
    + intros s Hs. apply in_remove in Hs. destruct Hs as [Hs Hne].
      pose proof (Hincl s Hs) as Hsam. apply in_app_iff in Hsam.
      destruct Hsam as [Hsk|[E|Hl]].
      * exfalso. apply (Hfresh s Hs). now apply Hskipped.
      * congruence.
      * assumption.
    + intros s Hs. apply in_remove in Hs. destruct Hs as [Hs Hne].
      intros [E|Hseen]; [congruence|]. now apply (Hfresh s).
    + rewrite Hrest. eauto.
Qed.

End GeneratorFacts.

(** C3, as the code has it: the threshold is on the number of
    arrangements (ordered choices) of [minimum] shares, which
    [len_permutations] counts.  At most 100: every arrangement, that is
    every subset in every order, is tested, whatever the samples.  More
    than 100: the tested ones are read off the samples alone, are 100,
    pairwise distinct as arrangements, and are delivered as soon as the
    samples hold 100 distinct ones. *)
Theorem tested_subgroups {A} (eq_dec : forall x y : A, {x = y} + {x <> y})
    (shares : list A) (minimum : Z) :
  NoDup shares -> 0 <= minimum ->
  len_permutations shares (Some minimum)
  = Z.of_nat (length (arrangements (Z.to_nat minimum) shares)) /\
  (len_permutations shares (Some minimum) <= 100 ->
   forall samples,
     permutations_to_test eq_dec shares minimum samples
     = Some (Ok (arrangements (Z.to_nat minimum) shares)) /\
     forall s, is_sample shares (Z.to_nat minimum) s ->
               In s (arrangements (Z.to_nat minimum) shares)) /\
  (len_permutations shares (Some minimum) > 100 ->
   forall samples,
     permutations_to_test eq_dec shares minimum samples
     = match next_permutations eq_dec 100 [] samples with
       | Some chosen => Some (Ok chosen)
       | None => None
       end /\
     (forall tested,
         permutations_to_test eq_dec shares minimum samples
         = Some (Ok tested) ->
         length tested = 100%nat /\ NoDup tested /\ incl tested samples) /\
     (forall fresh,
         NoDup fresh -> (100 <= length fresh)%nat -> incl fresh samples ->
         exists tested,
           permutations_to_test eq_dec shares minimum samples
           = Some (Ok tested))).
Proof.
  intros Hnd Hmin. split; [now apply len_permutations_count|]. split.
  - intros Hle samples. unfold permutations_to_test, permutations.
    destruct (Z.gtb_spec (len_permutations shares (Some minimum)) 100); [lia|].
    destruct (Z.ltb_spec minimum 0); [lia|].
    split; [reflexivity|]. intros s Hs. now apply arrangements_sample.
  - intros Hgt samples. unfold permutations_to_test.
    destruct (Z.gtb_spec (len_permutations shares (Some minimum)) 100); [|lia].
    split; [reflexivity|]. split.
    + intros tested Ht.
      destruct (next_permutations eq_dec 100 [] samples) as [chosen|] eqn:E;
        [|discriminate].
      injection Ht as <-.
      destruct (next_permutations_spec eq_dec _ _ _ _ E) as [Hlen [Hnd' Hin]].
      split; [assumption|]. split; [assumption|].
      intros p Hp. now apply Hin.
    + intros fresh Hf Hlen Hincl.
      destruct (next_permutations_enough eq_dec 100 [] samples fresh)
        as [chosen ->]; auto.
      eauto.
Qed.

Lemma six_shares_generated :
  yields (@make_random_shares letters_codec example_seed 3 6 128) [5; 7]
         (Ok six_shares).
Proof. vm_compute. reflexivity. Qed.

Lemma six_shares_NoDup : NoDup six_shares.
Proof.
  apply (NoDup_map_inv fst). vm_compute.
  repeat constructor; cbn; intuition discriminate.
Qed.

Lemma tested_subgroups_witness :
  len_permutations six_shares (Some 2)
  = Z.of_nat (length (arrangements (Z.to_nat 2) six_shares)) /\
  (len_permutations six_shares (Some 2) <= 100 ->
   forall samples,
     permutations_to_test share_eq_dec six_shares 2 samples
     = Some (Ok (arrangements (Z.to_nat 2) six_shares)) /\
     forall s, is_sample six_shares (Z.to_nat 2) s ->
               In s (arrangements (Z.to_nat 2) six_shares)) /\
  (len_permutations six_shares (Some 2) > 100 ->
   forall samples,
     permutations_to_test share_eq_dec six_shares 2 samples
     = match next_permutations share_eq_dec 100 [] samples with
       | Some chosen => Some (Ok chosen)
       | None => None
       end /\
     (forall tested,
         permutations_to_test share_eq_dec six_shares 2 samples
         = Some (Ok tested) ->
         length tested = 100%nat /\ NoDup tested /\ incl tested samples) /\
     (forall fresh,
         NoDup fresh -> (100 <= length fresh)%nat -> incl fresh samples ->
         exists tested,
           permutations_to_test share_eq_dec six_shares 2 samples
           = Some (Ok tested))).
Proof.
  apply (tested_subgroups share_eq_dec six_shares 2).
  - exact six_shares_NoDup.
  - lia.
Defined.

Lemma within_incl sub s : incl s sub -> within sub s = true.
Proof.
  intro H. unfold within. apply forallb_forall. intros a Ha.
  destruct (in_dec share_eq_dec a sub) as [_|Hn]; [reflexivity|].
  exfalso. apply Hn, H, Ha.
Qed.

Lemma in_dec_In {A} (dec : forall x y : A, {x = y} + {x <> y}) x l :
  (if in_dec dec x l then true else false) = true -> In x l.
Proof. destruct (in_dec dec x l); [trivial | discriminate]. Qed.

(** C3 as it is written fails: six shares have 20 subsets of three, not
    more than 100, but 120 arrangements; the samples are drawn, the 100
    tested arrangements contain no ordering of [untested_subset], and
    two orderings of one subset are both tested. *)
Lemma tested_subgroups_miss :
  length (subsets 3 six_shares) = 20%nat /\
  In untested_subset (subsets 3 six_shares) /\
  len_permutations six_shares (Some 3) = 120 /\
  Forall (is_sample six_shares 3) biased_samples /\
  exists tested,
    permutations_to_test share_eq_dec six_shares 3 biased_samples
    = Some (Ok tested) /\
    (forall s, In s tested -> ~ incl s untested_subset) /\
    exists s1 s2,
      In s1 tested /\ In s2 tested /\ s1 <> s2 /\ Permutation s1 s2.
Proof.
  split; [reflexivity|].
  split; [apply (in_dec_In (list_eq_dec share_eq_dec)); vm_compute;
          reflexivity|].
  split; [reflexivity|].
  split.
  { apply Forall_forall. intros s Hs. apply filter_In in Hs.
    apply arrangements_sample; [exact six_shares_NoDup | apply Hs]. }
  exists (firstn 100 biased_samples).
  split; [vm_compute; reflexivity|]. split.
  - intros s Hs Hincl.
    assert (Hin : In s biased_samples).
    { rewrite <- (firstn_skipn 100 biased_samples).
      apply in_or_app. left. exact Hs. }
    apply filter_In in Hin. destruct Hin as [_ Hw].
    rewrite (within_incl _ _ Hincl) in Hw. discriminate.
  - exists (firstn 3 six_shares),
           (match firstn 3 six_shares with
            | [a; b; c] => [a; c; b]
            | l => l
            end).
    split; [apply (in_dec_In (list_eq_dec share_eq_dec)); vm_compute;
            reflexivity|].
    split; [apply (in_dec_In (list_eq_dec share_eq_dec)); vm_compute;
            reflexivity|].
    split; [vm_compute; discriminate|].
    cbn. constructor. apply perm_swap.
Qed.

(** * Further properties of [utils.py] *)

(** ** The extended Euclidean algorithm on any integers *)

Lemma egcd_loop_opp :
  forall b a x last_x y last_y,
    egcd_loop (- a) (- b) x last_x y last_y = egcd_loop a b x last_x y last_y.
Proof.
  intro b. induction (abs_lt_wf b) as [b _ IH].
  intros a x last_x y last_y.
  rewrite (egcd_loop_step (- a)), (egcd_loop_step a).
  destruct (Z.eq_dec b 0) as [->|Hb].
  - reflexivity.
  - destruct (Z.eq_dec (- b) 0) as [E|_]; [lia|].
    rewrite Z.div_opp_opp, Z.mod_opp_opp by assumption.
    apply IH. apply abs_lt_mod. assumption.
Qed.

(** X1: [_extended_gcd a b] returns Bezout coefficients of [a] and [b]: the
    combination is the gcd when [b > 0], its opposite when [b < 0], and
    [a] itself, with coefficients [(1, 0)], when [b = 0]. *)
Theorem extended_gcd_combination a b :
  Z.abs (fst (_extended_gcd a b) * a + snd (_extended_gcd a b) * b)
  = Z.gcd a b /\
  (0 < b ->
   fst (_extended_gcd a b) * a + snd (_extended_gcd a b) * b = Z.gcd a b) /\
  (b < 0 ->
   fst (_extended_gcd a b) * a + snd (_extended_gcd a b) * b = - Z.gcd a b) /\
  (b = 0 -> _extended_gcd a b = (1, 0)).
Proof.
  assert (Hneg : b < 0 ->
    fst (_extended_gcd a b) * a + snd (_extended_gcd a b) * b = - Z.gcd a b).
  { intro Hb.
    assert (E : _extended_gcd a b = _extended_gcd (- a) (- b))
      by (unfold _extended_gcd; symmetry; apply egcd_loop_opp).
    pose proof (extended_gcd_bezout (- a) (- b) ltac:(lia)) as H.
    rewrite Z.gcd_opp_l, Z.gcd_opp_r, <- E in H. lia. }
  assert (Hzero : b = 0 -> _extended_gcd a b = (1, 0)).
  { intros ->. unfold _extended_gcd. rewrite egcd_loop_step. reflexivity. }
  split; [|split; [apply extended_gcd_bezout | split; assumption]].
  pose proof (Z.gcd_nonneg a b) as Hg.
  destruct (Z.lt_trichotomy b 0) as [Hb|[Hb|Hb]].
  - rewrite (Hneg Hb). lia.
  - rewrite (Hzero Hb). subst b. cbn [fst snd].
    rewrite Z.gcd_0_r. f_equal. lia.
  - rewrite (extended_gcd_bezout a b Hb). lia.
Qed.

Lemma extended_gcd_combination_witness :
  fst (_extended_gcd 240 (-46)) * 240 + snd (_extended_gcd 240 (-46)) * (-46)
  = - Z.gcd 240 (-46).
Proof.
  apply (proj1 (proj2 (proj2 (extended_gcd_combination 240 (-46))))). lia.
Defined.

(** ** Division by a multiple of the modulus *)

Lemma extended_gcd_multiple den p :
  p <> 0 -> den mod p = 0 -> _extended_gcd den p = (0, 1).
Proof.
  intros Hp H. unfold _extended_gcd.
  rewrite egcd_loop_step. destruct (Z.eq_dec p 0); [contradiction|].
  rewrite H, egcd_loop_step. reflexivity.
Qed.

(** X2: [_divmod] does not detect a denominator that is zero modulo [p]: it
    returns [0], whatever the numerator. *)
Theorem divmod_by_multiple num den p :
  p <> 0 -> den mod p = 0 -> _divmod num den p = 0.
Proof.
  intros Hp H. rewrite divmod_product, extended_gcd_multiple by assumption.
  cbn [fst]. ring.
Qed.

Lemma divmod_by_multiple_witness : _divmod 7 10 5 = 0.
Proof. apply divmod_by_multiple; [lia | reflexivity]. Defined.

Lemma PI_multiple p l d :
  In d l -> d mod p = 0 -> p <> 0 -> PI l mod p = 0.
Proof.
  intros Hin Hd Hp. induction l as [|a l IH]; [contradiction|].
  rewrite PI_cons. destruct Hin as [->|Hin].
  - rewrite Z.mul_mod, Hd by assumption. now rewrite Z.mul_0_l, Z.mod_0_l.
  - rewrite Z.mul_mod, IH by assumption.
    now rewrite Z.mul_0_r, Z.mod_0_l.
Qed.

(** X3: Two x-values that differ by a multiple of [p] pass the assertion of
    [_lagrange_interpolate], and the result is then [0], whatever the
    y-values and the point [x]. *)
Theorem lagrange_congruent_gives_zero p x x_s y_s a b :
  0 < p -> NoDup x_s -> length y_s = length x_s ->
  In a x_s -> In b x_s -> a <> b -> a mod p = b mod p ->
  _lagrange_interpolate x x_s y_s p = Ok 0.
Proof.
  intros Hp Hnd Hlen Ha Hb Hab Hcong.
  rewrite lagrange_interpolate_value by assumption.
  assert (Hden : den_all x_s mod p = 0).
  { destruct (In_nth x_s a 0 Ha) as [i [Hi Hia]].
    unfold den_all. apply (PI_multiple p _ (den_at x_s i)); [| |lia].
    - apply in_map, in_seq. lia.
    - unfold den_at, num_at. apply (PI_multiple p _ (a - b)); [| |lia].
      + apply in_map_iff. exists b. rewrite Hia. split; [reflexivity|].
        destruct (In_nth x_s b 0 Hb) as [j [Hj Hjb]].
        rewrite <- Hjb. apply pop_other; [|assumption].
        intros ->. congruence.
      + rewrite Zminus_mod, Hcong, Z.sub_diag. apply Z.mod_0_l. lia. }
  rewrite extended_gcd_multiple by (assumption || lia).
  cbn [fst]. rewrite Z.mul_0_r, Z.add_0_l, Z.mod_same by lia. reflexivity.
Qed.

Lemma lagrange_congruent_gives_zero_witness :
  _lagrange_interpolate 0 [1; 6; 2] [4; 4; 0] 5 = Ok 0.
Proof.
  apply (lagrange_congruent_gives_zero 5 0 [1; 6; 2] [4; 4; 0] 1 6).
  - lia.
  - repeat constructor; cbn; intuition lia.
  - reflexivity.
  - simpl. tauto.
  - simpl. tauto.
  - lia.
  - reflexivity.
Defined.

(** ** [_eval_at] is the polynomial *)

Lemma polynomial_shift poly x n :
  sum (map (fun '(i, coeff) => coeff * x ^ Z.of_nat i)
           (combine (seq n (length poly)) poly))
  = x ^ Z.of_nat n * peval poly x.
Proof.
  revert n. induction poly as [|c t IH]; intro n.
  - cbn. ring.
  - cbn [length seq combine map]. rewrite sum_cons, IH, peval_cons.
    rewrite Nat2Z.inj_succ, Z.pow_succ_r by lia. ring.
Qed.

Lemma peval_polynomial poly x : peval poly x = polynomial poly x.
Proof.
  unfold polynomial. rewrite polynomial_shift. cbn [Z.of_nat].
  rewrite Z.pow_0_r. ring.
Qed.

(** X4: [_eval_at poly x prime] is the value at [x] of the polynomial with
    coefficients [poly], constant term first, reduced modulo [prime].
    With [prime = 0] it raises [ZeroDivisionError], unless [poly] is empty:
    then the loop does not run and the result is [0]. *)
Theorem eval_at_polynomial poly x prime :
  (prime <> 0 -> _eval_at poly x prime = Ok (polynomial poly x mod prime)) /\
  (poly <> [] -> _eval_at poly x 0 = Err ZeroDivisionError) /\
  _eval_at [] x prime = Ok 0.
Proof.
  split; [|split].
  - intro Hp. rewrite <- peval_polynomial. now apply eval_at_peval.
  - intro Hne. unfold _eval_at.
    destruct (rev poly) as [|c t] eqn:E.
    + apply (f_equal (@rev Z)) in E. rewrite rev_involutive in E.
      contradiction.
    + reflexivity.
  - reflexivity.
Qed.

Lemma eval_at_polynomial_witness :
  _eval_at [42; 931; 521] 2 2089
  = Ok (polynomial [42; 931; 521] 2 mod 2089) /\
  _eval_at [42] 2 0 = Err ZeroDivisionError.
Proof.
  split.
  - apply (proj1 (eval_at_polynomial [42; 931; 521] 2 2089)). lia.
  - apply (proj1 (proj2 (eval_at_polynomial [42] 2 0))). discriminate.
Defined.

(** ** Integers and phrases *)

Lemma bytes_strength len :
  In len [16; 20; 24; 28; 32] ->
  In (len / 4 * 3) LENGTH_ALLOWED /\
  In (len / 4 * 3 / 3 * 32) STRENGTH_ALLOWED /\
  len / 4 * 3 / 3 * 32 / 8 = len /\
  2 ^ (len / 4 * 3 / 3 * 32) = 256 ^ len.
Proof.
  cbn. intros [<-|[<-|[<-|[<-|[<-|[]]]]]]; vm_compute; intuition congruence.
Qed.

Lemma strength_words strength :
  In strength STRENGTH_ALLOWED ->
  strength / 8 / 4 * 3 = strength / 32 * 3 /\
  In (strength / 32 * 3) LENGTH_ALLOWED /\
  strength / 32 * 3 / 3 * 32 = strength.
Proof.
  cbn. intros [<-|[<-|[<-|[<-|[<-|[]]]]]]; vm_compute; intuition congruence.
Qed.

(** X5: What [int_to_seed] does with each input: a strength outside the
    table is a [ValueError]; a number that is negative or needs more than
    [strength] bits is an [OverflowError]; any other number gives a phrase
    of [strength / 32 * 3] words that [seed_to_int] decodes to it. *)
Theorem int_to_seed_outcome (mnemo : Mnemonic) number strength :
  MnemonicLaws mnemo ->
  (~ In strength STRENGTH_ALLOWED ->
   int_to_seed number strength = Err (ValueError StrengthNotAllowed)) /\
  (In strength STRENGTH_ALLOWED ->
   number < 0 \/ 2 ^ strength <= number ->
   int_to_seed number strength = Err OverflowError) /\
  (In strength STRENGTH_ALLOWED ->
   0 <= number < 2 ^ strength ->
   exists phrase,
     int_to_seed number strength = Ok phrase /\
     word_count phrase = strength / 32 * 3 /\
     forall strength', In strength' STRENGTH_ALLOWED ->
                       seed_to_int phrase strength' = Ok number).
Proof.
  intro laws. split; [|split].
  - intro Hs. unfold int_to_seed. apply in_list_not_In in Hs.
    now rewrite Hs.
  - intros Hs Hn. unfold int_to_seed.
    destruct (strength_has_prime strength Hs) as [prime Hp].
    destruct (primes_table strength prime Hs Hp) as [_ [Hpow _]].
    apply in_list_In in Hs. rewrite Hs. cbn [negb].
    unfold int_to_bytes. rewrite <- Hpow.
    destruct (Z.ltb_spec number 0) as [_|H0]; [reflexivity|].
    destruct (Z.leb_spec (2 ^ strength) number); [reflexivity | lia].
  - intros Hs Hn.
    destruct (int_to_seed_fits laws number strength Hs Hn)
      as [bs [phrase [_ [Hlen [Hv [Hph Hseed]]]]]].
    exists phrase. split; [assumption|]. split.
    + rewrite (to_mnemonic_words mnemo laws bs phrase Hph), Hlen.
      apply strength_words. assumption.
    + intros strength' Hs'. unfold seed_to_int.
      apply in_list_In in Hs'. rewrite Hs'. cbn [negb].
      rewrite (to_entropy_to_mnemonic mnemo laws bs phrase Hph).
      cbn. now rewrite Hv.
Qed.

Lemma int_to_seed_outcome_witness :
  exists phrase,
    @int_to_seed letters_codec example_secret 128 = Ok phrase /\
    word_count phrase = 128 / 32 * 3 /\
    forall strength', In strength' STRENGTH_ALLOWED ->
                      @seed_to_int letters_codec phrase strength'
                      = Ok example_secret.
Proof.
  apply (proj2 (proj2 (int_to_seed_outcome letters_codec example_secret 128
                         letters_codec_laws))).
  - simpl. tauto.
  - vm_compute. split; [discriminate | reflexivity].
Defined.

(** What a phrase that decodes is rewritten to. *)
Lemma seed_rewritten {mnemo : Mnemonic} (laws : MnemonicLaws mnemo)
    seed strength number :
  seed_to_int seed strength = Ok number ->
  In (word_count seed) LENGTH_ALLOWED /\
  In (word_count seed / 3 * 32) STRENGTH_ALLOWED /\
  0 <= number < 2 ^ (word_count seed / 3 * 32) /\
  exists phrase,
    int_to_seed number (word_count seed / 3 * 32) = Ok phrase /\
    canonical phrase /\
    word_count phrase = word_count seed /\
    (forall strength', In strength' STRENGTH_ALLOWED ->
                       seed_to_int phrase strength' = Ok number) /\
    (phrase = seed <-> canonical seed).
Proof.
  intro H. unfold seed_to_int in H.
  destruct (in_list strength STRENGTH_ALLOWED); cbn [negb] in H;
    [|discriminate].
  destruct (to_entropy seed) as [ent|] eqn:Hent; [|discriminate].
  cbn in H. injection H as <-.
  destruct (to_entropy_words mnemo laws seed ent Hent) as [Hlen Hwords].
  rewrite Hwords.
  destruct (bytes_strength _ Hlen) as [Hwc [Hs [Hbytes Hpow]]].
  split; [assumption|]. split; [assumption|]. split.
  { rewrite Hpow. apply int_from_bytes_bound. }
  destruct (proj2 (to_mnemonic_defined mnemo laws ent) Hlen)
    as [phrase Hphrase].
  pose proof (to_entropy_to_mnemonic mnemo laws ent phrase Hphrase) as Hback.
  exists phrase. split; [|split; [|split; [|split]]].
  - unfold int_to_seed. pose proof Hs as Hs'. apply in_list_In in Hs'.
    rewrite Hs'. cbn [negb].
    rewrite Hbytes, int_to_bytes_from_bytes. cbn [rbind].
    now rewrite Hphrase.
  - exists ent. auto.
  - apply (to_mnemonic_words mnemo laws ent phrase Hphrase).
  - intros strength' Hin. unfold seed_to_int.
    apply in_list_In in Hin. rewrite Hin. cbn [negb].
    rewrite Hback. reflexivity.
  - split.
    + intros <-. exists ent. auto.
    + intros [data [Hdata Hseed]]. congruence.
Qed.

(** X6: What [seed_to_int] returns is below [2 ^ strength] for the strength
    [word_count seed / 3 * 32] of the phrase, which is in the table, and
    [int_to_seed] at that strength writes it as a phrase of as many words
    that decodes to the same integer: the phrase [to_mnemonic] returns,
    which is the phrase decoded only if that one was canonical. *)
Theorem seed_to_int_inverse (mnemo : Mnemonic) seed strength number :
  MnemonicLaws mnemo ->
  seed_to_int seed strength = Ok number ->
  In (word_count seed) LENGTH_ALLOWED /\
  In (word_count seed / 3 * 32) STRENGTH_ALLOWED /\
  0 <= number < 2 ^ (word_count seed / 3 * 32) /\
  exists phrase,
    int_to_seed number (word_count seed / 3 * 32) = Ok phrase /\
    canonical phrase /\
    word_count phrase = word_count seed /\
    (forall strength', In strength' STRENGTH_ALLOWED ->
                       seed_to_int phrase strength' = Ok number) /\
    (phrase = seed <-> canonical seed).
Proof.
  intros laws H. exact (seed_rewritten laws seed strength number H).
Qed.

Lemma seed_to_int_inverse_witness :
  In (word_count wide_seed) LENGTH_ALLOWED /\
  In (word_count wide_seed / 3 * 32) STRENGTH_ALLOWED /\
  0 <= example_secret < 2 ^ (word_count wide_seed / 3 * 32) /\
  exists phrase,
    @int_to_seed letters_codec example_secret
       (word_count wide_seed / 3 * 32) = Ok phrase /\
    @canonical letters_codec phrase /\
    word_count phrase = word_count wide_seed /\
    (forall strength', In strength' STRENGTH_ALLOWED ->
                       @seed_to_int letters_codec phrase strength'
                       = Ok example_secret) /\
    (phrase = wide_seed <-> @canonical letters_codec wide_seed).
Proof.
  apply (seed_to_int_inverse letters_codec wide_seed 256 example_secret).
  - exact letters_codec_laws.
  - vm_compute. reflexivity.
Defined.

(** ** What [make_random_shares] returns *)

Lemma yields_make_random_shares_undecodable {mnemo : Mnemonic}
    seed minimum n_shares share_strength prime e draws r :
  valid_configuration seed minimum n_shares share_strength ->
  dict_get PRIMES share_strength = Ok prime ->
  seed_to_int seed 256 = Err e ->
  yields (make_random_shares seed minimum n_shares share_strength) draws r ->
  draws = [] /\ r = Err e.
Proof.
  intros [Hm [Hl [Hs Hlow]]] Hprime Hsecret. unfold make_random_shares.
  destruct (Z.gtb_spec minimum n_shares); [lia|].
  apply in_list_In in Hl, Hs. rewrite Hl, Hs. cbn [negb].
  destruct (Z.ltb_spec share_strength (word_count seed / 3 * 32)); [lia|].
  rewrite yields_lift_bind, Hprime, yields_lift_bind, Hsecret. tauto.
Qed.

(** What an execution that returns shares went through. *)
Lemma make_random_shares_inv {mnemo : Mnemonic}
    seed minimum n_shares share_strength draws shares :
  MnemonicLaws mnemo ->
  yields (make_random_shares seed minimum n_shares share_strength)
         draws (Ok shares) ->
  valid_configuration seed minimum n_shares share_strength /\
  exists prime secret,
    dict_get PRIMES share_strength = Ok prime /\
    seed_to_int seed 256 = Ok secret /\
    length draws = Z.to_nat (minimum - 1) /\
    shares_of_poly (secret :: draws) n_shares prime share_strength
    = Ok shares /\
    map fst shares = range 1 (n_shares + 1) /\
    Forall (share_of (secret :: draws) prime share_strength) shares.
Proof.
  intros laws Hy.
  destruct (make_random_shares_cases seed minimum n_shares share_strength)
    as [Hvalid|[e E]].
  2:{ rewrite E in Hy. apply run_Raise in Hy. destruct Hy. discriminate. }
  pose proof Hvalid as [_ [_ [Hs _]]].
  destruct (strength_has_prime _ Hs) as [prime Hprime].
  destruct (seed_to_int seed 256) as [secret|e] eqn:Hsecret.
  2:{ apply (yields_make_random_shares_undecodable _ _ _ _ prime e) in Hy;
        try assumption.
      destruct Hy. discriminate. }
  apply (yields_make_random_shares _ _ _ _ prime secret) in Hy;
    try assumption.
  destruct Hy as [Hlen [_ Hshares]].
  destruct (shares_of_poly_ok laws (secret :: draws) n_shares prime
              share_strength Hs Hprime) as [shares' [Hshares' [Hfst Hall]]].
  assert (shares' = shares) by congruence. subst shares'.
  split; [assumption|]. exists prime, secret. auto 10.
Qed.

(** X7: When [make_random_shares] returns shares, the configuration was
    valid and the seed decoded; [minimum - 1] coefficients were drawn; the
    shares are numbered [1] to [n_shares] in this order; and every share
    is a phrase of [share_strength / 32 * 3] words that decodes to the
    value of the polynomial at its number. *)
Theorem make_random_shares_output (mnemo : Mnemonic)
    seed minimum n_shares share_strength draws shares :
  MnemonicLaws mnemo ->
  yields (make_random_shares seed minimum n_shares share_strength)
         draws (Ok shares) ->
  valid_configuration seed minimum n_shares share_strength /\
  length draws = Z.to_nat (minimum - 1) /\
  map fst shares = range 1 (n_shares + 1) /\
  exists prime secret,
    dict_get PRIMES share_strength = Ok prime /\
    seed_to_int seed 256 = Ok secret /\
    Forall (fun sh =>
              word_count (snd sh) = share_strength / 32 * 3 /\
              seed_to_int (snd sh) 256
              = _eval_at (secret :: draws) (fst sh) prime)
           shares.
Proof.
  intros laws Hy.
  destruct (make_random_shares_cases seed minimum n_shares share_strength)
    as [Hvalid|[e E]].
  2:{ rewrite E in Hy. apply run_Raise in Hy. destruct Hy. discriminate. }
  pose proof Hvalid as [_ [_ [Hs _]]].
  destruct (strength_has_prime _ Hs) as [prime Hprime].
  destruct (primes_table _ _ Hs Hprime) as [Hp _].
  destruct (seed_to_int seed 256) as [secret|e] eqn:Hsecret.
  2:{ apply (yields_make_random_shares_undecodable _ _ _ _ prime e) in Hy;
        try assumption.
      destruct Hy. discriminate. }
  apply (yields_make_random_shares _ _ _ _ prime secret) in Hy;
    try assumption.
  destruct Hy as [Hlen [_ Hshares]].
  destruct (shares_of_poly_ok laws (secret :: draws) n_shares prime
              share_strength Hs Hprime) as [shares' [Hshares' [Hfst Hall]]].
  assert (shares' = shares) by congruence. subst shares'.
  split; [assumption|]. split; [assumption|]. split; [assumption|].
  exists prime, secret. split; [assumption|]. split; [reflexivity|].
  apply Forall_forall. intros sh Hin.
  rewrite Forall_forall in Hall. destruct (Hall sh Hin) as [bs [Hph [Hv Hl]]].
  split.
  - rewrite (to_mnemonic_words mnemo laws bs _ Hph), Hl.
    apply strength_words. assumption.
  - rewrite eval_at_peval by lia. unfold seed_to_int. cbn [in_list].
    rewrite (to_entropy_to_mnemonic mnemo laws bs _ Hph).
    cbn. now rewrite Hv.
Qed.

Lemma make_random_shares_output_witness :
  valid_configuration example_seed 3 6 128 /\
  length [5; 7] = Z.to_nat (3 - 1) /\
  map fst six_shares = range 1 (6 + 1) /\
  exists prime secret,
    dict_get PRIMES 128 = Ok prime /\
    @seed_to_int letters_codec example_seed 256 = Ok secret /\
    Forall (fun sh =>
              word_count (snd sh) = 128 / 32 * 3 /\
              @seed_to_int letters_codec (snd sh) 256
              = _eval_at (secret :: [5; 7]) (fst sh) prime)
           six_shares.
Proof.
  apply (make_random_shares_output letters_codec example_seed 3 6 128
           [5; 7] six_shares).
  - exact letters_codec_laws.
  - vm_compute. reflexivity.
Defined.

(** ** Recovery from more shares than needed *)

(** What [recover_seed] makes of [minimum] shares of a polynomial: the
    phrase of its constant term reduced modulo the prime. *)
Lemma recover_subgroup_value {mnemo : Mnemonic} (laws : MnemonicLaws mnemo)
    seed minimum n_shares share_strength prime poly
    (shares subgroup : list share) prime_arg :
  valid_configuration seed minimum n_shares share_strength ->
  2 <= minimum -> n_shares <= 10 ->
  dict_get PRIMES share_strength = Ok prime ->
  Z.of_nat (length poly) = minimum ->
  map fst shares = range 1 (n_shares + 1) ->
  Forall (share_of poly prime share_strength) shares ->
  NoDup subgroup -> incl subgroup shares ->
  Z.of_nat (length subgroup) = minimum ->
  prime_arg = None \/ prime_arg = Some prime ->
  recover_seed subgroup (word_count seed / 3 * 32) prime_arg
  = match int_to_seed (nth 0 poly 0 mod prime) (word_count seed / 3 * 32)
    with
    | Err OverflowError => Err (ValueError FailedToRecover)
    | other => other
    end.
Proof.
  intros Hvalid Hmin Hten Hprime Hpoly Hfst Hall Hnd Hincl Hlen Hparg.
  pose proof Hvalid as [_ [Hl [Hs _]]].
  destruct (length_strength _ Hl) as [Hss _].
  destruct (primes_table share_strength prime Hs Hprime)
    as [Hp [_ [_ [Hback Hgcd]]]].
  unfold recover_seed.
  destruct (Nat.ltb_spec (length subgroup) 2); [lia|].
  assert (Hne : subgroup <> []) by (intros ->; cbn in *; lia).
  rewrite (len_set_constant _ (share_strength / 8 / 4 * 3)).
  2:{ intro E. apply Hne. now apply map_eq_nil in E. }
  2:{ intros a Ha. apply in_map_iff in Ha. destruct Ha as [[i ph] [<- Hin]].
      apply (subgroup_word_count laws n_shares share_strength prime poly
               shares Hfst Hall subgroup Hincl _ Hin). }
  cbn [Nat.eqb negb].
  pose proof Hss as Hss'. apply in_list_In in Hss'. rewrite Hss'. cbn [negb].
  assert (Hdefault :
    dict_get PRIMES
      (word_count (snd (hd (0, EmptyString) subgroup)) / 3 * 32) = Ok prime).
  { rewrite (subgroup_word_count laws n_shares share_strength prime poly
               shares Hfst Hall subgroup Hincl)
      by (apply hd_In; assumption).
    rewrite Hback. assumption. }
  assert (Hchosen :
    match prime_arg with
    | Some p =>
        if p =? 0
        then dict_get PRIMES
               (word_count (snd (hd (0, EmptyString) subgroup)) / 3 * 32)
        else Ok p
    | None =>
        dict_get PRIMES
          (word_count (snd (hd (0, EmptyString) subgroup)) / 3 * 32)
    end = Ok prime).
  { destruct Hparg as [->| ->]; [assumption|].
    destruct (Z.eqb_spec prime 0); [lia | reflexivity]. }
  rewrite Hchosen. cbn [rbind].
  rewrite (subgroup_decodes laws n_shares share_strength prime poly shares
             Hfst Hall subgroup Hincl _ Hss).
  cbn [rbind].
  match goal with
  | |- context [_lagrange_interpolate 0 ?xs ?ys prime] =>
      replace xs with (map fst subgroup)
        by (rewrite map_map; reflexivity);
      replace ys with (map (fun sh : share => peval poly (fst sh) mod prime)
                           subgroup)
        by (rewrite map_map; reflexivity)
  end.
  rewrite (lagrange_interpolate_correct prime ltac:(lia)) with (poly := poly).
  - cbn [rbind]. rewrite peval_0. reflexivity.
  - apply (NoDup_map_fst subgroup shares); try assumption.
    rewrite Hfst. apply range_NoDup.
  - intros a b Ha Hb Hab.
    apply in_map_iff in Ha, Hb.
    destruct Ha as [sa [<- Ha]], Hb as [sb [<- Hb]].
    destruct (subgroup_share n_shares share_strength prime poly shares
                Hfst Hall subgroup Hincl sa Ha) as [Hra _].
    destruct (subgroup_share n_shares share_strength prime poly shares
                Hfst Hall subgroup Hincl sb Hb) as [Hrb _].
    unfold unit_mod, Z.coprime.
    destruct (Z_lt_le_dec (fst sb) (fst sa)).
    + apply Hgcd. lia.
    + rewrite <- Z.gcd_opp_l. apply Hgcd. lia.
  - now rewrite !length_map.
  - rewrite length_map. lia.
  - intros i Hi. rewrite length_map in Hi.
    rewrite (nth_indep _ 0 (peval poly (fst (0, EmptyString)) mod prime))
      by (rewrite length_map; assumption).
    rewrite (nth_indep (map fst subgroup) 0 (fst (0, EmptyString)))
      by (rewrite length_map; assumption).
    rewrite (map_nth (fun sh => peval poly (fst sh) mod prime)), (map_nth fst).
    apply Zmod_eqm.
Qed.

Lemma peval_app_zeros poly n x : peval (poly ++ repeat 0 n) x = peval poly x.
Proof.
  induction poly as [|c t IH].
  - cbn [app]. induction n as [|n IHn]; [reflexivity|].
    cbn [repeat]. rewrite peval_cons, IHn. cbn. ring.
  - cbn [app]. now rewrite !peval_cons, IH.
Qed.

(** X8: On the conditions of the round trip, [recover_seed] returns a
    phrase from any distinct shares of one generation, in any order, as
    soon as they are at least [minimum]: the canonical phrase of the
    integer of the seed, which is the seed exactly when the seed is
    canonical. *)
Theorem recover_from_enough_shares (mnemo : Mnemonic)
    seed minimum n_shares share_strength prime secret
    draws shares (subgroup : list share) prime_arg :
  MnemonicLaws mnemo ->
  valid_configuration seed minimum n_shares share_strength ->
  2 <= minimum -> n_shares <= 10 ->
  dict_get PRIMES share_strength = Ok prime ->
  seed_to_int seed 256 = Ok secret ->
  secret < prime ->
  yields (make_random_shares seed minimum n_shares share_strength)
         draws (Ok shares) ->
  NoDup subgroup -> incl subgroup shares ->
  minimum <= Z.of_nat (length subgroup) ->
  prime_arg = None \/ prime_arg = Some prime ->
  exists phrase,
    recover_seed subgroup (word_count seed / 3 * 32) prime_arg = Ok phrase /\
    canonical phrase /\
    seed_to_int phrase 256 = Ok secret /\
    (phrase = seed <-> canonical seed).
Proof.
  intros laws Hvalid Hmin Hten Hprime Hsecret Hbelow Hy Hnd Hincl Hlen Hparg.
  pose proof Hvalid as [Hmn [Hl [Hs Hlow]]].
  apply (yields_make_random_shares _ _ _ _ prime secret) in Hy; auto.
  destruct Hy as [Hdraws [_ Hshares]].
  destruct (shares_of_poly_ok laws (secret :: draws) n_shares prime
              share_strength Hs Hprime) as [shares' [Hshares' [Hfst Hall]]].
  assert (shares' = shares) by congruence. subst shares'.
  assert (Hcount : (length subgroup <= length shares)%nat)
    by (apply NoDup_incl_length; assumption).
  assert (Hn : length shares = Z.to_nat n_shares).
  { rewrite <- (length_map fst shares), Hfst, range_length. f_equal. lia. }
  destruct (seed_rewritten laws seed 256 secret Hsecret)
    as [_ [_ [Hbound [phrase [Hphrase [Hcan [_ [Hdec Hiff]]]]]]]].
  exists phrase. split; [|split; [assumption|split; [|assumption]]].
  - rewrite (recover_subgroup_value laws seed (Z.of_nat (length subgroup))
               n_shares share_strength prime
               ((secret :: draws)
                  ++ repeat 0 (length subgroup - length (secret :: draws)))
               shares subgroup prime_arg); try assumption.
    + cbn [app nth]. rewrite Z.mod_small by lia. rewrite Hphrase.
      reflexivity.
    + unfold valid_configuration. repeat split; try assumption. lia.
    + lia.
    + rewrite length_app, repeat_length. cbn [length] in *. lia.
    + apply Forall_forall. intros sh Hin.
      rewrite Forall_forall in Hall. destruct (Hall sh Hin) as [bs Hbs].
      exists bs. now rewrite peval_app_zeros.
    + reflexivity.
  - apply Hdec. cbn. tauto.
Qed.

Lemma recover_from_enough_shares_witness :
  exists phrase,
    @recover_seed letters_codec six_shares (word_count wide_seed / 3 * 32)
      None = Ok phrase /\
    @canonical letters_codec phrase /\
    @seed_to_int letters_codec phrase 256 = Ok example_secret /\
    (phrase = wide_seed <-> @canonical letters_codec wide_seed).
Proof.
  apply (recover_from_enough_shares letters_codec wide_seed 3 6 128 P128
           example_secret [5; 7] six_shares six_shares None).
  - exact letters_codec_laws.
  - unfold valid_configuration.
    split; [lia|]. split; [vm_compute; tauto|]. split; [vm_compute; tauto|].
    vm_compute. discriminate.
  - lia.
  - lia.
  - reflexivity.
  - vm_compute. reflexivity.
  - vm_compute. reflexivity.
  - vm_compute. reflexivity.
  - exact six_shares_NoDup.
  - apply incl_refl.
  - vm_compute. discriminate.
  - left. reflexivity.
Defined.

(** ** The results and errors of [_lagrange_interpolate] *)

Lemma rmap_first_error {A B} (f : A -> result B) l1 a l2 e :
  (forall b, In b l1 -> exists v, f b = Ok v) -> f a = Err e ->
  rmap f (l1 ++ a :: l2) = Err e.
Proof.
  intros Hok Ha. induction l1 as [|b l1 IH]; cbn [app rmap].
  - now rewrite Ha.
  - destruct (Hok b (or_introl eq_refl)) as [v ->]. cbn [rbind].
    rewrite IH by (intros; apply Hok; right; assumption). reflexivity.
Qed.

Lemma rmap_seq_first_error {B} (f : nat -> result B) k n e :
  (n < k)%nat -> (forall i, (i < n)%nat -> exists v, f i = Ok v) ->
  f n = Err e -> rmap f (seq 0 k) = Err e.
Proof.
  intros Hn Hok He.
  replace k with (n + S (k - S n))%nat by lia.
  rewrite seq_app. cbn [seq Nat.add].
  apply rmap_first_error; [|assumption].
  intros i Hi. apply in_seq in Hi. apply Hok. lia.
Qed.

Lemma rmap_inv {A B} (f : A -> result B) l :
  (exists bs, rmap f l = Ok bs /\ length bs = length l) \/
  (exists a e, In a l /\ f a = Err e /\ rmap f l = Err e).
Proof.
  induction l as [|a l IH]; [left; exists []; auto|].
  cbn [rmap]. destruct (f a) as [b|e] eqn:Ha; cbn [rbind].
  - destruct IH as [[bs [-> Hlen]]|[a' [e [Hin [Hf ->]]]]]; cbn [rbind].
    + left. exists (b :: bs). cbn. auto.
    + right. exists a', e. cbn. auto.
  - right. exists a, e. cbn. auto.
Qed.

Lemma lagrange_returns x x_s y_s p :
  NoDup x_s -> p <> 0 -> (length x_s <= length y_s)%nat ->
  exists v, _lagrange_interpolate x x_s y_s p = Ok v.
Proof.
  intros Hnd Hp Hlen. unfold _lagrange_interpolate.
  apply len_set_NoDup in Hnd. rewrite Hnd, Nat.eqb_refl. cbn [negb].
  erewrite rmap_ok.
  - cbn [rbind]. rewrite py_mod_ok by assumption. eauto.
  - intros i Hi. apply in_seq in Hi.
    rewrite (index_nth y_s 0) by lia. cbn [rbind].
    rewrite py_mod_ok by assumption. reflexivity.
Qed.

(** X9: [_lagrange_interpolate] never returns a value outside [[0, p)] for a
    positive [p].  With distinct x-values it returns a value as soon as
    [p] is not [0] and there is a y-value for every x-value; a missing
    y-value is an [IndexError], and [p = 0] a [ZeroDivisionError]. *)
Theorem lagrange_outcome x x_s y_s p :
  (forall v, _lagrange_interpolate x x_s y_s p = Ok v -> 0 < p ->
             0 <= v < p) /\
  (NoDup x_s -> p <> 0 -> (length x_s <= length y_s)%nat ->
   exists v, _lagrange_interpolate x x_s y_s p = Ok v) /\
  (NoDup x_s -> p <> 0 -> (length y_s < length x_s)%nat ->
   _lagrange_interpolate x x_s y_s p = Err IndexError) /\
  (NoDup x_s -> p = 0 -> (length x_s <= length y_s)%nat ->
   _lagrange_interpolate x x_s y_s p = Err ZeroDivisionError).
Proof.
  split; [|split; [|split]].
  - intros v H Hp. unfold _lagrange_interpolate in H.
    destruct (negb _); [discriminate|].
    destruct (rmap _ _) as [terms|e]; [|discriminate].
    cbn [rbind] in H. rewrite py_mod_ok in H by lia.
    injection H as <-. apply Z.mod_pos_bound. assumption.
  - intros Hnd Hp Hlen. now apply lagrange_returns.
  - intros Hnd Hp Hlen. unfold _lagrange_interpolate.
    apply len_set_NoDup in Hnd. rewrite Hnd, Nat.eqb_refl. cbn [negb].
    rewrite (rmap_seq_first_error _ _ (length y_s) IndexError);
      [reflexivity | assumption | |].
    + intros i Hi.
      rewrite (index_nth y_s 0) by lia. cbn [rbind].
      rewrite py_mod_ok by assumption. cbn [rbind].
      eexists. reflexivity.
    + unfold index.
      rewrite (proj2 (nth_error_None y_s (length y_s))) by lia.
      reflexivity.
  - intros Hnd -> Hlen. unfold _lagrange_interpolate.
    apply len_set_NoDup in Hnd. rewrite Hnd, Nat.eqb_refl. cbn [negb].
    destruct x_s as [|x0 rest]; [reflexivity|].
    rewrite (rmap_seq_first_error _ _ 0%nat ZeroDivisionError);
      [reflexivity | cbn; lia | intros; lia |].
    cbn [length] in Hlen.
    rewrite (index_nth y_s 0) by lia. reflexivity.
Qed.

Lemma lagrange_outcome_witness :
  (exists v, _lagrange_interpolate 0 [1; 2] [7; 9; 11] 13 = Ok v) /\
  _lagrange_interpolate 0 [1; 2; 3] [7; 9] 13 = Err IndexError /\
  _lagrange_interpolate 0 [1; 2] [7; 9] 0 = Err ZeroDivisionError.
Proof.
  split; [|split].
  - apply (proj1 (proj2 (lagrange_outcome 0 [1; 2] [7; 9; 11] 13)));
      [repeat constructor; cbn; intuition lia | lia | simpl; lia].
  - apply (proj1 (proj2 (proj2 (lagrange_outcome 0 [1; 2; 3] [7; 9] 13))));
      [repeat constructor; cbn; intuition lia | lia | simpl; lia].
  - apply (proj2 (proj2 (proj2 (lagrange_outcome 0 [1; 2] [7; 9] 0))));
      [repeat constructor; cbn; intuition lia | reflexivity | simpl; lia].
Defined.

(** ** The errors of [recover_seed] *)

Lemma dict_get_PRIMES key :
  (In key STRENGTH_ALLOWED /\
   exists prime, dict_get PRIMES key = Ok prime /\ prime <> 0) \/
  (~ In key STRENGTH_ALLOWED /\ dict_get PRIMES key = Err KeyError).
Proof.
  unfold PRIMES, STRENGTH_ALLOWED. cbn [dict_get In].
  repeat match goal with
         | |- context [?k =? key] =>
             destruct (Z.eqb_spec k key) as [<-|?];
             [left; split; [tauto | eexists; split; [reflexivity | discriminate]]|]
         end.
  right. split; [intuition congruence | reflexivity].
Qed.

Lemma seed_to_int_error {mnemo : Mnemonic} seed strength e :
  In strength STRENGTH_ALLOWED ->
  seed_to_int seed strength = Err e -> e = MnemonicError.
Proof.
  intros Hs H. unfold seed_to_int in H.
  apply in_list_In in Hs. rewrite Hs in H. cbn [negb] in H.
  destruct (to_entropy seed); cbn in H; [discriminate|].
  now injection H.
Qed.

(** X10: Whatever it is given, [recover_seed] raises nothing but its four
    [ValueError]s, the [AssertionError] of repeated share numbers, the
    [KeyError] of a share length without a prime, and the errors of the
    mnemonic library: never [OverflowError], [IndexError] or
    [ZeroDivisionError]. *)
Theorem recover_seed_raises (mnemo : Mnemonic) shares seed_strength prime e :
  recover_seed shares seed_strength prime = Err e ->
  e = AssertionError \/ e = KeyError \/ e = MnemonicError \/
  exists v, e = ValueError v /\
            In v [NeedTwoShares; SharesDifferentLengths;
                  SeedStrengthNotAllowed; FailedToRecover].
Proof.
  unfold recover_seed.
  destruct (length shares <? 2)%nat.
  { intro H. injection H as <-. right. right. right. eexists.
    split; [reflexivity | cbn; tauto]. }
  destruct (negb (len_set _ =? 1)%nat).
  { intro H. injection H as <-. right. right. right. eexists.
    split; [reflexivity | cbn; tauto]. }
  destruct (in_list seed_strength STRENGTH_ALLOWED) eqn:Hs; cbn [negb].
  2:{ intro H. injection H as <-. right. right. right. eexists.
      split; [reflexivity | cbn; tauto]. }
  apply in_list_In in Hs.
  set (default := dict_get PRIMES _).
  assert (Hres : forall r,
    r = match prime with
        | Some p => if p =? 0 then default else Ok p
        | None => default
        end ->
    (exists p, r = Ok p /\ p <> 0) \/ r = Err KeyError).
  { intros r ->.
    assert (Hd : (exists p, default = Ok p /\ p <> 0) \/ default = Err KeyError).
    { unfold default.
      destruct (dict_get_PRIMES
                  (word_count (snd (hd (0, EmptyString) shares)) / 3 * 32))
        as [[_ [p [-> Hp]]]|[_ ->]]; eauto. }
    destruct prime as [p|]; [|assumption].
    destruct (Z.eqb_spec p 0); [assumption | eauto]. }
  destruct (Hres _ eq_refl) as [[p [-> Hp]]| ->]; cbn [rbind];
    [|intro H; injection H as <-; tauto].
  destruct (rmap_inv (fun '(i, seed) =>
                        y <- seed_to_int seed seed_strength ;; Ok (i, y))
                     shares)
    as [[pts [-> Hlen]]|[[i ph] [e' [_ [Hf ->]]]]]; cbn [rbind].
  2:{ intro H. injection H as <-.
      destruct (seed_to_int ph seed_strength) as [y|e''] eqn:E;
        cbn [rbind] in Hf; [discriminate|].
      injection Hf as <-. apply seed_to_int_error in E; [tauto | assumption]. }
  destruct (ListDec.NoDup_dec Z.eq_dec (map fst pts)) as [Hnd|Hnd].
  - destruct (lagrange_returns 0 (map fst pts) (map snd pts) p Hnd Hp)
      as [v ->]; [now rewrite !length_map|].
    cbn [rbind]. unfold int_to_seed.
    apply in_list_In in Hs. rewrite Hs. cbn [negb].
    destruct (int_to_bytes v (seed_strength / 8)) as [bs|e'] eqn:Hb;
      cbn [rbind].
    + destruct (to_mnemonic bs); cbn; [discriminate|].
      intro H. injection H as <-. tauto.
    + unfold int_to_bytes in Hb.
      destruct (_ || _); [|discriminate]. injection Hb as <-.
      intro H. injection H as <-. right. right. right. eexists.
      split; [reflexivity | cbn; tauto].
  - rewrite lagrange_duplicate by assumption. cbn [rbind].
    intro H. injection H as <-. tauto.
Qed.

Lemma recover_seed_raises_witness :
  ValueError FailedToRecover = AssertionError \/
  ValueError FailedToRecover = KeyError \/
  ValueError FailedToRecover = MnemonicError \/
  exists v, ValueError FailedToRecover = ValueError v /\
            In v [NeedTwoShares; SharesDifferentLengths;
                  SeedStrengthNotAllowed; FailedToRecover].
Proof.
  apply (recover_seed_raises letters_codec
           [(1, "dat dat dat dat dat dat dat dat dat dat dat dat"%string);
            (2, "aaa aaa aaa aaa aaa aaa aaa aaa aaa aaa aaa aaa"%string)]
           128 (Some (2 ^ 200)) (ValueError FailedToRecover)).
  vm_compute. reflexivity.
Defined.

(** ** Interpolation at any point, in any order *)

Lemma distinct_mod_units p x_s :
  Z.prime p ->
  (forall a b, In a x_s -> In b x_s -> a <> b -> a mod p <> b mod p) ->
  forall a b, In a x_s -> In b x_s -> a <> b -> unit_mod p (a - b).
Proof.
  intros Hp H a b Ha Hb Hab. apply prime_distinct_unit; auto.
Qed.

(** X11: Over a prime [p], from [k] points of a polynomial with at most [k]
    coefficients, the x-values distinct modulo [p],
    [_lagrange_interpolate x] returns the value of the polynomial at [x],
    reduced, for every [x]. *)
Theorem lagrange_any_point p poly x x_s y_s :
  Z.prime p ->
  (length poly <= length x_s)%nat ->
  NoDup x_s ->
  (forall a b, In a x_s -> In b x_s -> a <> b -> a mod p <> b mod p) ->
  Forall2 (fun a y => y mod p = polynomial poly a mod p) x_s y_s ->
  _lagrange_interpolate x x_s y_s p = Ok (polynomial poly x mod p).
Proof.
  intros Hp Hlen Hnd Hdist Hpts.
  pose proof (Z.prime_ge_2 p Hp) as Hp2.
  rewrite <- peval_polynomial.
  apply (lagrange_interpolate_correct p ltac:(lia) x_s y_s).
  - assumption.
  - now apply distinct_mod_units.
  - symmetry. eapply Forall2_length; eassumption.
  - assumption.
  - intros i Hi. rewrite peval_polynomial.
    apply (Forall2_nth_Z _ _ _ i Hpts Hi).
Qed.

Lemma lagrange_any_point_witness :
  _lagrange_interpolate 5 [1; 2; 3] [1494; 1899; 1257] 2089
  = Ok (polynomial [42; 931; 521] 5 mod 2089).
Proof.
  apply (lagrange_any_point 2089 [42; 931; 521] 5 [1; 2; 3]
           [1494; 1899; 1257]).
  - exact prime_2089.
  - simpl. lia.
  - repeat constructor; cbn; intuition lia.
  - intros a b [<-|[<-|[<-|[]]]] [<-|[<-|[<-|[]]]] H;
      try congruence; vm_compute; discriminate.
  - repeat constructor.
Defined.

Lemma nth_map_fst_snd (pts : list (Z * Z)) i :
  (i < length pts)%nat ->
  In (nth i (map fst pts) 0, nth i (map snd pts) 0) pts.
Proof.
  intro Hi.
  rewrite (nth_indep (map fst pts) 0 (fst (0, 0)))
    by (rewrite length_map; assumption).
  rewrite (nth_indep (map snd pts) 0 (snd (0, 0)))
    by (rewrite length_map; assumption).
  rewrite !map_nth, <- surjective_pairing. apply nth_In. assumption.
Qed.

(** X12: The result of [_lagrange_interpolate] does not depend on the order in
    which the points are given. *)
Theorem lagrange_order_independent p x (pts pts' : list (Z * Z)) :
  Z.prime p ->
  Permutation pts pts' ->
  NoDup (map fst pts) ->
  (forall a b, In a (map fst pts) -> In b (map fst pts) -> a <> b ->
               a mod p <> b mod p) ->
  _lagrange_interpolate x (map fst pts') (map snd pts') p
  = _lagrange_interpolate x (map fst pts) (map snd pts) p.
Proof.
  intros Hp Hperm Hnd Hdist.
  pose proof (Z.prime_ge_2 p Hp) as Hp2.
  assert (Hpermx : Permutation (map fst pts) (map fst pts'))
    by now apply Permutation_map.
  pose proof (distinct_mod_units p _ Hp Hdist) as Hunits.
  rewrite (lagrange_interpolate_poly p ltac:(lia) (map fst pts) (map snd pts))
    by (assumption || now rewrite !length_map).
  apply (lagrange_interpolate_correct p ltac:(lia)).
  - eapply Permutation_NoDup; eassumption.
  - intros a b Ha Hb. apply Hunits; eapply Permutation_in;
      try eassumption; now symmetry.
  - now rewrite !length_map.
  - rewrite (lagrange_poly_length p (map fst pts) (map snd pts))
      by now rewrite !length_map.
    rewrite !length_map. apply Nat.eq_le_incl.
    now apply Permutation_length.
  - intros i Hi. rewrite length_map in Hi.
    pose proof (nth_map_fst_snd pts' i Hi) as Hin.
    apply (Permutation_in _ (Permutation_sym Hperm)) in Hin.
    destruct (In_nth pts _ (0, 0) Hin) as [j [Hj Hnth]].
    assert (Hx : nth j (map fst pts) 0 = nth i (map fst pts') 0).
    { rewrite (nth_indep (map fst pts) 0 (fst (0, 0)))
        by (rewrite length_map; assumption).
      now rewrite map_nth, Hnth. }
    assert (Hy : nth j (map snd pts) 0 = nth i (map snd pts') 0).
    { rewrite (nth_indep (map snd pts) 0 (snd (0, 0)))
        by (rewrite length_map; assumption).
      now rewrite map_nth, Hnth. }
    rewrite <- Hx, <- Hy. symmetry.
    apply lagrange_poly_at_point; try assumption; [lia | | ].
    + now rewrite !length_map.
    + now rewrite length_map.
Qed.

Lemma lagrange_order_independent_witness :
  _lagrange_interpolate 0 (map fst [(3, 1257); (1, 1494); (2, 1899)])
    (map snd [(3, 1257); (1, 1494); (2, 1899)]) 2089
  = _lagrange_interpolate 0 (map fst [(1, 1494); (2, 1899); (3, 1257)])
      (map snd [(1, 1494); (2, 1899); (3, 1257)]) 2089.
Proof.
  apply (lagrange_order_independent 2089 0
           [(1, 1494); (2, 1899); (3, 1257)]
           [(3, 1257); (1, 1494); (2, 1899)]).
  - exact prime_2089.
  - apply Permutation_sym.
    apply (Permutation_cons_app [(1, 1494); (2, 1899)] [] (3, 1257)).
    rewrite app_nil_r. reflexivity.
  - repeat constructor; cbn; intuition lia.
  - intros a b [<-|[<-|[<-|[]]]] [<-|[<-|[<-|[]]]] H;
      try congruence; vm_compute; discriminate.
Defined.

(** ** Fewer shares than the minimum fit every seed *)

Section Consistent.

Variable p : Z.
Hypothesis p_pos : 0 < p.

#[local] Existing Instances eqm_equiv add_eqm sub_eqm mul_eqm.
#[local] Notation "a == b" := (eqm p a b) (at level 70).

Lemma peval_congr f g x :
  Forall2 (eqm p) f g -> peval f x == peval g x.
Proof.
  induction 1 as [|a b f g Hab _ IH]; [reflexivity|].
  rewrite !peval_cons, Hab, IH. reflexivity.
Qed.

Lemma Forall2_eqm_mod l : Forall2 (eqm p) (map (fun c => c mod p) l) l.
Proof.
  induction l as [|a l IH]; cbn [map]; constructor; [|assumption].
  unfold eqm. apply Z.mod_mod. lia.
Qed.

(** Through [k] points whose x-values are not zero and differ by units,
    and any constant term, there is a polynomial of [k] further
    coefficients, each in [[0, p - 1]]. *)
Lemma consistent_polynomial x_s y_s c0 :
  NoDup (0 :: x_s) ->
  (forall a b, In a (0 :: x_s) -> In b (0 :: x_s) -> a <> b ->
               unit_mod p (a - b)) ->
  length y_s = length x_s ->
  exists coeffs,
    length coeffs = length x_s /\
    Forall (fun c => 0 <= c <= p - 1) coeffs /\
    forall i, (i < length x_s)%nat ->
      peval (c0 :: coeffs) (nth i x_s 0) == nth i y_s 0.
Proof.
  intros Hnd Hunits Hlen.
  set (xs := 0 :: x_s). set (ys := c0 :: y_s).
  assert (Hlen' : length ys = length xs) by (cbn; congruence).
  set (L := lagrange_poly p xs ys).
  pose proof (lagrange_poly_length p xs ys Hlen') as HL.
  pose proof (lagrange_poly_at_point p p_pos xs ys Hnd Hunits Hlen') as Hat.
  fold L in HL, Hat.
  set (Lp := L ++ repeat 0 (length xs - length L)).
  assert (HLp : length Lp = S (length x_s)).
  { unfold Lp. rewrite length_app, repeat_length.
    change (length xs) with (S (length x_s)) in *. lia. }
  assert (Hev : forall x, peval Lp x = peval L x)
    by (intro x; apply peval_app_zeros).
  destruct Lp as [|l0 rest] eqn:ELp; [discriminate|].
  assert (H0 : l0 == c0).
  { specialize (Hat 0%nat ltac:(cbn; lia)). cbn [nth xs ys] in Hat.
    rewrite <- Hev, peval_0 in Hat. exact Hat. }
  exists (map (fun c => c mod p) rest). split; [|split].
  - rewrite length_map. cbn in HLp. lia.
  - apply Forall_forall. intros c Hc. apply in_map_iff in Hc.
    destruct Hc as [c' [<- _]].
    pose proof (Z.mod_pos_bound c' p p_pos). lia.
  - intros i Hi.
    transitivity (peval (l0 :: rest) (nth i x_s 0)).
    + apply peval_congr. constructor; [now symmetry|].
      apply Forall2_eqm_mod.
    + rewrite Hev. apply (Hat (S i)). cbn. lia.
Qed.

Lemma coefficients_equal f g :
  length f = length g ->
  Forall (fun c => 0 <= c <= p - 1) f ->
  Forall (fun c => 0 <= c <= p - 1) g ->
  Forall (zero_mod p) (padd f (pscale (-1) g)) ->
  f = g.
Proof.
  revert g. induction f as [|a f IH]; intros [|b g] Hlen Hf Hg Hz;
    try discriminate; [reflexivity|].
  cbn [padd pscale map] in Hz.
  inversion Hf as [|? ? Ha Hf']; subst.
  inversion Hg as [|? ? Hb Hg']; subst.
  pose proof (Forall_inv Hz) as Hab. pose proof (Forall_inv_tail Hz) as Hz'.
  f_equal.
  - unfold zero_mod, eqm in Hab. rewrite Z.mod_0_l in Hab by lia.
    apply Z.mod_divide in Hab; [|lia]. destruct Hab as [q Hq].
    assert (q < 1) by nia. assert (-1 < q) by nia.
    assert (q = 0) by lia. subst q. lia.
  - apply IH; try assumption. cbn in Hlen. lia.
Qed.

(** Through the points of [consistent_polynomial] there is one list of
    coefficients only. *)
Lemma consistent_unique x_s c0 coeffs coeffs' :
  NoDup (0 :: x_s) ->
  (forall a b, In a (0 :: x_s) -> In b (0 :: x_s) -> a <> b ->
               unit_mod p (a - b)) ->
  length coeffs = length x_s ->
  length coeffs' = length x_s ->
  Forall (fun c => 0 <= c <= p - 1) coeffs ->
  Forall (fun c => 0 <= c <= p - 1) coeffs' ->
  (forall x, In x x_s ->
             peval (c0 :: coeffs) x == peval (c0 :: coeffs') x) ->
  coeffs = coeffs'.
Proof.
  intros Hnd Hunits Hlen Hlen' Hr Hr' Hat.
  set (diff := padd (c0 :: coeffs) (pscale (-1) (c0 :: coeffs'))).
  assert (Hzero : Forall (zero_mod p) diff).
  { apply (roots_zero p p_pos (0 :: x_s)).
    - unfold diff. rewrite padd_length, pscale_length. cbn [length]. lia.
    - apply pairs_of_distinct; [assumption|].
      intros a b Ha Hb Hab. apply Hunits; auto.
    - apply Forall_forall. intros x Hx. unfold diff.
      rewrite peval_padd, peval_pscale.
      assert (E : peval (c0 :: coeffs) x == peval (c0 :: coeffs') x).
      { destruct Hx as [<-|Hx]; [|now apply Hat].
        rewrite !peval_0. reflexivity. }
      rewrite E.
      replace (peval (c0 :: coeffs') x + -1 * peval (c0 :: coeffs') x)
        with 0 by ring.
      reflexivity. }
  unfold diff in Hzero. cbn [padd pscale map] in Hzero.
  apply coefficients_equal; [congruence | assumption | assumption |].
  exact (Forall_inv_tail Hzero).
Qed.

End Consistent.

(** [int_to_seed] writes different integers as different phrases. *)
Lemma int_to_seed_injective {mnemo : Mnemonic} (laws : MnemonicLaws mnemo)
    v w strength phrase :
  In strength STRENGTH_ALLOWED ->
  0 <= v < 2 ^ strength -> 0 <= w < 2 ^ strength ->
  int_to_seed v strength = Ok phrase ->
  int_to_seed w strength = Ok phrase ->
  v = w.
Proof.
  intros Hs Hv Hw Ev Ew.
  destruct (int_to_seed_fits laws v strength Hs Hv)
    as [bv [pv [_ [_ [Hbv [Hpv Hiv]]]]]].
  destruct (int_to_seed_fits laws w strength Hs Hw)
    as [bw [pw [_ [_ [Hbw [Hpw Hiw]]]]]].
  assert (pv = phrase) by congruence. assert (pw = phrase) by congruence.
  subst pv pw.
  pose proof (to_entropy_to_mnemonic mnemo laws bv phrase Hpv) as E1.
  pose proof (to_entropy_to_mnemonic mnemo laws bw phrase Hpw) as E2.
  congruence.
Qed.

Lemma rmap_In {A B} (f : A -> result B) l bs :
  rmap f l = Ok bs ->
  forall b, In b bs <-> exists a, In a l /\ f a = Ok b.
Proof.
  revert bs. induction l as [|a l IH]; cbn [rmap]; intros bs H b.
  - injection H as <-. split; [intros [] | intros [a [[] _]]].
  - destruct (f a) as [b0|e] eqn:Ha; [|discriminate]. cbn [rbind] in H.
    destruct (rmap f l) as [bs0|e]; [|discriminate]. cbn [rbind] in H.
    injection H as <-. specialize (IH bs0 eq_refl b). split.
    + intros [<-|Hin]; [exists a; cbn; auto|].
      apply IH in Hin. destruct Hin as [a' [Ha' Hf]].
      exists a'. cbn. auto.
    + intros [a' [[<-|Ha'] Hf]].
      * left. congruence.
      * right. apply IH. eauto.
Qed.

(** The shares of a polynomial, one by one. *)
Lemma shares_of_poly_In {mnemo : Mnemonic} poly n_shares prime
    share_strength shares :
  prime <> 0 ->
  shares_of_poly poly n_shares prime share_strength = Ok shares ->
  forall i phrase,
    In (i, phrase) shares <->
    In i (range 1 (n_shares + 1)) /\
    int_to_seed (peval poly i mod prime) share_strength = Ok phrase.
Proof.
  intros Hp H i phrase. unfold shares_of_poly in H.
  rewrite (rmap_ok _ (fun i => (i, peval poly i mod prime))) in H
    by (intros j _; rewrite eval_at_peval by assumption; reflexivity).
  cbn [rbind] in H. rewrite (rmap_In _ _ _ H). split.
  - intros [[j y] [Hin Hf]]. apply in_map_iff in Hin.
    destruct Hin as [j' [Hj' Hin]]. injection Hj' as -> <-.
    destruct (int_to_seed _ _) as [s|e] eqn:E; [|discriminate].
    cbn [rbind] in Hf. injection Hf as -> ->. auto.
  - intros [Hin Hs]. exists (i, peval poly i mod prime). split.
    + apply in_map_iff. eauto.
    + rewrite Hs. reflexivity.
Qed.

Lemma primes_coprime_10 strength prime :
  In strength STRENGTH_ALLOWED ->
  dict_get PRIMES strength = Ok prime ->
  forall d, 1 <= d <= 10 -> Z.gcd d prime = 1.
Proof.
  intros Hs Hp d Hd.
  destruct (Z.eq_dec d 10) as [->|Hne].
  - cbn in Hs.
    destruct Hs as [<-|[<-|[<-|[<-|[<-|[]]]]]];
      vm_compute in Hp; injection Hp as <-; reflexivity.
  - apply (primes_table strength prime Hs Hp). lia.
Qed.

(** Shares below the threshold fit any other seed. *)
Lemma shares_fit_other_seed {mnemo : Mnemonic} seed seed' minimum n_shares
    share_strength secret' draws shares (numbers : list Z) :
  MnemonicLaws mnemo ->
  yields (make_random_shares seed minimum n_shares share_strength) draws
         (Ok shares) ->
  n_shares <= 10 ->
  valid_configuration seed' minimum n_shares share_strength ->
  seed_to_int seed' 256 = Ok secret' ->
  NoDup numbers ->
  Z.of_nat (length numbers) < minimum ->
  exists draws' shares',
    yields (make_random_shares seed' minimum n_shares share_strength) draws'
           (Ok shares') /\
    length draws' = length draws /\
    forall sh, In sh shares -> In (fst sh) numbers -> In sh shares'.
Proof.
  intros laws Hy Hn Hvalid' Hsecret' Hnd Hfew.
  destruct (make_random_shares_inv seed minimum n_shares share_strength
              draws shares laws Hy)
    as [Hvalid [prime [secret [Hprime [Hsecret [Hdraws [Hshares _]]]]]]].
  pose proof Hvalid as [_ [_ [Hs _]]].
  destruct (primes_table share_strength prime Hs Hprime) as [Hp _].
  pose proof (primes_coprime_10 share_strength prime Hs Hprime) as Hgcd.
  set (poly := secret :: draws) in *.
  (* the share numbers asked for that were handed out *)
  set (x_s := filter (fun i => in_list i (range 1 (n_shares + 1))) numbers).
  assert (Hx : forall i, In i x_s <-> In i numbers /\ 1 <= i <= n_shares).
  { intro i. unfold x_s. rewrite filter_In.
    destruct (in_list i (range 1 (n_shares + 1))) eqn:E.
    - apply in_list_In in E. apply range_In in E. intuition lia.
    - apply in_list_not_In in E. rewrite range_In in E.
      intuition (discriminate || lia). }
  assert (Hxlen : (length x_s <= length numbers)%nat)
    by apply filter_length_le.
  destruct (consistent_polynomial prime ltac:(lia) x_s
              (map (fun i => peval poly i) x_s) secret')
    as [coeffs [Hclen [Hcrange Hcat]]].
  - constructor; [|now apply NoDup_filter].
    intro H0. apply Hx in H0. lia.
  - assert (Hb : forall a, In a (0 :: x_s) -> 0 <= a <= 10).
    { intros a [<-|Ha]; [lia|]. apply Hx in Ha. lia. }
    intros a b Ha Hb' Hab. apply Hb in Ha, Hb'.
    unfold unit_mod, Z.coprime.
    destruct (Z_lt_le_dec b a).
    + apply Hgcd. lia.
    + rewrite <- Z.gcd_opp_l. apply Hgcd. lia.
  - apply length_map.
  - set (draws' := coeffs ++ repeat 0 (length draws - length coeffs)).
    assert (Hev : forall x, peval (secret' :: draws') x
                            = peval (secret' :: coeffs) x).
    { intro x. unfold draws'. rewrite app_comm_cons. apply peval_app_zeros. }
    destruct (@shares_of_poly_ok mnemo laws (secret' :: draws') n_shares prime
                share_strength Hs Hprime) as [shares' [Hshares' _]].
    assert (Hdlen : length draws' = length draws).
    { unfold draws'. rewrite length_app, repeat_length. lia. }
    exists draws', shares'. split; [|split; [assumption|]].
    + apply (@yields_make_random_shares mnemo seed' minimum n_shares share_strength
               prime secret' draws' _ Hvalid' Hprime Hsecret').
      split; [congruence|]. split; [|congruence].
      unfold draws'. apply Forall_app. split; [assumption|].
      apply Forall_forall. intros c Hc. apply repeat_spec in Hc. lia.
    + intros [i phrase] Hin Hnum. cbn [fst] in Hnum.
      apply (shares_of_poly_In poly n_shares prime share_strength shares
               ltac:(lia) Hshares) in Hin.
      destruct Hin as [Hr Hphrase].
      apply (shares_of_poly_In _ n_shares prime share_strength shares'
               ltac:(lia) Hshares').
      split; [assumption|]. rewrite <- Hphrase. f_equal.
      rewrite Hev.
      assert (Hix : In i x_s) by (apply Hx; apply range_In in Hr; split; [assumption|lia]).
      destruct (In_nth x_s i 0 Hix) as [m [Hm Hnth]].
      specialize (Hcat m Hm). rewrite Hnth in Hcat.
      rewrite (nth_indep _ 0 (peval poly 0)) in Hcat
        by (rewrite length_map; assumption).
      rewrite (map_nth (fun i => peval poly i)), Hnth in Hcat.
      exact Hcat.
Qed.

(** And [minimum - 1] of them fit it through one list of draws only. *)
Lemma shares_fit_once {mnemo : Mnemonic} seed seed' minimum n_shares
    share_strength secret' draws shares (numbers : list Z)
    draws1 shares1 draws2 shares2 :
  MnemonicLaws mnemo ->
  yields (make_random_shares seed minimum n_shares share_strength) draws
         (Ok shares) ->
  n_shares <= 10 ->
  valid_configuration seed' minimum n_shares share_strength ->
  seed_to_int seed' 256 = Ok secret' ->
  NoDup numbers ->
  Z.of_nat (length numbers) = minimum - 1 ->
  incl numbers (range 1 (n_shares + 1)) ->
  yields (make_random_shares seed' minimum n_shares share_strength) draws1
         (Ok shares1) ->
  yields (make_random_shares seed' minimum n_shares share_strength) draws2
         (Ok shares2) ->
  (forall sh, In sh shares -> In (fst sh) numbers -> In sh shares1) ->
  (forall sh, In sh shares -> In (fst sh) numbers -> In sh shares2) ->
  draws1 = draws2.
Proof.
  intros laws Hy Hn Hvalid' Hsecret' Hnd Hlen Hincl Hy1 Hy2 Hs1 Hs2.
  destruct (make_random_shares_inv seed minimum n_shares share_strength
              draws shares laws Hy)
    as [Hvalid [prime [secret [Hprime [_ [_ [_ [Hfst _]]]]]]]].
  pose proof Hvalid as [_ [_ [Hs _]]].
  destruct (primes_table share_strength prime Hs Hprime) as [Hp _].
  pose proof (primes_coprime_10 share_strength prime Hs Hprime) as Hgcd.
  apply (yields_make_random_shares seed' minimum n_shares share_strength
           prime secret' draws1 _ Hvalid' Hprime Hsecret') in Hy1.
  apply (yields_make_random_shares seed' minimum n_shares share_strength
           prime secret' draws2 _ Hvalid' Hprime Hsecret') in Hy2.
  destruct Hy1 as [Hl1 [Hr1 Hsh1]], Hy2 as [Hl2 [Hr2 Hsh2]].
  symmetry in Hsh1, Hsh2.
  apply (consistent_unique prime ltac:(lia) numbers secret').
  - constructor; [|assumption].
    intro H0. apply Hincl, range_In in H0. lia.
  - assert (Hb : forall a, In a (0 :: numbers) -> 0 <= a <= 10).
    { intros a [<-|Ha]; [lia|]. apply Hincl, range_In in Ha. lia. }
    intros a b Ha Hb' Hab. apply Hb in Ha, Hb'.
    unfold unit_mod, Z.coprime.
    destruct (Z_lt_le_dec b a).
    + apply Hgcd. lia.
    + rewrite <- Z.gcd_opp_l. apply Hgcd. lia.
  - lia.
  - lia.
  - assumption.
  - assumption.
  - intros i Hi.
    assert (Hin : In i (map fst shares))
      by (rewrite Hfst; now apply Hincl).
    apply in_map_iff in Hin. destruct Hin as [[i' phrase] [E Hin]].
    cbn [fst] in E. subst i'.
    pose proof (Hs1 _ Hin Hi) as H1. pose proof (Hs2 _ Hin Hi) as H2.
    apply (shares_of_poly_In _ n_shares prime share_strength shares1
             ltac:(lia) Hsh1) in H1.
    apply (shares_of_poly_In _ n_shares prime share_strength shares2
             ltac:(lia) Hsh2) in H2.
    destruct H1 as [_ H1], H2 as [_ H2].
    assert (Hrange : forall v, 0 <= v mod prime < 2 ^ share_strength).
    { intro v. pose proof (Z.mod_pos_bound v prime ltac:(lia)). lia. }
    apply (int_to_seed_injective laws _ _ share_strength phrase Hs
             (Hrange _) (Hrange _) H1 H2).
Qed.

(** X13: Shares below the threshold fit every seed, and [minimum - 1] of
    them in one way only.  Take any execution of [make_random_shares] on a
    seed, of at most ten shares, and fewer than [minimum] of the share
    numbers.  For every other seed of the same configuration there is an
    execution, its draws in the same range, that hands out the very same
    shares under these numbers; and when the numbers are [minimum - 1]
    numbers of shares, the draws of such an execution are unique: every
    seed has exactly one execution that agrees with what was seen. *)
Theorem shares_hide_seed (mnemo : Mnemonic) seed seed' minimum n_shares
    share_strength secret' draws shares (numbers : list Z) :
  MnemonicLaws mnemo ->
  yields (make_random_shares seed minimum n_shares share_strength) draws
         (Ok shares) ->
  n_shares <= 10 ->
  valid_configuration seed' minimum n_shares share_strength ->
  seed_to_int seed' 256 = Ok secret' ->
  NoDup numbers ->
  Z.of_nat (length numbers) < minimum ->
  (exists draws' shares',
      yields (make_random_shares seed' minimum n_shares share_strength)
             draws' (Ok shares') /\
      length draws' = length draws /\
      forall sh, In sh shares -> In (fst sh) numbers -> In sh shares') /\
  (Z.of_nat (length numbers) = minimum - 1 ->
   incl numbers (range 1 (n_shares + 1)) ->
   forall draws1 shares1 draws2 shares2,
     yields (make_random_shares seed' minimum n_shares share_strength)
            draws1 (Ok shares1) ->
     yields (make_random_shares seed' minimum n_shares share_strength)
            draws2 (Ok shares2) ->
     (forall sh, In sh shares -> In (fst sh) numbers -> In sh shares1) ->
     (forall sh, In sh shares -> In (fst sh) numbers -> In sh shares2) ->
     draws1 = draws2).
Proof.
  intros laws Hy Hn Hvalid' Hsecret' Hnd Hfew. split.
  - now apply (shares_fit_other_seed seed seed' minimum n_shares
                 share_strength secret' draws shares numbers).
  - intros Hlen Hincl draws1 shares1 draws2 shares2 Hy1 Hy2 Hs1 Hs2.
    now apply (shares_fit_once seed seed' minimum n_shares share_strength
                 secret' draws shares numbers draws1 shares1 draws2 shares2).
Qed.

Lemma shares_hide_seed_witness :
  (exists draws' shares',
      yields (@make_random_shares letters_codec ones_seed 3 6 128)
             draws' (Ok shares') /\
      length draws' = length [5; 7] /\
      forall sh, In sh six_shares -> In (fst sh) [2; 5] -> In sh shares') /\
  (Z.of_nat (length [2; 5]) = 3 - 1 ->
   incl [2; 5] (range 1 (6 + 1)) ->
   forall draws1 shares1 draws2 shares2,
     yields (@make_random_shares letters_codec ones_seed 3 6 128)
            draws1 (Ok shares1) ->
     yields (@make_random_shares letters_codec ones_seed 3 6 128)
            draws2 (Ok shares2) ->
     (forall sh, In sh six_shares -> In (fst sh) [2; 5] -> In sh shares1) ->
     (forall sh, In sh six_shares -> In (fst sh) [2; 5] -> In sh shares2) ->
     draws1 = draws2).
Proof.
  apply (shares_hide_seed letters_codec example_seed ones_seed 3 6 128
           (2 ^ 128 - 1) [5; 7] six_shares [2; 5]).
  - exact letters_codec_laws.
  - vm_compute. reflexivity.
  - lia.
  - repeat split; vm_compute; try tauto; discriminate.
  - vm_compute. reflexivity.
  - repeat constructor; cbn; intuition lia.
  - cbn. lia.
Defined.

(** * Further properties of [make_shares.py] *)

Lemma rmap_each {A B} (f : A -> result B) l bs :
  rmap f l = Ok bs ->
  forall a, In a l -> exists b, f a = Ok b /\ In b bs.
Proof.
  revert bs. induction l as [|x l IH]; cbn [rmap]; intros bs H a Hin.
  - destruct Hin.
  - destruct (f x) as [b0|e] eqn:Hx; [|discriminate]. cbn [rbind] in H.
    destruct (rmap f l) as [bs0|e]; [|discriminate]. cbn [rbind] in H.
    injection H as <-. destruct Hin as [<-|Hin].
    + exists b0. split; [assumption | now left].
    + destruct (IH bs0 eq_refl a Hin) as [b [Hb Hbin]].
      exists b. split; [assumption | now right].
Qed.

Section MainProperties.

Context {mnemo : Mnemonic}.
Hypothesis laws : MnemonicLaws mnemo.


Lemma verification_inv seed seed_strength prime to_test u :
  Script.verification seed seed_strength prime to_test = Ok u ->
  forall subgroup, In subgroup to_test ->
    recover_seed subgroup seed_strength (Some prime) = Ok seed.
Proof.
  unfold Script.verification. intros H subgroup Hin.
  destruct (rmap _ to_test) as [checks|e] eqn:Hchecks; [|discriminate].
  cbn [rbind] in H.
  destruct (forallb (fun check => check) checks) eqn:Hall; [|discriminate].
  destruct (rmap_each _ _ _ Hchecks subgroup Hin) as [b [Hb Hbin]].
  destruct (recover_seed subgroup seed_strength (Some prime))
    as [recovered|e]; [|discriminate].
  cbn [rbind] in Hb. injection Hb as <-.
  rewrite forallb_forall in Hall. apply Hall in Hbin.
  apply String.eqb_eq in Hbin. now subst.
Qed.

Lemma verification_short seed seed_strength prime subgroup to_test :
  (length subgroup < 2)%nat ->
  Script.verification seed seed_strength prime (subgroup :: to_test)
  = Err (ValueError NeedTwoShares).
Proof.
  intro H. unfold Script.verification, recover_seed. cbn [rmap].
  destruct (Nat.ltb_spec (length subgroup) 2); [reflexivity | lia].
Qed.

Lemma dict_lookup_PRIMES_STR strength :
  In strength STRENGTH_ALLOWED ->
  exists prime_str, dict_lookup PRIMES_STR strength = Ok prime_str.
Proof.
  cbn. intros [<-|[<-|[<-|[<-|[<-|[]]]]]]; eexists; reflexivity.
Qed.

Lemma shares_NoDup (shares : list share) n_shares :
  map fst shares = range 1 (n_shares + 1) -> NoDup shares.
Proof.
  intro H. apply (NoDup_map_inv fst). rewrite H. apply range_NoDup.
Qed.

(** What [permutations_to_test] holds: arrangements of [minimum] of the
    shares when all are listed, and results of [sample] otherwise. *)
Lemma to_test_samples (shares : list share) minimum samples to_test :
  NoDup shares ->
  Forall (is_sample shares (Z.to_nat minimum)) samples ->
  permutations_to_test share_eq_dec shares minimum samples
  = Some (Ok to_test) ->
  0 <= minimum /\
  forall subgroup, In subgroup to_test ->
                   is_sample shares (Z.to_nat minimum) subgroup.
Proof.
  intros Hnd Hs H. unfold permutations_to_test in H.
  destruct (len_permutations shares (Some minimum) >? 100) eqn:Hmany.
  - destruct (next_permutations share_eq_dec 100 [] samples) as [chosen|] eqn:E;
      [|discriminate].
    injection H as <-. split.
    + unfold len_permutations in Hmany.
      destruct (Z_lt_le_dec minimum 0) as [Hneg|]; [|assumption].
      destruct (minimum >? Z.of_nat (length shares)); [discriminate|].
      assert (Hnil : range (Z.of_nat (length shares) - minimum + 1)
                           (Z.of_nat (length shares) + 1) = []).
      { apply length_zero_iff_nil. rewrite range_length. lia. }
      rewrite Hnil in Hmany. discriminate.
    + intros subgroup Hin.
      destruct (next_permutations_spec share_eq_dec 100 [] samples chosen E)
        as [_ [_ Hc]].
      rewrite Forall_forall in Hs. apply Hs. now apply Hc.
  - unfold permutations in H.
    destruct (Z.ltb_spec minimum 0); [discriminate|].
    injection H as <-. split; [assumption|].
    intros subgroup Hin. now apply arrangements_sample.
Qed.

End MainProperties.

(** X14: Shares are only printed after they were checked.  When the script gets
    to its prints, the shares are those of an execution of
    [make_random_shares] on the seed, and [recover_seed] gave the seed back
    from every subgroup of [permutations_to_test]; when these are the
    arrangements of [minimum] shares, at most 100, from every [minimum]
    distinct shares in any order. *)
Theorem main_prints_verified_shares (mnemo : Mnemonic)
    args generated draws samples out :
  MnemonicLaws mnemo ->
  Script.main args generated draws samples = Some (Script.Done out) ->
  let seed := Script.main_seed out in
  let shares := Script.shares_printed out in
  let minimum := Script.minimum args in
  let seed_strength := word_count seed / 3 * 32 in
  Script.choose_seed args generated = Script.Done seed /\
  In (word_count seed) LENGTH_ALLOWED /\
  exists share_strength prime to_test,
    yields (make_random_shares seed minimum (Script.n_shares args)
              share_strength) draws (Ok shares) /\
    dict_get PRIMES share_strength = Ok prime /\
    dict_lookup PRIMES_STR share_strength = Ok (Script.prime_used out) /\
    permutations_to_test share_eq_dec shares minimum samples
    = Some (Ok to_test) /\
    (forall subgroup, In subgroup to_test ->
       recover_seed subgroup seed_strength (Some prime) = Ok seed) /\
    (len_permutations shares (Some minimum) <= 100 ->
     forall subgroup, is_sample shares (Z.to_nat minimum) subgroup ->
       recover_seed subgroup seed_strength (Some prime) = Ok seed).
Proof.
  intros laws H. unfold Script.main in H.
  destruct (Script.choose_seed args generated) as [seed|e] eqn:Hseed;
    [|destruct draws; discriminate].
  destruct (in_list (word_count seed) LENGTH_ALLOWED) eqn:Hlen;
    cbn [negb] in H; [|destruct draws; discriminate].
  set (seed_strength := word_count seed / 3 * 32) in *.
  set (share_strength :=
         match Script.given_int (Script.share_strength args) with
         | Some s => s
         | None => seed_strength
         end) in *.
  destruct (in_list share_strength STRENGTH_ALLOWED);
    cbn [negb] in H; [|destruct draws; discriminate].
  destruct (share_strength <? seed_strength);
    [destruct draws; discriminate|].
  destruct (dict_get PRIMES share_strength) as [prime|e] eqn:Hprime;
    [|destruct draws; discriminate].
  destruct (dict_lookup PRIMES_STR share_strength) as [prime_str|e] eqn:Hstr;
    [|destruct draws; discriminate].
  destruct (run _ draws) as [[shares|e]|] eqn:Hrun; try discriminate.
  destruct (permutations_to_test share_eq_dec shares (Script.minimum args)
              samples) as [[to_test|e]|] eqn:Htest; try discriminate.
  destruct (Script.verification seed seed_strength prime to_test)
    as [u|e] eqn:Hver; [|discriminate].
  injection H as <-.
  cbv zeta. cbn [Script.main_seed Script.shares_printed Script.prime_used].
  split; [reflexivity|]. split; [now apply in_list_In|].
  exists share_strength, prime, to_test.
  pose proof (verification_inv _ _ _ _ _ Hver) as Hall.
  repeat (split; [assumption|]).
  intros Hfew subgroup Hsample.
  apply Hall. unfold permutations_to_test in Htest.
  destruct (Z.gtb_spec (len_permutations shares (Some (Script.minimum args)))
              100); [lia|].
  unfold permutations in Htest.
  destruct (Script.minimum args <? 0); [discriminate|].
  injection Htest as <-.
  apply arrangements_sample; [|assumption].
  destruct (make_random_shares_inv _ _ _ _ _ _ laws Hrun)
    as [_ [p [s [_ [_ [_ [_ [Hfst _]]]]]]]].
  now apply shares_NoDup with (n_shares := Script.n_shares args).
Qed.

Lemma main_prints_verified_shares_witness :
  Script.choose_seed example_arguments EmptyString = Script.Done example_seed /\
  In (word_count example_seed) LENGTH_ALLOWED /\
  exists share_strength prime to_test,
    yields (@make_random_shares letters_codec example_seed 3 6 share_strength)
           [5; 7] (Ok six_shares) /\
    dict_get PRIMES share_strength = Ok prime /\
    dict_lookup PRIMES_STR share_strength = Ok "2^128 - 159"%string /\
    permutations_to_test share_eq_dec six_shares 3 biased_samples
    = Some (Ok to_test) /\
    (forall subgroup, In subgroup to_test ->
       @recover_seed letters_codec subgroup (word_count example_seed / 3 * 32)
                     (Some prime) = Ok example_seed) /\
    (len_permutations six_shares (Some 3) <= 100 ->
     forall subgroup, is_sample six_shares (Z.to_nat 3) subgroup ->
       @recover_seed letters_codec subgroup (word_count example_seed / 3 * 32)
                     (Some prime) = Ok example_seed).
Proof.
  apply (main_prints_verified_shares letters_codec example_arguments
           EmptyString [5; 7] biased_samples example_printed).
  - exact letters_codec_laws.
  - vm_compute. reflexivity.
Defined.

(** X15: The script makes no shares of which fewer than two recover the seed:
    with [minimum] below 2 every run ends in an exception, whatever the
    other arguments are. *)
Theorem main_minimum_below_two (mnemo : Mnemonic)
    args generated draws samples r :
  MnemonicLaws mnemo ->
  Script.minimum args < 2 ->
  Forall (fun s : list share => length s = Z.to_nat (Script.minimum args))
         samples ->
  Script.main args generated draws samples = Some r ->
  exists e, r = Script.Raised e.
Proof.
  intros laws Hmin Hsamples H. unfold Script.main in H.
  assert (Hleave : forall e, Script.leave draws e = Some r ->
                             exists e', r = Script.Raised e').
  { intros e He. unfold Script.leave in He.
    destruct draws; [|discriminate]. injection He as <-. eauto. }
  destruct (Script.choose_seed args generated) as [seed|e]; [|eauto].
  destruct (in_list (word_count seed) LENGTH_ALLOWED);
    cbn [negb] in H; [|eauto].
  set (seed_strength := word_count seed / 3 * 32) in *.
  set (share_strength :=
         match Script.given_int (Script.share_strength args) with
         | Some s => s
         | None => seed_strength
         end) in *.
  destruct (in_list share_strength STRENGTH_ALLOWED);
    cbn [negb] in H; [|eauto].
  destruct (share_strength <? seed_strength); [eauto|].
  destruct (dict_get PRIMES share_strength) as [prime|e]; [|eauto].
  destruct (dict_lookup PRIMES_STR share_strength) as [prime_str|e]; [|eauto].
  destruct (run _ draws) as [[shares|e]|] eqn:Hrun;
    [| injection H as <-; eauto | discriminate].
  destruct (make_random_shares_inv _ _ _ _ _ _ laws Hrun)
    as [[Hle _] [p [s [_ [_ [_ [_ [Hfst _]]]]]]]].
  pose proof (shares_NoDup shares _ Hfst) as Hnd.
  assert (Hlen : length shares = Z.to_nat (Script.n_shares args)).
  { rewrite <- (length_map fst), Hfst, range_length. f_equal. lia. }
  destruct (permutations_to_test share_eq_dec shares (Script.minimum args)
              samples) as [[to_test|e]|] eqn:Htest;
    [| injection H as <-; eauto | discriminate].
  assert (Hshort : exists subgroup rest,
             to_test = subgroup :: rest /\ (length subgroup < 2)%nat).
  { unfold permutations_to_test in Htest.
    destruct (len_permutations shares (Some (Script.minimum args)) >? 100).
    - destruct (next_permutations share_eq_dec 100 [] samples)
        as [chosen|] eqn:E; [|discriminate].
      injection Htest as <-.
      destruct (next_permutations_spec share_eq_dec 100 [] samples chosen E)
        as [Hl [_ Hc]].
      destruct chosen as [|subgroup rest]; [discriminate|].
      exists subgroup, rest. split; [reflexivity|].
      destruct (Hc subgroup (or_introl eq_refl)) as [_ Hin].
      rewrite Forall_forall in Hsamples. rewrite (Hsamples _ Hin). lia.
    - unfold permutations in Htest.
      destruct (Z.ltb_spec (Script.minimum args) 0); [discriminate|].
      injection Htest as <-.
      assert (Hall : forall subgroup,
                 In subgroup (arrangements (Z.to_nat (Script.minimum args))
                                shares) ->
                 (length subgroup < 2)%nat).
      { intros subgroup Hin. apply arrangements_sample in Hin;
          [|assumption].
        destruct Hin as [_ [_ ->]]. lia. }
      destruct (arrangements (Z.to_nat (Script.minimum args)) shares)
        as [|subgroup rest] eqn:E.
      + exfalso.
        assert (Hcases : Script.minimum args = 0 \/ Script.minimum args = 1)
          by lia.
        destruct Hcases as [E0|E1].
        * rewrite E0 in E. discriminate.
        * rewrite E1 in E. destruct shares as [|a t].
          { cbn in Hlen. lia. }
          discriminate.
      + exists subgroup, rest. split; [reflexivity|].
        apply Hall. now left. }
  destruct Hshort as [subgroup [rest [-> Hshort]]].
  rewrite verification_short in H by assumption.
  injection H as <-. eauto.
Qed.

Lemma main_minimum_below_two_witness :
  @Script.main letters_codec
    {| Script.seed_phrase := Some example_seed;
       Script.generate_seed := None;
       Script.minimum := 1;
       Script.n_shares := 3;
       Script.share_strength := None |}
    EmptyString [] []
  = Some (Script.Raised (Script.Called (ValueError NeedTwoShares))) /\
  exists e,
    Script.Raised (Script.Called (ValueError NeedTwoShares))
    = @Script.Raised Script.printed e.
Proof.
  split; [vm_compute; reflexivity|].
  apply (main_minimum_below_two letters_codec
           {| Script.seed_phrase := Some example_seed;
              Script.generate_seed := None;
              Script.minimum := 1;
              Script.n_shares := 3;
              Script.share_strength := None |}
           EmptyString [] []).
  - exact letters_codec_laws.
  - cbn. lia.
  - constructor.
  - vm_compute. reflexivity.
Defined.

Lemma verification_differs {mnemo : Mnemonic} seed seed_strength prime
    recovered subgroup to_test :
  recovered <> seed ->
  (forall sg, In sg (subgroup :: to_test) ->
     recover_seed sg seed_strength (Some prime) = Ok recovered) ->
  Script.verification seed seed_strength prime (subgroup :: to_test)
  = Err AssertionError.
Proof.
  intros Hne H. unfold Script.verification.
  rewrite (rmap_ok _ (fun _ => false)).
  - reflexivity.
  - intros sg Hin. rewrite (H sg Hin). cbn [rbind].
    destruct (String.eqb_spec seed recovered); [congruence | reflexivity].
Qed.

Lemma to_test_nonempty (shares : list share) minimum samples to_test :
  NoDup shares ->
  0 <= minimum <= Z.of_nat (length shares) ->
  permutations_to_test share_eq_dec shares minimum samples
  = Some (Ok to_test) ->
  to_test <> [].
Proof.
  intros Hnd Hmin H. unfold permutations_to_test in H.
  destruct (len_permutations shares (Some minimum) >? 100).
  - destruct (next_permutations share_eq_dec 100 [] samples) as [chosen|] eqn:E;
      [|discriminate].
    injection H as <-.
    destruct (next_permutations_spec share_eq_dec 100 [] samples chosen E)
      as [Hl _].
    intros ->. discriminate.
  - unfold permutations in H.
    destruct (Z.ltb_spec minimum 0); [discriminate|].
    injection H as <-.
    assert (Hin : In (firstn (Z.to_nat minimum) shares)
                     (arrangements (Z.to_nat minimum) shares)).
    { apply arrangements_sample; [assumption|]. split; [|split].
      - rewrite <- (firstn_skipn (Z.to_nat minimum) shares) in Hnd.
        now apply NoDup_app_remove_r in Hnd.
      - intros a Ha. rewrite <- (firstn_skipn (Z.to_nat minimum) shares).
        apply in_or_app. now left.
      - rewrite length_firstn. lia. }
    intro E. rewrite E in Hin. destruct Hin.
Qed.



(** * Properties of [test_primes.py] *)

Lemma halve_spec s : forall r r' s',
  TestPrimes.halve r s = (r', s') ->
  r <= r' /\ Z.pos s = 2 ^ (r' - r) * Z.pos s' /\ Z.pos s' mod 2 = 1 /\
  (Z.pos s mod 2 = 0 -> r < r').
Proof.
  induction s as [s IH|s IH|]; intros r r' s' H; cbn [TestPrimes.halve] in H.
  - injection H as <- <-. rewrite Z.sub_diag, Z.mul_1_l.
    assert (Hodd : Z.pos s~1 mod 2 = 1).
    { rewrite Pos2Z.inj_xI.
      replace (2 * Z.pos s + 1) with (1 + Z.pos s * 2) by ring.
      now rewrite Z.mod_add by lia. }
    split; [lia|]. split; [reflexivity|]. split; [assumption|].
    intro Heven. rewrite Hodd in Heven. discriminate.
  - apply IH in H. destruct H as [Hr [Hs [Hodd _]]]. split; [lia|].
    split; [|split; [assumption | lia]].
    rewrite Pos2Z.inj_xO, Hs.
    replace (r' - r) with (Z.succ (r' - (r + 1))) by lia.
    rewrite Z.pow_succ_r by lia. ring.
  - injection H as <- <-. rewrite Z.sub_diag.
    split; [lia|]. split; [reflexivity|]. split; [reflexivity|].
    intro Heven. discriminate.
Qed.

Lemma decompose_spec m :
  0 < m ->
  exists r s,
    TestPrimes.decompose m = Some (r, s) /\
    m = 2 ^ r * s /\ 0 < s /\ 0 <= r /\ (m mod 2 = 0 -> 1 <= r).
Proof.
  intro Hm. destruct m as [|p|p]; try lia.
  cbn [TestPrimes.decompose].
  destruct (TestPrimes.halve 0 p) as [r s] eqn:Hh.
  destruct (halve_spec p 0 r s Hh) as [Hr [Hdec [_ Hpos]]].
  rewrite Z.sub_0_r in Hdec.
  exists r, (Z.pos s). split; [reflexivity|]. split; [assumption|].
  split; [lia|]. split; [assumption|]. intro H. apply Hpos in H. lia.
Qed.

Lemma square_root_of_one n x :
  Z.prime n -> 0 <= x < n -> x ^ 2 mod n = 1 -> x = 1 \/ x = n - 1.
Proof.
  intros Hn Hx H.
  pose proof (Z.prime_ge_2 n Hn) as Hn2.
  assert (Hdiv : (n | (x - 1) * (x + 1))).
  { apply Z.mod_divide; [lia|].
    replace ((x - 1) * (x + 1)) with (x ^ 2 - 1) by ring.
    rewrite Zminus_mod, H, (Z.mod_small 1 n) by lia.
    reflexivity. }
  apply Z.divide_prime_mul in Hdiv; [|assumption].
  destruct Hdiv as [[q Hq]|[q Hq]].
  - left. assert (q = 0) by nia. lia.
  - right. assert (q = 1) by nia. lia.
Qed.

(** When the inner loop runs to its [else], the last square is not 1. *)
Lemma squarings_false n : Z.prime n ->
  forall count x,
    0 <= x < n ->
    TestPrimes.squarings count x n = false ->
    x ^ (2 ^ (Z.of_nat count + 1)) mod n = 1 ->
    x = 1 \/ x = n - 1.
Proof.
  intros Hn. pose proof (Z.prime_ge_2 n Hn) as Hn2.
  induction count as [|count IH]; intros x Hx Hsq Hone.
  - apply square_root_of_one; assumption.
  - cbn [TestPrimes.squarings] in Hsq. unfold TestPrimes.pow in Hsq.
    destruct (Z.eqb_spec (x ^ 2 mod n) (n - 1)) as [|Hne]; [discriminate|].
    assert (Hx' : 0 <= x ^ 2 mod n < n) by (apply Z.mod_pos_bound; lia).
    destruct (IH (x ^ 2 mod n) Hx' Hsq) as [H1|H1].
    + rewrite Z.mod_pow_l, <- Z.pow_mul_r
        by (try lia; apply Z.pow_nonneg; lia).
      replace (2 * 2 ^ (Z.of_nat count + 1))
        with (2 ^ (Z.of_nat (S count) + 1)); [exact Hone|].
      rewrite Nat2Z.inj_succ.
      replace (Z.succ (Z.of_nat count) + 1)
        with (Z.succ (Z.of_nat count + 1)) by lia.
      rewrite Z.pow_succ_r by lia. reflexivity.
    + apply square_root_of_one; assumption.
    + contradiction.
Qed.

(** A base never witnesses against a prime. *)
Lemma no_witness_against_prime n r s a :
  Z.prime n -> n - 1 = 2 ^ r * s -> 1 <= r -> 0 < s ->
  2 <= a < n - 1 ->
  let x := TestPrimes.pow a s n in
  (x =? 1) || (x =? n - 1) = false ->
  TestPrimes.squarings (Z.to_nat (r - 1)) x n = true.
Proof.
  intros Hn Hdec Hr Hs Ha x Hx.
  pose proof (Z.prime_ge_2 n Hn) as Hn2.
  destruct (TestPrimes.squarings (Z.to_nat (r - 1)) x n) eqn:Hsq;
    [reflexivity|exfalso].
  apply orb_false_iff in Hx. destruct Hx as [H1 H2].
  apply Z.eqb_neq in H1, H2.
  assert (Hbound : 0 <= x < n)
    by (unfold x, TestPrimes.pow; apply Z.mod_pos_bound; lia).
  destruct (squarings_false n Hn _ x Hbound Hsq); try contradiction.
  unfold x, TestPrimes.pow.
  rewrite Z.mod_pow_l, <- Z.pow_mul_r
    by (try lia; apply Z.pow_nonneg; lia).
  replace (Z.of_nat (Z.to_nat (r - 1)) + 1) with r by lia.
  replace (s * 2 ^ r) with (n - 1) by lia.
  apply ZmodInv.Z.fermat_nz; [assumption|].
  rewrite Z.mod_small; lia.
Qed.

Lemma rounds_prime n r s :
  Z.prime n -> 5 <= n -> n - 1 = 2 ^ r * s -> 1 <= r -> 0 < s ->
  forall k draws,
    (forall v, TestPrimes.run (TestPrimes.rounds k n r s) draws = Some v ->
               v = TestPrimes.Returns true) /\
    (length draws = k -> Forall (fun a => 2 <= a < n - 1) draws ->
     TestPrimes.run (TestPrimes.rounds k n r s) draws
     = Some (TestPrimes.Returns true)).
Proof.
  intros Hn H5 Hdec Hr Hs.
  induction k as [|k IH]; intros draws; cbn [TestPrimes.rounds].
  - destruct draws; cbn; split; try discriminate; try congruence.
  - unfold TestPrimes.randrange.
    destruct (Z.leb_spec (n - 1) 2); [lia|].
    destruct draws as [|a rest]; cbn [TestPrimes.run length].
    + split; discriminate.
    + destruct (Z.leb_spec 2 a), (Z.ltb_spec a (n - 1)); cbn [andb];
        try (split; [discriminate | intros _ Hall; inversion Hall; lia]).
      assert (Hbody :
                (if (TestPrimes.pow a s n =? 1)
                    || (TestPrimes.pow a s n =? n - 1)
                 then TestPrimes.rounds k n r s
                 else if TestPrimes.squarings (Z.to_nat (r - 1))
                           (TestPrimes.pow a s n) n
                      then TestPrimes.rounds k n r s
                      else TestPrimes.Answer false)
                = TestPrimes.rounds k n r s).
      { destruct ((TestPrimes.pow a s n =? 1)
                  || (TestPrimes.pow a s n =? n - 1)) eqn:E; [reflexivity|].
        rewrite (no_witness_against_prime n r s a) by (assumption || lia).
        reflexivity. }
      cbv zeta. rewrite Hbody. destruct (IH rest) as [IH1 IH2].
      split; [assumption|].
      intros Hlen Hall. inversion Hall. apply IH2; [lia | assumption].
Qed.

(** X17: [miller_rabin] never calls a prime composite.  On a prime [n] the
    first loop ends, no execution returns [False] or raises, and every
    [k] draws within the range of [randrange] give [True]. *)
Theorem miller_rabin_accepts_primes n k :
  Z.prime n ->
  exists t,
    TestPrimes.miller_rabin n k = Some t /\
    (forall draws v, TestPrimes.run t draws = Some v ->
                     v = TestPrimes.Returns true) /\
    (forall draws,
        length draws = (if n <=? 3 then O else Z.to_nat k) ->
        Forall (fun a => 2 <= a < n - 1) draws ->
        TestPrimes.run t draws = Some (TestPrimes.Returns true)).
Proof.
  intro Hn. pose proof (Z.prime_ge_2 n Hn) as Hn2.
  unfold TestPrimes.miller_rabin.
  destruct ((n =? 2) || (n =? 3)) eqn:Hsmall.
  - exists (TestPrimes.Answer true). split; [reflexivity|].
    assert (Hle : (n <=? 3) = true).
    { apply orb_true_iff in Hsmall. apply Z.leb_le.
      destruct Hsmall as [H|H]; apply Z.eqb_eq in H; lia. }
    rewrite Hle. split.
    + intros [|a rest] v H; cbn in H; congruence.
    + intros [|a rest] Hlen _; [reflexivity | discriminate].
  - apply orb_false_iff in Hsmall. destruct Hsmall as [H2 H3].
    apply Z.eqb_neq in H2, H3.
    destruct (Z.eqb_spec (n mod 2) 0) as [Heven|Hodd].
    + exfalso. apply Z.mod_divide in Heven; [|lia].
      apply (Z.divide_prime_prime 2 n Z.prime_2 Hn) in Heven. lia.
    + assert (H5 : 5 <= n).
      { destruct (Z.eq_dec n 4) as [->|]; [|lia].
        exfalso. apply Hodd. reflexivity. }
      assert (Heven : (n - 1) mod 2 = 0).
      { pose proof (Z.div_mod n 2 ltac:(lia)) as Hdm.
        pose proof (Z.mod_pos_bound n 2 ltac:(lia)) as Hb.
        assert (Hhalf : n - 1 = n / 2 * 2) by lia.
        rewrite Hhalf. apply Z.mod_mul. lia. }
      destruct (decompose_spec (n - 1) ltac:(lia))
        as [r [s [Hd [Hdec [Hs [_ Hr]]]]]].
      rewrite Hd.
      exists (TestPrimes.rounds (Z.to_nat k) n r s).
      split; [reflexivity|].
      assert (Hgt : (n <=? 3) = false) by (apply Z.leb_gt; lia).
      rewrite Hgt.
      pose proof (rounds_prime n r s Hn H5 Hdec (Hr Heven) Hs) as Hrounds.
      split.
      * intros draws v. apply Hrounds.
      * intros draws. apply Hrounds.
Qed.

Lemma miller_rabin_accepts_primes_witness :
  exists t,
    TestPrimes.miller_rabin 2089 2 = Some t /\
    (forall draws v, TestPrimes.run t draws = Some v ->
                     v = TestPrimes.Returns true) /\
    (forall draws,
        length draws = (if 2089 <=? 3 then O else Z.to_nat 2) ->
        Forall (fun a => 2 <= a < 2089 - 1) draws ->
        TestPrimes.run t draws = Some (TestPrimes.Returns true)).
Proof.
  apply (miller_rabin_accepts_primes 2089 2). exact prime_2089.
Defined.

Lemma pow_two_up n x j r :
  2 <= n -> 0 <= j <= r ->
  x ^ (2 ^ j) mod n = 1 -> x ^ (2 ^ r) mod n = 1.
Proof.
  intros Hn Hj H.
  replace r with (j + (r - j)) by lia.
  rewrite Z.pow_add_r, Z.pow_mul_r, <- Z.mod_pow_l, H
    by (try lia; apply Z.pow_nonneg; lia).
  rewrite Z.pow_1_l by (apply Z.pow_nonneg; lia).
  apply Z.mod_small. lia.
Qed.

Lemma minus_one_squared n x i :
  2 <= n -> 0 <= i ->
  x ^ (2 ^ i) mod n = n - 1 -> x ^ (2 ^ (i + 1)) mod n = 1.
Proof.
  intros Hn Hi H.
  rewrite Z.pow_add_r, Z.pow_1_r, Z.pow_mul_r, <- Z.mod_pow_l, H
    by (try lia; apply Z.pow_nonneg; lia).
  replace ((n - 1) ^ 2) with (1 + (n - 2) * n) by ring.
  rewrite Z.mod_add by lia. apply Z.mod_small. lia.
Qed.

(** When the inner loop breaks, one of the squares it made is [n - 1]. *)
Lemma squarings_true n : 2 <= n ->
  forall count x,
    TestPrimes.squarings count x n = true ->
    exists i, 1 <= i <= Z.of_nat count /\ x ^ (2 ^ i) mod n = n - 1.
Proof.
  intro Hn. induction count as [|count IH]; intros x H;
    cbn [TestPrimes.squarings] in H; [discriminate|].
  unfold TestPrimes.pow in H.
  destruct (Z.eqb_spec (x ^ 2 mod n) (n - 1)) as [E|_].
  - exists 1. split; [lia | exact E].
  - destruct (IH _ H) as [i [Hi Hx]]. exists (i + 1). split; [lia|].
    rewrite Z.mod_pow_l, <- Z.pow_mul_r in Hx
      by (try lia; apply Z.pow_nonneg; lia).
    rewrite Z.pow_add_r, Z.pow_1_r, (Z.mul_comm (2 ^ i) 2) by lia.
    exact Hx.
Qed.

Lemma rounds_true n r s :
  5 <= n -> n - 1 = 2 ^ r * s -> 1 <= r -> 0 < s ->
  forall k draws,
    TestPrimes.run (TestPrimes.rounds k n r s) draws
    = Some (TestPrimes.Returns true) ->
    length draws = k /\
    Forall (fun a => 2 <= a < n - 1 /\ a ^ (n - 1) mod n = 1) draws.
Proof.
  intros H5 Hdec Hr Hs.
  assert (Hfermat : forall a,
             TestPrimes.pow a s n ^ (2 ^ r) mod n = 1 ->
             a ^ (n - 1) mod n = 1).
  { intros a H. unfold TestPrimes.pow in H.
    rewrite Z.mod_pow_l, <- Z.pow_mul_r in H
      by (try lia; apply Z.pow_nonneg; lia).
    rewrite Hdec, (Z.mul_comm (2 ^ r) s). exact H. }
  induction k as [|k IH]; intros draws H; cbn [TestPrimes.rounds] in H.
  - destruct draws; [split; [reflexivity | constructor] | discriminate].
  - unfold TestPrimes.randrange in H.
    destruct (Z.leb_spec (n - 1) 2); [lia|].
    destruct draws as [|a rest]; cbn [TestPrimes.run] in H; [discriminate|].
    destruct (Z.leb_spec 2 a), (Z.ltb_spec a (n - 1)); cbn [andb] in H;
      try discriminate.
    cbv zeta in H.
    assert (Hcase :
              TestPrimes.run (TestPrimes.rounds k n r s) rest
              = Some (TestPrimes.Returns true) /\
              a ^ (n - 1) mod n = 1).
    { destruct (Z.eqb_spec (TestPrimes.pow a s n) 1) as [E1|_];
        cbn [orb] in H.
      - split; [assumption|]. apply Hfermat. rewrite E1.
        rewrite Z.pow_1_l by (apply Z.pow_nonneg; lia).
        apply Z.mod_small. lia.
      - destruct (Z.eqb_spec (TestPrimes.pow a s n) (n - 1)) as [E2|_].
        + split; [assumption|]. apply Hfermat.
          apply (pow_two_up n _ 1 r); [lia | lia |].
          apply (minus_one_squared n _ 0); [lia | lia |].
          change (2 ^ 0) with 1. rewrite Z.pow_1_r, E2.
          apply Z.mod_small. lia.
        + destruct (TestPrimes.squarings (Z.to_nat (r - 1))
                      (TestPrimes.pow a s n) n) eqn:Hsq;
            [|cbn in H; destruct rest; discriminate].
          split; [assumption|]. apply Hfermat.
          destruct (squarings_true n ltac:(lia) _ _ Hsq) as [i [Hi Hx]].
          apply (pow_two_up n _ (i + 1) r); [lia | lia |].
          apply minus_one_squared; [lia | lia | assumption]. }
    destruct Hcase as [Hrest Ha]. destruct (IH rest Hrest) as [Hlen Hall].
    split; [cbn [length]; lia|]. constructor; [|assumption]. auto.
Qed.

(** X18: [True] means that every base passed.  When [miller_rabin] returns
    [True] on an odd [n] from 5 on, it drew [k] bases between [2] and
    [n - 2], and each one satisfies Fermat's congruence; so a single drawn
    base [a] with [a ^ (n - 1) mod n <> 1] makes the answer [False]. *)
Theorem miller_rabin_true_bases_pass n k t draws :
  5 <= n -> n mod 2 = 1 ->
  TestPrimes.miller_rabin n k = Some t ->
  TestPrimes.run t draws = Some (TestPrimes.Returns true) ->
  length draws = Z.to_nat k /\
  Forall (fun a => 2 <= a < n - 1 /\ a ^ (n - 1) mod n = 1) draws.
Proof.
  intros H5 Hodd Ht Hrun. unfold TestPrimes.miller_rabin in Ht.
  destruct (Z.eqb_spec n 2); [lia|]. destruct (Z.eqb_spec n 3); [lia|].
  cbn [orb] in Ht. rewrite Hodd in Ht. cbn in Ht.
  assert (Heven : (n - 1) mod 2 = 0).
  { pose proof (Z.div_mod n 2 ltac:(lia)) as Hdm.
    assert (Hhalf : n - 1 = n / 2 * 2) by lia.
    rewrite Hhalf. apply Z.mod_mul. lia. }
  destruct (decompose_spec (n - 1) ltac:(lia))
    as [r [s [Hd [Hdec [Hs [_ Hr]]]]]].
  change (match TestPrimes.decompose (n - 1) with
          | Some (r, s) => Some (TestPrimes.rounds (Z.to_nat k) n r s)
          | None => None
          end = Some t) in Ht.
  rewrite Hd in Ht. injection Ht as <-.
  apply (rounds_true n r s H5 Hdec (Hr Heven) Hs). assumption.
Qed.

Lemma miller_rabin_true_bases_pass_witness :
  length [2; 7] = Z.to_nat 2 /\
  Forall (fun a => 2 <= a < 2089 - 1 /\ a ^ (2089 - 1) mod 2089 = 1) [2; 7].
Proof.
  apply (miller_rabin_true_bases_pass 2089 2
           (TestPrimes.rounds 2 2089 3 261) [2; 7]).
  - lia.
  - reflexivity.
  - reflexivity.
  - vm_compute. reflexivity.
Defined.

(** X19: The inputs on which [miller_rabin] does not test anything.  On 1 the
    first loop never ends.  With [k <= 0] every odd number but 1 is
    answered [True], a composite one as well.  On an odd number below 5
    other than 1 and 3, the negative ones, the first round raises the
    [ValueError] of [randrange]. *)
Theorem miller_rabin_untested n k :
  n mod 2 = 1 ->
  (n = 1 -> TestPrimes.miller_rabin n k = None) /\
  (n <> 1 -> k <= 0 ->
   TestPrimes.miller_rabin n k = Some (TestPrimes.Answer true)) /\
  (n <> 1 -> n <> 3 -> n < 5 -> 0 < k ->
   exists t, TestPrimes.miller_rabin n k = Some t /\
             TestPrimes.run t [] = Some TestPrimes.RaisesValueError).
Proof.
  intro Hodd. split; [intros ->; reflexivity|].
  assert (Hcases : n <> 1 ->
            n = 3 \/
            exists r s, TestPrimes.miller_rabin n k
                        = Some (TestPrimes.rounds (Z.to_nat k) n r s)).
  { intro H1. unfold TestPrimes.miller_rabin.
    destruct (Z.eqb_spec n 2) as [->|_]; [discriminate|].
    destruct (Z.eqb_spec n 3) as [->|_]; [now left|]. right.
    cbn [orb]. rewrite Hodd. cbn.
    destruct (n - 1) as [|p|p] eqn:Hp; [lia| |];
      cbn [TestPrimes.decompose];
      destruct (TestPrimes.halve 0 p) as [r s]; eauto. }
  split.
  - intros H1 Hk. destruct (Hcases H1) as [->|[r [s ->]]]; [reflexivity|].
    replace (Z.to_nat k) with O by lia. reflexivity.
  - intros H1 H3 H5 Hk. destruct (Hcases H1) as [->|[r [s ->]]]; [lia|].
    eexists. split; [reflexivity|].
    destruct (Z.to_nat k) as [|k'] eqn:Ek; [lia|].
    cbn [TestPrimes.rounds]. unfold TestPrimes.randrange.
    destruct (Z.leb_spec (n - 1) 2); [reflexivity|].
    exfalso. assert (n = 4) by lia. subst n. discriminate.
Qed.

Lemma miller_rabin_untested_witness :
  (9 = 1 -> TestPrimes.miller_rabin 9 0 = None) /\
  (9 <> 1 -> 0 <= 0 ->
   TestPrimes.miller_rabin 9 0 = Some (TestPrimes.Answer true)) /\
  (9 <> 1 -> 9 <> 3 -> 9 < 5 -> 0 < 0 ->
   exists t, TestPrimes.miller_rabin 9 0 = Some t /\
             TestPrimes.run t [] = Some TestPrimes.RaisesValueError).
Proof.
  apply (miller_rabin_untested 9 0). reflexivity.
Defined.

(** ** A seed whose integer is not below the prime *)

Lemma primes_near_power strength prime :
  In strength STRENGTH_ALLOWED ->
  dict_get PRIMES strength = Ok prime ->
  2 ^ strength < 2 * prime.
Proof.
  intros Hs Hp. cbn in Hs.
  destruct Hs as [<-|[<-|[<-|[<-|[<-|[]]]]]];
    vm_compute in Hp; injection Hp as <-; reflexivity.
Qed.

(** X20: The self-check stops the script where the round trip fails.  For a seed
    whose integer is not below the prime, with [minimum] between 2 and
    [n_shares] and at most ten shares, every run that gets to the check
    ends in its [AssertionError]: no shares are printed. *)
Theorem main_rejects_seed_above_prime (mnemo : Mnemonic)
    args generated seed share_strength prime secret draws samples r :
  MnemonicLaws mnemo ->
  Script.choose_seed args generated = Script.Done seed ->
  share_strength
  = match Script.given_int (Script.share_strength args) with
    | Some given => given
    | None => word_count seed / 3 * 32
    end ->
  valid_configuration seed (Script.minimum args) (Script.n_shares args)
                      share_strength ->
  2 <= Script.minimum args ->
  Script.n_shares args <= 10 ->
  dict_get PRIMES share_strength = Ok prime ->
  seed_to_int seed 256 = Ok secret ->
  prime <= secret ->
  (forall shares,
      yields (make_random_shares seed (Script.minimum args)
                (Script.n_shares args) share_strength) draws (Ok shares) ->
      Forall (is_sample shares (Z.to_nat (Script.minimum args))) samples) ->
  Script.main args generated draws samples = Some r ->
  r = Script.Raised (Script.Called AssertionError).
Proof.
  intros laws Hseed Hstrength Hvalid Hmin Hten Hprime Hsecret Habove
         Hsamples H.
  pose proof Hvalid as [Hle [Hl [Hs Hlow]]].
  destruct (length_strength _ Hl) as [Hss Hbytes].
  destruct (primes_table share_strength prime Hs Hprime) as [Hp _].
  pose proof (primes_near_power share_strength prime Hs Hprime) as Hnear.
  destruct (dict_lookup_PRIMES_STR share_strength Hs) as [prime_str Hstr].
  (* the integer of the seed is below the power of two of its strength *)
  assert (Hbound : 0 <= secret < 2 ^ (word_count seed / 3 * 32)).
  { unfold seed_to_int in Hsecret. cbn in Hsecret.
    destruct (to_entropy seed) as [ent|] eqn:Hent; [|discriminate].
    cbn in Hsecret. injection Hsecret as <-.
    destruct (to_entropy_words mnemo laws seed ent Hent) as [Hlen Hwc].
    pose proof (int_from_bytes_bound ent) as Hb.
    destruct (strength_has_prime _ Hss) as [q Hq].
    destruct (primes_table _ q Hss Hq) as [_ [Hpow _]].
    rewrite Hpow, (Hbytes _ Hlen Hwc). assumption. }
  assert (Hpows : 2 ^ (word_count seed / 3 * 32) <= 2 ^ share_strength)
    by (apply Z.pow_le_mono_r; lia).
  assert (Hmod : secret mod prime = secret - prime).
  { symmetry. apply (Z.mod_unique secret prime 1); lia. }
  destruct (int_to_seed_fits laws (secret - prime) _ Hss ltac:(lia))
    as [bs [recovered [_ [_ [Hv [Hph Hrec]]]]]].
  assert (Hne : recovered <> seed).
  { intros ->.
    pose proof (to_entropy_to_mnemonic mnemo laws bs seed Hph) as Hent.
    unfold seed_to_int in Hsecret. cbn in Hsecret.
    rewrite Hent in Hsecret. cbn in Hsecret. injection Hsecret as E. lia. }
  unfold Script.main in H. rewrite Hseed, <- Hstrength in H.
  apply in_list_In in Hl, Hs. rewrite Hl, Hs in H. cbn [negb] in H.
  destruct (Z.ltb_spec share_strength (word_count seed / 3 * 32)); [lia|].
  rewrite Hprime, Hstr in H.
  destruct (run _ draws) as [[shares|e]|] eqn:Hrun; [| |discriminate].
  2:{ exfalso.
      apply (yields_make_random_shares _ _ _ _ prime secret) in Hrun;
        try assumption.
      destruct Hrun as [_ [_ Hshares]].
      apply in_list_In in Hs.
      destruct (shares_of_poly_ok laws (secret :: draws)
                  (Script.n_shares args) prime share_strength Hs Hprime)
        as [shares [Hok _]].
      congruence. }
  specialize (Hsamples shares Hrun).
  destruct (make_random_shares_inv _ _ _ _ _ _ laws Hrun)
    as [_ [prime' [secret' [Hprime' [Hsecret' [Hdraws [_ [Hfst Hall]]]]]]]].
  assert (prime' = prime) by congruence. subst prime'.
  assert (secret' = secret) by congruence. subst secret'.
  pose proof (shares_NoDup shares _ Hfst) as Hnd.
  assert (Hlen : length shares = Z.to_nat (Script.n_shares args)).
  { rewrite <- (length_map fst), Hfst, range_length. f_equal. lia. }
  destruct (permutations_to_test share_eq_dec shares (Script.minimum args)
              samples) as [[to_test|e]|] eqn:Htest; [| |discriminate].
  - assert (Hfits : 0 <= Script.minimum args <= Z.of_nat (length shares))
      by lia.
    pose proof (to_test_nonempty shares _ samples to_test Hnd Hfits Htest)
      as Hnonempty.
    destruct (to_test_samples shares _ samples to_test Hnd Hsamples Htest)
      as [_ Htested].
    destruct to_test as [|subgroup rest]; [contradiction|].
    rewrite (verification_differs seed _ prime recovered) in H.
    + now injection H as <-.
    + assumption.
    + intros sg Hin. destruct (Htested sg Hin) as [Hn [Hi Hk]].
      rewrite (recover_subgroup_value laws seed (Script.minimum args)
                 (Script.n_shares args) share_strength prime
                 (secret :: draws) shares sg (Some prime)); try assumption.
      * cbn [nth]. rewrite Hmod, Hrec. reflexivity.
      * cbn [length]. lia.
      * lia.
      * right. reflexivity.
  - exfalso. unfold permutations_to_test in Htest.
    destruct (len_permutations shares (Some (Script.minimum args)) >? 100).
    + destruct (next_permutations share_eq_dec 100 [] samples);
        discriminate.
    + unfold permutations in Htest.
      destruct (Z.ltb_spec (Script.minimum args) 0); [lia|discriminate].
Qed.

Lemma main_rejects_seed_above_prime_witness :
  @Script.main letters_codec
    {| Script.seed_phrase := Some ones_seed;
       Script.generate_seed := None;
       Script.minimum := 2;
       Script.n_shares := 2;
       Script.share_strength := None |}
    EmptyString [5] []
  = Some (Script.Raised (Script.Called AssertionError)) /\
  Script.Raised (Script.Called AssertionError)
  = @Script.Raised Script.printed (Script.Called AssertionError).
Proof.
  split; [vm_compute; reflexivity|].
  apply (main_rejects_seed_above_prime letters_codec
           {| Script.seed_phrase := Some ones_seed;
              Script.generate_seed := None;
              Script.minimum := 2;
              Script.n_shares := 2;
              Script.share_strength := None |}
           EmptyString ones_seed 128 P128 (2 ^ 128 - 1) [5] []).
  - exact letters_codec_laws.
  - reflexivity.
  - reflexivity.
  - repeat split; vm_compute; try tauto; discriminate.
  - cbn. lia.
  - cbn. lia.
  - reflexivity.
  - vm_compute. reflexivity.
  - unfold P128. lia.
  - intros shares _. constructor.
  - vm_compute. reflexivity.
Defined.
